(** * Parallel character count (First_Exercise/Third/third.c)

    A shallow embedding of the program that counts the occurrences of one
    byte in a file with [P] forked workers, and of the single-process
    program it extends (First/count_char.c).

    C integers are carried as [Z] with the wrap-around of their width
    written out ([int] and [sig_atomic_t] are 32 bits; [off_t],
    [long long], [ssize_t] and [time_t] are 64 bits, as on LP64 Linux).
    The file buffer is a [list byte]; a read outside of it has no value.
    System calls are not part of the program: their results are supplied
    by a [World] record, and the calls a process makes are recorded as a
    list of events. *)

From Stdlib Require Import String Ascii DecimalString DecimalPos.
From Stdlib Require Import ZArith List Lia Bool Init.Byte.
From coqutil Require Import Byte Word.LittleEndianList.
Import ListNotations.

Local Open Scope Z_scope.

(** ** Machine integers *)

Module Mach.

Definition INT_MAX : Z := 2 ^ 31 - 1.
Definition OFF_MAX : Z := 2 ^ 63 - 1.

(** Two's complement wrap-around of a signed [w]-bit integer. *)
Definition swrap (w z : Z) : Z := (z + 2 ^ (w - 1)) mod 2 ^ w - 2 ^ (w - 1).

Definition wrap32 : Z -> Z := swrap 32.
Definition wrap64 : Z -> Z := swrap 64.

End Mach.

Import Mach.

(** ** SegmentPlanner: third.c, lines 154-156 and 188-190 *)

Module Planner.

(** [off_t base_size = file_size / P;] ([P] is converted to [off_t]). *)
Definition base_size (file_size P : Z) : Z := wrap64 (Z.quot file_size P).

(** [off_t remainder = file_size % P;] *)
Definition remainder (file_size P : Z) : Z := Z.rem file_size P.

(** [off_t start = i * base_size + (i < remainder ? i : remainder);] *)
Definition seg_start (file_size P i : Z) : Z :=
  wrap64 (wrap64 (i * base_size file_size P)
          + (if i <? remainder file_size P then i else remainder file_size P)).

(** [off_t segment_size = base_size + (i < remainder ? 1 : 0);] *)
Definition segment_size (file_size P i : Z) : Z :=
  wrap64 (base_size file_size P + (if i <? remainder file_size P then 1 else 0)).

(** [off_t end = start + segment_size;] *)
Definition seg_end (file_size P i : Z) : Z :=
  wrap64 (seg_start file_size P i + segment_size file_size P i).

End Planner.

Import Planner.

(** ** Worker: the scan of one segment, and the single-process scan *)

Module Worker.

(** [buf[j]]: the buffer holds [st_size] bytes; an index outside of it
    has no value. *)
Definition buf_get (buf : list byte) (j : Z) : option byte :=
  if j <? 0 then None else nth_error buf (Z.to_nat j).

(** third.c, lines 191-198:
    [long long count = 0;
     for (off_t j = start; j < end; j++) { if (buf[j] == c) count++; }]
    One unit of fuel is one evaluation of the loop condition. *)
Fixpoint scan_loop (fuel : nat) (buf : list byte) (c : byte)
    (j end_ count : Z) : option Z :=
  match fuel with
  | O => None
  | S fuel' =>
      if j <? end_ then
        match buf_get buf j with
        | None => None
        | Some b =>
            scan_loop fuel' buf c (wrap64 (j + 1)) end_
              (if Byte.eqb b c then wrap64 (count + 1) else count)
        end
      else Some count
  end.

(** The count child [i] computes (third.c, lines 188-198).  The fuel
    allows the [end - start] iterations and the test that ends them. *)
Definition child_count (buf : list byte) (c : byte) (file_size P i : Z)
    : option Z :=
  let start := seg_start file_size P i in
  let end_ := seg_end file_size P i in
  scan_loop (S (Z.to_nat (end_ - start))) buf c start end_ 0.

(** count_char.c, lines 96-102:
    [long long count = 0;
     for (int i = 0; i < file_stat.st_size; i++) { if (buf[i] == c) count++; }]
    The index is an [int]; the comparison converts it to [off_t]. *)
Fixpoint count_loop (fuel : nat) (buf : list byte) (c : byte)
    (i st_size count : Z) : option Z :=
  match fuel with
  | O => None
  | S fuel' =>
      if i <? st_size then
        match buf_get buf i with
        | None => None
        | Some b =>
            count_loop fuel' buf c (wrap32 (i + 1)) st_size
              (if Byte.eqb b c then wrap64 (count + 1) else count)
        end
      else Some count
  end.

(** The count of count_char.c; the fuel allows [st_size] iterations and
    the test that ends them. *)
Definition count_char (buf : list byte) (c : byte) (st_size : Z) : option Z :=
  count_loop (S (Z.to_nat st_size)) buf c 0 st_size 0.

(** The parent's [total_count += child_count;] (third.c, line 258) applied
    to the counts of children [i, i+1, ..., i+n-1] as they computed them. *)
Fixpoint sum_children (n : nat) (buf : list byte) (c : byte)
    (file_size P i total : Z) : option Z :=
  match n with
  | O => Some total
  | S n' =>
      match child_count buf c file_size P i with
      | None => None
      | Some child => sum_children n' buf c file_size P (i + 1) (wrap64 (total + child))
      end
  end.

(** [long long total_count = 0; for (int i = 0; i < P; i++) ...] *)
Definition total_of_segments (buf : list byte) (c : byte) (file_size P : Z)
    : option Z :=
  sum_children (Z.to_nat P) buf c file_size P 0 0.

End Worker.

Import Worker.

(** ** Processes: observable events and early exit *)

Module Sys.

Definition EXIT_SUCCESS : Z := 0.
Definition EXIT_FAILURE : Z := 1.
Definition SIGINT : Z := 2.
Definition SIGCHLD : Z := 17.

(** File descriptors the program holds. *)
Inductive fd : Type :=
| FdInput
| FdOutput
| FdStdout
| FdPipeRead (i : Z)
| FdPipeWrite (i : Z).

(** Arguments of a [printf]-style call, next to its format string. *)
Inductive arg : Type :=
| AInt (z : Z)
| AChar (b : byte)
| AStr (s : string).

(** What a process does that its environment can observe. *)
Inductive event : Type :=
| EvStdout (fmt : string) (args : list arg)
| EvStderr (fmt : string) (args : list arg)
| EvPerror (msg : string)
| EvOpen (f : fd)
| EvClose (f : fd)
| EvSigaction (signum : Z)
| EvSignalIgnore (signum : Z)
| EvSetActiveChildren (n : Z)
| EvPipe (i : Z)
| EvFork (i : Z)
| EvSelect (i : Z) (timeout_sec : Z)
| EvRead (f : fd) (nbytes : Z)
| EvWrite (f : fd) (payload : list byte)
| EvWaitpid (pid : Z).

(** How a piece of the program ends: it goes on with a value, the process
    exits with a status, the environment has no further answer for a call
    the program waits on, or the program reads outside of its buffer. *)
Inductive result (A : Type) : Type :=
| Ret (a : A)
| Exit (code : Z)
| Stuck
| Fault.

Arguments Ret {A} a.
Arguments Exit {A} code.
Arguments Stuck {A}.
Arguments Fault {A}.

(** A computation: the events it produced, in order, and how it ended. *)
Definition proc (A : Type) : Type := (list event * result A)%type.

Definition ret {A} (a : A) : proc A := ([], Ret a).

Definition bind {A B} (m : proc A) (k : A -> proc B) : proc B :=
  let (t, r) := m in
  match r with
  | Ret a => let (t', r') := k a in (t ++ t', r')
  | Exit code => (t, Exit code)
  | Stuck => (t, Stuck)
  | Fault => (t, Fault)
  end.

Definition emit (e : event) : proc unit := ([e], Ret tt).
Definition exit_with {A} (code : Z) : proc A := ([], Exit code).
Definition stuck {A} : proc A := ([], Stuck).
Definition fault {A} : proc A := ([], Fault).

Definition trace {A} (m : proc A) : list event := fst m.
Definition outcome {A} (m : proc A) : result A := snd m.

End Sys.

Import Sys.

Declare Scope proc_scope.
Delimit Scope proc_scope with proc.
Notation "x <- m ;; k" := (bind m (fun x => k))
  (at level 61, m at next level, right associativity) : proc_scope.
Notation "m ;; k" := (bind m (fun _ => k))
  (at level 61, right associativity) : proc_scope.
Local Open Scope proc_scope.

(** ** ResultChannel: one pipe per child *)

Module Channel.

(** [sizeof(long long)], the size of the value sent through a pipe. *)
Definition COUNT_SIZE : Z := 8.

(** The bytes of a [long long] in memory (little endian). *)
Definition encode_count (count : Z) : list byte := le_split 8 count.

(** The [long long] a block of 8 bytes of memory holds. *)
Definition decode_count (mem : list byte) : Z := wrap64 (le_combine mem).

(** What one call of [write] returns: -1, or the number of bytes taken. *)
Inductive write_result : Type :=
| WrError
| WrBytes (n : nat).

(** The return value of [write(fd, p, requested)] as an [ssize_t]. *)
Definition write_ret (requested : Z) (r : write_result) : Z :=
  match r with
  | WrError => -1
  | WrBytes n => Z.min (Z.of_nat n) requested
  end.

(** What one call of [select] on the read end of a pipe returns: the
    descriptor is readable, the timeout expired with the set empty, or -1
    with [errno] equal to [EINTR] or to something else. *)
Inductive select_result : Type :=
| SelReady
| SelTimeout
| SelEINTR
| SelError.

(** What one call of [read] returns: -1 with [errno] equal to [EINTR] or
    to something else, 0 at end of file, or the bytes available (the call
    takes no more of them than it asked for). *)
Inductive read_result : Type :=
| RdEINTR
| RdError
| RdEOF
| RdData (bs : list byte).

(** third.c, lines 223-241: [select] with a timeout of 5 seconds,
    called again when a signal interrupts it.  The value is
    [FD_ISSET(pipes[i][0], &readfds)] after the loop. *)
Fixpoint select_loop (i : Z) (sels : list select_result) : proc bool :=
  match sels with
  | [] => emit (EvSelect i 5);; stuck
  | SelEINTR :: sels' => emit (EvSelect i 5);; select_loop i sels'
  | SelError :: _ =>
      emit (EvSelect i 5);;
      emit (EvPerror "select error on pipe");;
      exit_with EXIT_FAILURE
  | SelReady :: _ => emit (EvSelect i 5);; ret true
  | SelTimeout :: _ => emit (EvSelect i 5);; ret false
  end.

(** Storing [chunk] into [mem] from offset [off] on. *)
Definition store (mem : list byte) (off : Z) (chunk : list byte) : list byte :=
  firstn (Z.to_nat off) mem ++ chunk
  ++ skipn (Z.to_nat off + length chunk) mem.

(** third.c, lines 243-257: [read] into [child_count] until its 8 bytes
    are there; an interrupted call is made again, end of file leaves the
    loop, another error ends the process.  The value is the memory of
    [child_count] after the loop. *)
Fixpoint read_loop (i : Z) (rs : list read_result) (mem : list byte)
    (read_bytes : Z) : proc (list byte) :=
  if read_bytes <? COUNT_SIZE then
    match rs with
    | [] => emit (EvRead (FdPipeRead i) (COUNT_SIZE - read_bytes));; stuck
    | RdEINTR :: rs' =>
        emit (EvRead (FdPipeRead i) (COUNT_SIZE - read_bytes));;
        read_loop i rs' mem read_bytes
    | RdError :: _ =>
        emit (EvRead (FdPipeRead i) (COUNT_SIZE - read_bytes));;
        emit (EvPerror "Error reading from pipe in parent");;
        exit_with EXIT_FAILURE
    | RdEOF :: _ =>
        emit (EvRead (FdPipeRead i) (COUNT_SIZE - read_bytes));;
        ret mem
    | RdData bs :: rs' =>
        let chunk := firstn (Z.to_nat (COUNT_SIZE - read_bytes)) bs in
        let n := Z.of_nat (length chunk) in
        emit (EvRead (FdPipeRead i) (COUNT_SIZE - read_bytes));;
        if n =? 0 then ret mem
        else read_loop i rs' (store mem read_bytes chunk) (read_bytes + n)
    end
  else ret mem.

(** third.c, lines 218-262: one round of the collection loop.  The value
    is [total_count] after the round. *)
Definition collect_one (i : Z) (sels : list select_result)
    (rs : list read_result) (total_count : Z) : proc Z :=
  let child_count := encode_count 0 in
  ready <- select_loop i sels;;
  total_count' <-
    (if ready : bool then
       mem <- read_loop i rs child_count 0;;
       ret (wrap64 (total_count + decode_count mem))
     else
       emit (EvStderr "Timeout waiting for data on pipe %d\n" [AInt i]);;
       ret total_count);;
  emit (EvClose (FdPipeRead i));;
  ret total_count'.

(** third.c, lines 216-263: rounds [i, i+1, ..., i+n-1]. *)
Fixpoint collect (n : nat) (i : Z) (sels : Z -> list select_result)
    (rs : Z -> list read_result) (total_count : Z) : proc Z :=
  match n with
  | O => ret total_count
  | S n' =>
      total_count' <- collect_one i (sels i) (rs i) total_count;;
      collect n' (i + 1) sels rs total_count'
  end.

(** third.c, lines 199-207: the child sends its count with one call of
    [write] and exits. *)
Definition send_count (i : Z) (count : Z) (w : write_result) {A} : proc A :=
  emit (EvWrite (FdPipeWrite i) (encode_count count));;
  if negb (write_ret COUNT_SIZE w =? COUNT_SIZE) then
    emit (EvPerror "Error writing to pipe in child");;
    emit (EvClose (FdPipeWrite i));;
    exit_with EXIT_FAILURE
  else
    emit (EvClose (FdPipeWrite i));;
    exit_with EXIT_SUCCESS.

End Channel.

Import Channel.

(** ** Signal handlers: third.c, lines 26-48 *)

Module Signals.

(** [volatile sig_atomic_t active_children] and the handler's
    [static time_t last_print]. *)
Record sig_state : Type := {
  active_children : Z;
  last_print : Z
}.

(** The values both variables are initialised with (lines 26 and 30). *)
Definition sig_init : sig_state :=
  {| active_children := 0; last_print := 0 |}.

(** [active_children = P;] (line 158). *)
Definition set_active_children (P : Z) (st : sig_state) : sig_state :=
  {| active_children := P; last_print := last_print st |}.

(** [sigint_handler]: [now] is what [time(NULL)] returns.  The value is
    the state after the handler and what it wrote to standard output. *)
Definition sigint_handler (now : Z) (st : sig_state) : sig_state * list event :=
  if wrap64 (now - last_print st) <? 1 then (st, [])
  else
    ({| active_children := active_children st; last_print := now |},
     [EvStdout "\nReceived SIGINT. Active child processes: %d\n"
        [AInt (active_children st)]]).

(** [sigchld_handler]: [rets] are the values the successive calls of
    [waitpid(-1, NULL, WNOHANG)] return.  The value is the state after the
    handler and the answers it did not use; there is none when the answers
    run out before one of them ends the loop. *)
Fixpoint sigchld_handler (rets : list Z) (st : sig_state)
    : option (sig_state * list Z) :=
  match rets with
  | [] => None
  | r :: rets' =>
      if r >? 0 then
        sigchld_handler rets'
          {| active_children := wrap32 (active_children st - 1);
             last_print := last_print st |}
      else Some (st, rets')
  end.

(** The signals a process receives while it runs: an interrupt request at
    some clock reading, or the termination of children with the answers
    [waitpid] gives the handler. *)
Inductive signal : Type :=
| Sigint (now : Z)
| Sigchld (rets : list Z).

(** Running the handlers of a sequence of signals.  The value is the
    final state and everything written, or nothing when a handler does not
    return. *)
Fixpoint deliver (sigs : list signal) (st : sig_state)
    : option (sig_state * list event) :=
  match sigs with
  | [] => Some (st, [])
  | Sigint now :: sigs' =>
      let (st', out) := sigint_handler now st in
      match deliver sigs' st' with
      | Some (st'', out') => Some (st'', out ++ out')
      | None => None
      end
  | Sigchld rets :: sigs' =>
      match sigchld_handler rets st with
      | Some (st', _) => deliver sigs' st'
      | None => None
      end
  end.

End Signals.

Import Signals.

(** ** The worker count: third.c, lines 111-123 *)

Module Env.

(** The C library's [isspace] in the "C" locale. *)
Definition isspace (b : byte) : bool :=
  let u := byte.unsigned b in
  (u =? 32) || ((9 <=? u) && (u <=? 13)).

(** The value of a decimal digit. *)
Definition digit (b : byte) : option Z :=
  let u := byte.unsigned b in
  if (48 <=? u) && (u <=? 57) then Some (u - 48) else None.

Fixpoint skip_spaces (s : list byte) : list byte :=
  match s with
  | b :: s' => if isspace b then skip_spaces s' else s
  | [] => []
  end.

(** The number the leading digits of [s] spell, after [acc]. *)
Fixpoint digits (s : list byte) (acc : Z) : Z :=
  match s with
  | b :: s' =>
      match digit b with
      | Some d => digits s' (acc * 10 + d)
      | None => acc
      end
  | [] => acc
  end.

(** The C library's [strtol(s, NULL, 10)]: white space, an optional sign,
    then digits up to the first other character; 0 when there is no digit;
    the value is clamped to the range of [long]. *)
Definition strtol10 (s : list byte) : Z :=
  let s1 := skip_spaces s in
  let v :=
    match s1 with
    | x2d :: s2 => - digits s2 0
    | x2b :: s2 => digits s2 0
    | _ => digits s1 0
    end in
  Z.max (- 2 ^ 63) (Z.min OFF_MAX v).

(** The C library's [atoi]: [(int) strtol(s, NULL, 10)]. *)
Definition atoi (s : list byte) : Z := wrap32 (strtol10 s).

(** Lines 112-123.  [env_p] is what [getenv("P")] returns. *)
Definition determine_P (env_p : option (list byte)) : proc Z :=
  P <- match env_p with
       | None => ret 4
       | Some s =>
           let P := atoi s in
           emit (EvStdout "P environment variable found: %d\n" [AInt P]);;
           if P <=? 0 then
             emit (EvStderr "Invalid value for P. Must be positive.\n" []);;
             exit_with EXIT_FAILURE
           else ret P
       end;;
  emit (EvStdout "Using %d child processes for searching.\n" [AInt P]);;
  ret P.

End Env.

Import Env.

(** ** main: third.c, lines 54-300 *)

Module Main.

(** The answers of the environment to the system and library calls of
    one process executing [main]. *)
Record World : Type := {
  argc : Z;
  argv0 : string;
  input_file : string;                      (* argv[1] *)
  output_file : string;                     (* argv[2] *)
  argv3 : list byte;                        (* argv[3], without its final 0 *)
  open_input_ok : bool;
  fstat_size : option Z;                    (* st_size, or fstat fails *)
  malloc_buf_ok : bool;
  file_reads : list (option (list byte));   (* read on the input: -1, or bytes *)
  env_P : option (list byte);               (* getenv("P") *)
  sigaction_int_ok : bool;
  sigaction_chld_ok : bool;
  malloc_pipes_ok : bool;
  malloc_pids_ok : bool;
  pipe_ok : Z -> bool;                      (* pipe(pipes[i]) *)
  fork_ret : Z -> Z;                        (* the i-th fork: -1, 0 or a pid *)
  child_write : write_result;               (* the write of a child *)
  selects : Z -> list select_result;        (* select on pipes[i][0] *)
  reads : Z -> list read_result;            (* read on pipes[i][0] *)
  open_output_ok : bool;
  out_writes : list write_result            (* write on the output file *)
}.

(** Lines 97-107: the whole file is read into [buf]; [total_read] is the
    number of bytes already there. *)
Fixpoint read_file (rs : list (option (list byte))) (st_size : Z)
    (buf : list byte) : proc (list byte) :=
  let total_read := Z.of_nat (length buf) in
  if total_read <? st_size then
    match rs with
    | [] => emit (EvRead FdInput (st_size - total_read));; stuck
    | None :: _ =>
        emit (EvRead FdInput (st_size - total_read));;
        emit (EvPerror "read error");;
        emit (EvClose FdInput);;
        exit_with EXIT_FAILURE
    | Some bs :: rs' =>
        emit (EvRead FdInput (st_size - total_read));;
        read_file rs' st_size
          (buf ++ firstn (Z.to_nat (st_size - total_read)) bs)
    end
  else ret buf.

(** Lines 184-207: what the process does when [fork] returned 0.  The
    delay of line 197 changes no value and is left out. *)
Definition child (buf : list byte) (c : byte) (file_size P i : Z)
    (w : write_result) {A} : proc A :=
  emit (EvSignalIgnore SIGINT);;
  emit (EvClose (FdPipeRead i));;
  match child_count buf c file_size P i with
  | None => fault
  | Some count => send_count i count w
  end.

(** Lines 168-213: iterations [i, i+1, ..., i+n-1] of the fork loop.  The
    value is [child_pids]. *)
Fixpoint spawn (w : World) (buf : list byte) (c : byte) (file_size P : Z)
    (n : nat) (i : Z) (child_pids : list Z) : proc (list Z) :=
  match n with
  | O => ret child_pids
  | S n' =>
      emit (EvPipe i);;
      if negb (pipe_ok w i) then
        emit (EvPerror "pipe error");;
        exit_with EXIT_FAILURE
      else
        emit (EvFork i);;
        let pid := fork_ret w i in
        if pid =? -1 then
          emit (EvPerror "fork error");;
          exit_with EXIT_FAILURE
        else if pid =? 0 then
          child buf c file_size P i (child_write w)
        else
          emit (EvClose (FdPipeWrite i));;
          spawn w buf c file_size P n' (i + 1) (child_pids ++ [pid])
  end.

(** Lines 266-268. *)
Fixpoint reap (child_pids : list Z) : proc unit :=
  match child_pids with
  | [] => ret tt
  | pid :: pids => emit (EvWaitpid pid);; reap pids
  end.

(** The characters of a C string or of a formatted number. *)
Definition bytes_of_string (s : string) : list byte := list_byte_of_string s.

(** Lines 280-281: what [snprintf] leaves in [result_msg], a buffer of
    1024 bytes, without the final 0. *)
Definition result_msg (c : byte) (total_count : Z) (input : string)
    : list byte :=
  firstn 1023
    (bytes_of_string "The character '" ++ [c]
     ++ bytes_of_string "' appears "
     ++ bytes_of_string (NilZero.string_of_int (Z.to_int total_count))
     ++ bytes_of_string " times in file "
     ++ bytes_of_string input
     ++ bytes_of_string "." ++ [x0a]).

(** Lines 282-293: the message is written until all of it is out. *)
Fixpoint write_out (ws : list write_result) (msg : list byte)
    (total_written : Z) : proc unit :=
  let result_length := Z.of_nat (length msg) in
  if total_written <? result_length then
    let rest := skipn (Z.to_nat total_written) msg in
    match ws with
    | [] => emit (EvWrite FdOutput rest);; stuck
    | r :: ws' =>
        emit (EvWrite FdOutput rest);;
        let bytes_written := write_ret (result_length - total_written) r in
        if bytes_written =? -1 then
          emit (EvPerror "Error writing to output file");;
          emit (EvClose FdOutput);;
          exit_with EXIT_FAILURE
        else write_out ws' msg (total_written + bytes_written)
    end
  else ret tt.

(** Lines 272-299. *)
Definition report (w : World) (c : byte) (total_count : Z) : proc unit :=
  emit (EvStdout
          "3/4 -> Character counted successfully: total %lld occurrences of character '%c' :)\n"
          [AInt total_count; AChar c]);;
  emit (EvOpen FdOutput);;
  if negb (open_output_ok w) then
    emit (EvPerror "open output file error");;
    exit_with EXIT_FAILURE
  else
    write_out (out_writes w) (result_msg c total_count (input_file w)) 0;;
    emit (EvClose FdOutput);;
    emit (EvStdout "4/4 -> Result written successfully :)\n" []);;
    emit (EvStdout "All done! :)\n" []);;
    exit_with EXIT_SUCCESS.

(** Lines 125-299, once the file is in [buf]. *)
Definition run (w : World) (buf : list byte) (c : byte) (file_size : Z)
    : proc unit :=
  P <- determine_P (env_P w);;
  emit (EvSigaction SIGINT);;
  if negb (sigaction_int_ok w) then
    emit (EvPerror "sigaction SIGINT error");;
    exit_with EXIT_FAILURE
  else
  emit (EvSigaction SIGCHLD);;
  if negb (sigaction_chld_ok w) then
    emit (EvPerror "sigaction SIGCHLD error");;
    exit_with EXIT_FAILURE
  else
  if negb (malloc_pipes_ok w) then
    emit (EvPerror "malloc error for pipes");;
    exit_with EXIT_FAILURE
  else
  emit (EvSetActiveChildren P);;
  if negb (malloc_pids_ok w) then
    emit (EvPerror "malloc error for child_pids");;
    exit_with EXIT_FAILURE
  else
  child_pids <- spawn w buf c file_size P (Z.to_nat P) 0 [];;
  total_count <- collect (Z.to_nat P) 0 (selects w) (reads w) 0;;
  reap child_pids;;
  report w c total_count.

(** Lines 54-123. *)
Definition main (w : World) : proc unit :=
  if negb (argc w =? 4) then
    emit (EvStderr "Usage: %s <input_file> <output_file> <character_to_read>\n"
            [AStr (argv0 w)]);;
    exit_with EXIT_FAILURE
  else
  if negb (Z.of_nat (length (argv3 w)) =? 1) then
    emit (EvStderr "Error: character to read must be a single character\n" []);;
    exit_with EXIT_FAILURE
  else
  let c := hd x00 (argv3 w) in
  emit (EvOpen FdInput);;
  if negb (open_input_ok w) then
    emit (EvPerror "open error");;
    exit_with EXIT_FAILURE
  else
  emit (EvStdout "1/4 -> File opened successfully :)\n" []);;
  match fstat_size w with
  | None =>
      emit (EvPerror "Error retrieving file stats");;
      emit (EvClose FdInput);;
      exit_with EXIT_FAILURE
  | Some st_size =>
      if st_size =? 0 then
        emit (EvStderr "Error: file is empty\n" []);;
        emit (EvClose FdInput);;
        exit_with EXIT_FAILURE
      else
      if negb (malloc_buf_ok w) then
        emit (EvPerror "malloc error");;
        emit (EvClose FdInput);;
        exit_with EXIT_FAILURE
      else
      buf <- read_file (file_reads w) st_size [];;
      emit (EvClose FdInput);;
      emit (EvStdout "2/4 -> File read successfully :)\n" []);;
      run w buf c st_size
  end.

End Main.

Import Main.

(** ** Vocabulary of the properties *)

(** The number of bytes of [l] equal to [c]. *)
Definition occurrences (c : byte) (l : list byte) : Z :=
  Z.of_nat (count_occ Byte.byte_eq_dec l c).

(** The bytes of [buf] at the offsets [a, b). *)
Definition slice (buf : list byte) (a b : Z) : list byte :=
  firstn (Z.to_nat (b - a)) (skipn (Z.to_nat a) buf).

(** The answers of [read] that hand over exactly the bytes [payload], in
    any number of non-empty pieces, with any number of interruptions. *)
Inductive delivers : list read_result -> list byte -> Prop :=
| delivers_done rs : delivers rs []
| delivers_eintr rs payload :
    delivers rs payload -> delivers (RdEINTR :: rs) payload
| delivers_data bs rs payload :
    bs <> [] -> delivers rs payload -> delivers (RdData bs :: rs) (bs ++ payload).

(** The first answer of [select] that is not an interruption. *)
Fixpoint select_outcome (sels : list select_result) : option select_result :=
  match sels with
  | [] => None
  | SelEINTR :: sels' => select_outcome sels'
  | r :: _ => Some r
  end.

(** A channel on which no data arrives within the 5 seconds. *)
Definition times_out (sels : list select_result) : bool :=
  match select_outcome sels with
  | Some SelTimeout => true
  | _ => false
  end.

(** A channel that becomes readable and hands over the 8 bytes of the
    count [v]. *)
Definition sends (sels : list select_result) (rs : list read_result) (v : Z)
    : Prop :=
  select_outcome sels = Some SelReady /\
  delivers rs (encode_count v) /\
  0 <= v <= OFF_MAX.

(** The sum of the counts [v j] of the channels [i, ..., i+n-1] that do
    not time out. *)
Fixpoint received (n : nat) (i : Z) (sels : Z -> list select_result)
    (v : Z -> Z) : Z :=
  match n with
  | O => 0
  | S n' =>
      (if times_out (sels i) then 0 else v i) + received n' (i + 1) sels v
  end.

(** The answers of [read] on a channel that is closed after handing over
    the bytes [got] only. *)
Inductive closes_after : list read_result -> list byte -> Prop :=
| closes_eof rs : closes_after (RdEOF :: rs) []
| closes_eintr rs got :
    closes_after rs got -> closes_after (RdEINTR :: rs) got
| closes_data bs rs got :
    bs <> [] -> closes_after rs got -> closes_after (RdData bs :: rs) (bs ++ got).

(** The [write] calls in a trace. *)
Definition is_write (e : event) : bool :=
  match e with
  | EvWrite _ _ => true
  | _ => false
  end.

(** The calls that create a channel or a worker. *)
Definition is_spawn (e : event) : bool :=
  match e with
  | EvPipe _ | EvFork _ => true
  | _ => false
  end.

(** A run on the 8 bytes ["aabcaabc"] with target ['a'], in which the
    calls before the fork loop and those on the output file succeed.
    [env] is the value of the environment variable [P], [fork] and [wr]
    are the answers to [fork] and to the write of a child, [sel] and [rd]
    the answers on the pipes. *)
Definition sample_world (env : option (list byte)) (fork : Z -> Z)
    (wr : write_result) (sel : Z -> list select_result)
    (rd : Z -> list read_result) : World :=
  {| argc := 4;
     argv0 := "./third";
     input_file := "in.txt";
     output_file := "out.txt";
     argv3 := [x61];
     open_input_ok := true;
     fstat_size := Some 8;
     malloc_buf_ok := true;
     file_reads := [Some [x61; x61; x62; x63; x61; x61; x62; x63]];
     env_P := env;
     sigaction_int_ok := true;
     sigaction_chld_ok := true;
     malloc_pipes_ok := true;
     malloc_pids_ok := true;
     pipe_ok := fun _ => true;
     fork_ret := fork;
     child_write := wr;
     selects := sel;
     reads := rd;
     open_output_ok := true;
     out_writes := [WrBytes 1024] |}.

(** The parent of such a run with [P=2]: every [fork] returns the pid of
    a child. *)
Definition parent_world (sel : Z -> list select_result)
    (rd : Z -> list read_result) : World :=
  sample_world (Some [x32]) (fun i => 1000 + i) (WrBytes 8) sel rd.

(** The first child of such a run, whose [write] takes 3 of the 8 bytes. *)
Definition world_short_write : World :=
  sample_world (Some [x32]) (fun _ => 0) (WrBytes 3) (fun _ => []) (fun _ => []).

(** The parent of a run with [P=3abc] in the environment; the three
    pipes hand over the counts 2, 2 and 0 of the segments ["aab"],
    ["caa"] and ["bc"]. *)
Definition world_3abc : World :=
  sample_world (Some [x33; x61; x62; x63]) (fun i => 1000 + i) (WrBytes 8)
    (fun _ => [SelReady])
    (fun i => [RdData (encode_count (if i <? 2 then 2 else 0))]).

(** A decimal numeral denoting a positive integer: digits only, at least
    one, not all of them 0. *)
Definition is_positive_integer (s : list byte) : bool :=
  match s with
  | [] => false
  | _ :: _ =>
      forallb (fun b => match digit b with Some _ => true | None => false end) s
      && (0 <? digits s 0)
  end.

(** The decimal numeral of [n], as [printf] writes it with [%d]. *)
Definition decimal (n : Z) : list byte :=
  list_byte_of_string (NilZero.string_of_int (Z.to_int n)).

(** The [fork] calls in a trace. *)
Definition is_fork (e : event) : bool :=
  match e with
  | EvFork _ => true
  | _ => false
  end.

(** The number the digits of [u] spell, after [acc]. *)
Fixpoint uint_value (u : Decimal.uint) (acc : Z) : Z :=
  match u with
  | Decimal.Nil => acc
  | Decimal.D0 u' => uint_value u' (acc * 10 + 0)
  | Decimal.D1 u' => uint_value u' (acc * 10 + 1)
  | Decimal.D2 u' => uint_value u' (acc * 10 + 2)
  | Decimal.D3 u' => uint_value u' (acc * 10 + 3)
  | Decimal.D4 u' => uint_value u' (acc * 10 + 4)
  | Decimal.D5 u' => uint_value u' (acc * 10 + 5)
  | Decimal.D6 u' => uint_value u' (acc * 10 + 6)
  | Decimal.D7 u' => uint_value u' (acc * 10 + 7)
  | Decimal.D8 u' => uint_value u' (acc * 10 + 8)
  | Decimal.D9 u' => uint_value u' (acc * 10 + 9)
  end.

(** Nothing arrives on pipe 0 within 5 seconds; pipe 1 hands over the
    count 2 of the second half. *)
Definition world_timeout : World :=
  parent_world
    (fun i => if i =? 0 then [SelTimeout] else [SelReady])
    (fun i => if i =? 0 then [] else [RdData (encode_count 2)]).

(** Pipe 0 is closed before any byte arrives (the first [read] returns
    0); pipe 1 hands over the count 2 of the second half. *)
Definition world_closed : World :=
  parent_world
    (fun _ => [SelReady])
    (fun i => if i =? 0 then [RdEOF] else [RdData (encode_count 2)]).

(** Pipe 0 hands over one byte, of value 5, and is closed; pipe 1 hands
    over the count 2 of the second half. *)
Definition world_closed_partway : World :=
  parent_world
    (fun _ => [SelReady])
    (fun i => if i =? 0 then [RdData [x05]; RdEOF]
              else [RdData (encode_count 2)]).

(** Delivering an interrupt request at each of the clock readings [ts],
    in order: for each of them, whether the handler printed a line. *)
Fixpoint sigint_run (ts : list Z) (st : sig_state) : list bool :=
  match ts with
  | [] => []
  | now :: ts' =>
      let (st', out) := sigint_handler now st in
      match out with
      | [] => false :: sigint_run ts' st'
      | _ :: _ => true :: sigint_run ts' st'
      end
  end.

(** The debounce rule in the words of the specification: a trigger prints
    exactly when at least 1 second separates it from the last trigger
    that printed, [last], if there is one. *)
Fixpoint debounced (last : option Z) (ts : list Z) : list bool :=
  match ts with
  | [] => []
  | now :: ts' =>
      let prints :=
        match last with
        | None => true
        | Some l => 1 <=? now - l
        end in
      prints :: debounced (if prints then Some now else last) ts'
  end.

(** Clock readings at least 1 second apart, the first one at least
    1 second after [prev]. *)
Fixpoint spaced (prev : Z) (ts : list Z) : Prop :=
  match ts with
  | [] => True
  | now :: ts' => 1 <= now - prev /\ spaced now ts'
  end.

(** The number of triggers that printed. *)
Definition lines (flags : list bool) : nat := length (filter id flags).

(** The assignment [active_children = P] in a trace. *)
Definition is_set_active (e : event) : bool :=
  match e with
  | EvSetActiveChildren _ => true
  | _ => false
  end.

(** Every event of a computation satisfies [Q]. *)
Definition all_events (Q : event -> bool) {A} (m : proc A) : Prop :=
  forallb Q (trace m) = true.

(** The children a run of [sigchld_handler] reaps: the answers of
    [waitpid] before the first one that is not a pid. *)
Fixpoint reaped (rets : list Z) : list Z :=
  match rets with
  | [] => []
  | r :: rets' => if r >? 0 then r :: reaped rets' else []
  end.

(** The number of children the handlers of [sigs] reap. *)
Fixpoint total_reaped (sigs : list signal) : Z :=
  match sigs with
  | [] => 0
  | Sigint _ :: sigs' => total_reaped sigs'
  | Sigchld rets :: sigs' => Z.of_nat (length (reaped rets)) + total_reaped sigs'
  end.

(** In each run of [sigchld_handler], [waitpid] ends up answering that
    no further child has terminated (0) or that none is left (-1). *)
Fixpoint waitpid_settles (sigs : list signal) : bool :=
  match sigs with
  | [] => true
  | Sigint _ :: sigs' => waitpid_settles sigs'
  | Sigchld rets :: sigs' =>
      existsb (fun r => r <=? 0) rets && waitpid_settles sigs'
  end.

(** What a run does to the counter: it ends before assigning it, or it
    assigns it once, to the worker count, before any pipe or fork. *)
Definition assigns_once (w : World) (tr : list event) : Prop :=
  exists pre,
    forallb (fun e => negb (is_spawn e) && negb (is_set_active e)) pre = true /\
    (tr = pre \/
     exists P rest,
       outcome (determine_P (env_P w)) = Ret P /\
       tr = pre ++ EvSetActiveChildren P :: rest /\
       forallb (fun e => negb (is_set_active e)) rest = true).

(** ** main of the single-process program: count_char.c, lines 22-146 *)

Module CountChar.

(** The program reads the file with the loop of lines 78-88 and writes
    its message with the loop of lines 123-134, which are those of
    third.c ([read_file], [write_out]), and formats the same message
    ([result_msg]).  The answers it uses are those of the same [World]. *)
Definition main (w : World) : proc unit :=
  if negb (argc w =? 4) then
    emit (EvStderr "Usage: %s <input_file> <output_file> <character_to_read>\n"
            [AStr (argv0 w)]);;
    exit_with EXIT_FAILURE
  else
  if negb (Z.of_nat (length (argv3 w)) =? 1) then
    emit (EvStderr "Error: character to read must be a single character\n" []);;
    exit_with EXIT_FAILURE
  else
  let c := hd x00 (argv3 w) in
  emit (EvOpen FdInput);;
  if negb (open_input_ok w) then
    emit (EvPerror "open error");;
    exit_with EXIT_FAILURE
  else
  emit (EvStdout "1/4 -> File opened successfully :)\n" []);;
  match fstat_size w with
  | None =>
      emit (EvPerror "Error retrieving file stats");;
      emit (EvClose FdInput);;
      exit_with EXIT_FAILURE
  | Some st_size =>
      if st_size =? 0 then
        emit (EvStderr "Error: file is empty\n" []);;
        emit (EvClose FdInput);;
        exit_with EXIT_FAILURE
      else
      if negb (malloc_buf_ok w) then
        emit (EvPerror "malloc error");;
        emit (EvClose FdInput);;
        exit_with EXIT_FAILURE
      else
      buf <- read_file (file_reads w) st_size [];;
      emit (EvClose FdInput);;
      emit (EvStdout "2/4 -> File read successfully :)\n" []);;
      match count_char buf c st_size with
      | None => fault
      | Some count =>
          emit (EvStdout
                  "3/4 -> Character counted successfully: %lld occurences of character %c :)\n"
                  [AInt count; AChar c]);;
          emit (EvOpen FdOutput);;
          if negb (open_output_ok w) then
            emit (EvPerror "open error");;
            exit_with EXIT_FAILURE
          else
            write_out (out_writes w) (result_msg c count (input_file w)) 0;;
            emit (EvStdout "4/4 -> Result written successfully :)\n" []);;
            emit (EvClose FdOutput);;
            emit (EvStdout "All done! :)\n" []);;
            exit_with EXIT_SUCCESS
      end
  end.

End CountChar.

(** ** Vocabulary of the further properties *)

(** The answers of [read] on the input file that hand over exactly the
    bytes [content], in non-empty pieces. *)
Inductive file_delivers : list (option (list byte)) -> list byte -> Prop :=
| file_delivers_done rs : file_delivers rs []
| file_delivers_data bs rs content :
    bs <> [] -> file_delivers rs content ->
    file_delivers (Some bs :: rs) (bs ++ content).

(** The number of bytes the answers of [write] offer to take before the
    first error. *)
Fixpoint bytes_taken (ws : list write_result) : Z :=
  match ws with
  | WrBytes n :: ws' => Z.of_nat n + bytes_taken ws'
  | _ => 0
  end.

(** The parts into which the answers of [write] cut what is left of a
    message: each answer takes the first bytes of what the answers
    before it left; nothing is cut once nothing is left, or from the
    first error on. *)
Fixpoint pieces (ws : list write_result) (rest : list byte)
    : list (list byte) :=
  match rest, ws with
  | _ :: _, WrBytes n :: ws' => firstn n rest :: pieces ws' (skipn n rest)
  | _, _ => []
  end.

(** The calls of [write] on the output file that put [parts] there one
    after the other, each call being offered all that is not there yet. *)
Fixpoint offers (parts : list (list byte)) : list event :=
  match parts with
  | [] => []
  | part :: parts' => EvWrite FdOutput (part ++ concat parts') :: offers parts'
  end.

(** The clock readings of the interrupt requests among [sigs]. *)
Fixpoint sigint_times (sigs : list signal) : list Z :=
  match sigs with
  | [] => []
  | Sigint now :: sigs' => now :: sigint_times sigs'
  | Sigchld _ :: sigs' => sigint_times sigs'
  end.

(** The indices [i, i+1, ..., i+n-1] of a loop. *)
Fixpoint indices (n : nat) (i : Z) : list Z :=
  match n with
  | O => []
  | S n' => i :: indices n' (i + 1)
  end.

(** The [waitpid] calls in a trace. *)
Definition is_waitpid (e : event) : bool :=
  match e with
  | EvWaitpid _ => true
  | _ => false
  end.

(** An environment in which the parent of a run on the file [content]
    with [P] workers meets no failure: the arguments are well formed,
    every call succeeds, the file arrives in pieces, every [fork] returns
    the pid of a child, every pipe hands over the count of its child and
    the output file takes the message. *)
Definition cooperative (w : World) (content : list byte) (P : Z) : Prop :=
  let c := hd x00 (argv3 w) in
  let file_size := Z.of_nat (length content) in
  argc w = 4 /\
  Z.of_nat (length (argv3 w)) = 1 /\
  open_input_ok w = true /\
  fstat_size w = Some file_size /\
  0 < file_size <= OFF_MAX /\
  malloc_buf_ok w = true /\
  file_delivers (file_reads w) content /\
  outcome (determine_P (env_P w)) = Ret P /\
  sigaction_int_ok w = true /\
  sigaction_chld_ok w = true /\
  malloc_pipes_ok w = true /\
  malloc_pids_ok w = true /\
  (forall i, 0 <= i < P ->
     pipe_ok w i = true /\ fork_ret w i <> -1 /\ fork_ret w i <> 0) /\
  (forall j count, 0 <= j < P ->
     child_count content c file_size P j = Some count ->
     sends (selects w j) (reads w j) count) /\
  open_output_ok w = true /\
  Z.of_nat (length (result_msg c (occurrences c content) (input_file w)))
  <= bytes_taken (out_writes w).

(** An environment in which a run of the single-process program on the
    file [content] meets no failure: the arguments are well formed, every
    call succeeds, the file arrives in pieces, and the output file, which
    count_char.c opens without [O_CREAT] (line 110) and which therefore
    has to exist, opens and takes the message. *)
Definition cooperative_single (w : World) (content : list byte) : Prop :=
  let c := hd x00 (argv3 w) in
  let file_size := Z.of_nat (length content) in
  argc w = 4 /\
  Z.of_nat (length (argv3 w)) = 1 /\
  open_input_ok w = true /\
  fstat_size w = Some file_size /\
  0 < file_size <= INT_MAX /\
  malloc_buf_ok w = true /\
  file_delivers (file_reads w) content /\
  open_output_ok w = true /\
  Z.of_nat (length (result_msg c (occurrences c content) (input_file w)))
  <= bytes_taken (out_writes w).

(** What the parent does in one iteration of the fork loop when
    [pipe] and [fork] succeed. *)
Definition spawn_events (j : Z) : list event :=
  [EvPipe j; EvFork j; EvClose (FdPipeWrite j)].

(** A process that exits with [EXIT_SUCCESS] after offering to the output
    file the message that tells [n] occurrences of [c]. *)
Definition reports_count (input : string) (c : byte) (n : Z) (m : proc unit)
    : Prop :=
  outcome m = Exit EXIT_SUCCESS /\
  In (EvWrite FdOutput (result_msg c n input)) (trace m).

(** The parent of a run on ["aabcaabc"] with two workers whose counts,
    2 and 2, both arrive. *)
Definition world_both_send : World :=
  parent_world (fun _ => [SelReady]) (fun _ => [RdData (encode_count 2)]).

(** ** Workers that end, and the call that collects them *)

(** The parent once its workers exist: the pids of the workers that have
    not ended, and the variables of the handlers.  The kernel keeps a
    worker that has ended until a [waitpid] call of the parent collects
    it, and one call only collects it.  third.c calls [waitpid] in two
    places: in [sigchld_handler] (line 44: any child, without waiting)
    and in the last loop of [main] (line 267: one child, waiting for
    it). *)
Record parent : Type := {
  running : list Z;
  vars : sig_state
}.

(** The pids [pids] without [pid]. *)
Definition without (pid : Z) (pids : list Z) : list Z :=
  filter (fun q => negb (q =? pid)) pids.

(** What [waitpid(-1, NULL, WNOHANG)] answers the loop of
    [sigchld_handler] when the children [ended] have ended and were not
    collected, and the children [running] have not ended: the pid of each
    ended child, which that call collects, and then 0, or -1 when the
    parent has no child left. *)
Definition handler_waitpid (ended running : list Z) : list Z :=
  ended ++ [match running with [] => -1 | _ :: _ => 0 end].

(** SIGCHLD reaches the parent while the children [ended] wait to be
    collected: [sigchld_handler] runs on the answers of the kernel. *)
Definition on_sigchld (ended : list Z) (p : parent) : option parent :=
  match sigchld_handler (handler_waitpid ended (running p)) (vars p) with
  | Some (st, _) => Some {| running := running p; vars := st |}
  | None => None
  end.

(** The worker [pid] ends while [main] is not inside a [waitpid] call
    for it: the kernel sends SIGCHLD, which interrupts what [main] does,
    and the handler finds the worker. *)
Definition worker_ends (pid : Z) (p : parent) : option parent :=
  on_sigchld [pid] {| running := without pid (running p); vars := vars p |}.

(** The workers of [early] end, in this order, before [main] reaches its
    last loop. *)
Fixpoint before_wait (early : list Z) (p : parent) : option parent :=
  match early with
  | [] => Some p
  | pid :: early' =>
      match worker_ends pid p with
      | Some p' => before_wait early' p'
      | None => None
      end
  end.

(** [waitpid(child_pids[i], NULL, 0)] (line 267) for the child [pid];
    [ends] are the workers that end from then on, in this order.  When
    [pid] is no child of the parent any more (the handler collected it),
    the call returns -1 at once.  Otherwise it waits.  When another
    worker ends, SIGCHLD interrupts the call, the handler collects that
    worker and the call is started again ([SA_RESTART], line 138).  When
    [pid] itself ends, the call collects it and returns its pid; SIGCHLD
    was sent all the same, and the handler runs before [main] goes on,
    with no ended child for it to find.  The value is the parent after
    the call and the workers that end later; there is none when the call
    never returns. *)
Fixpoint main_waitpid (pid : Z) (ends : list Z) (p : parent) {struct ends}
    : option (parent * list Z) :=
  if negb (existsb (Z.eqb pid) (running p)) then Some (p, ends)
  else
    match ends with
    | [] => None
    | q :: ends' =>
        if q =? pid then
          match on_sigchld []
                  {| running := without pid (running p); vars := vars p |} with
          | Some p' => Some (p', ends')
          | None => None
          end
        else
          match worker_ends q p with
          | Some p' => main_waitpid pid ends' p'
          | None => None
          end
    end.

(** Lines 266-268: [main] waits for its children in the order of
    [child_pids]. *)
Fixpoint wait_all (child_pids : list Z) (ends : list Z) (p : parent)
    : option (parent * list Z) :=
  match child_pids with
  | [] => Some (p, ends)
  | pid :: pids =>
      match main_waitpid pid ends p with
      | Some (p', ends') => wait_all pids ends' p'
      | None => None
      end
  end.

(* ================================================================= *)
(** * Properties *)

(** ** Machine integers *)

Lemma swrap_small w z :
  0 < w -> - 2 ^ (w - 1) <= z < 2 ^ (w - 1) -> swrap w z = z.
Proof.
  intros Hw H. unfold swrap.
  assert (E : 2 ^ w = 2 * 2 ^ (w - 1)).
  { replace w with (Z.succ (w - 1)) at 1 by lia. apply Z.pow_succ_r. lia. }
  rewrite Z.mod_small; lia.
Qed.

Lemma wrap64_small z : - 2 ^ 63 <= z <= OFF_MAX -> wrap64 z = z.
Proof.
  unfold OFF_MAX. intros H. apply swrap_small; [lia|].
  change (64 - 1) with 63. lia.
Qed.

Lemma wrap32_small z : - 2 ^ 31 <= z <= INT_MAX -> wrap32 z = z.
Proof.
  unfold INT_MAX. intros H. apply swrap_small; [lia|].
  change (32 - 1) with 31. lia.
Qed.

(** ** SegmentPlanner *)

Section PlannerFacts.

Variables file_size P : Z.
Hypothesis Hsize : 0 <= file_size <= OFF_MAX.
Hypothesis HP : 1 <= P <= INT_MAX.

Let base := file_size / P.
Let r := file_size mod P.

Lemma div_facts : file_size = P * base + r /\ 0 <= r < P /\ 0 <= base <= file_size.
Proof.
  subst base r.
  pose proof (Z.div_mod file_size P ltac:(lia)).
  pose proof (Z.mod_pos_bound file_size P ltac:(lia)).
  pose proof (Z.div_pos file_size P ltac:(lia) ltac:(lia)).
  repeat split; try lia. nia.
Qed.

Lemma base_size_eq : base_size file_size P = base.
Proof.
  unfold base_size. rewrite Z.quot_div_nonneg by lia.
  apply wrap64_small. pose proof div_facts. fold base. unfold OFF_MAX in *. lia.
Qed.

Lemma remainder_eq : remainder file_size P = r.
Proof. unfold remainder. apply Z.rem_mod_nonneg; lia. Qed.

Lemma seg_start_eq i : 0 <= i <= P -> seg_start file_size P i = i * base + Z.min i r.
Proof.
  intros Hi. unfold seg_start. rewrite base_size_eq, remainder_eq.
  pose proof div_facts as (E & Hr & Hb).
  assert (Hm : 0 <= i * base <= file_size) by nia.
  assert (Hs : 0 <= i * base + Z.min i r <= file_size) by nia.
  replace (if i <? r then i else r) with (Z.min i r)
    by (destruct (Z.ltb_spec i r); lia).
  unfold OFF_MAX in *.
  rewrite (wrap64_small (i * base)) by (unfold OFF_MAX; lia).
  apply wrap64_small. unfold OFF_MAX. lia.
Qed.

Lemma segment_size_eq i :
  0 <= i -> segment_size file_size P i = if i <? r then base + 1 else base.
Proof.
  intros Hi. unfold segment_size. rewrite base_size_eq, remainder_eq.
  pose proof div_facts as (E & Hr & Hb).
  assert (Hlt : 0 < r -> base + 1 <= file_size) by nia.
  destruct (Z.ltb_spec i r).
  - apply wrap64_small. unfold OFF_MAX in *. lia.
  - rewrite Z.add_0_r. apply wrap64_small. unfold OFF_MAX in *. lia.
Qed.

Lemma seg_start_succ i :
  0 <= i < P ->
  seg_start file_size P (i + 1) = seg_start file_size P i + segment_size file_size P i.
Proof.
  intros Hi. rewrite !seg_start_eq, segment_size_eq by lia.
  destruct (Z.ltb_spec i r); lia.
Qed.

Lemma seg_start_P : seg_start file_size P P = file_size.
Proof.
  rewrite seg_start_eq by lia. pose proof div_facts. lia.
Qed.

Lemma segment_size_nonneg i : 0 <= i -> 0 <= segment_size file_size P i.
Proof.
  intros Hi. rewrite segment_size_eq by lia. pose proof div_facts.
  destruct (i <? r); lia.
Qed.

Lemma seg_start_mono i j :
  0 <= i <= j -> j <= P -> seg_start file_size P i <= seg_start file_size P j.
Proof.
  intros Hij Hj. rewrite !seg_start_eq by lia.
  pose proof div_facts. nia.
Qed.

Lemma seg_start_range i :
  0 <= i <= P -> 0 <= seg_start file_size P i <= file_size.
Proof.
  intros Hi. split.
  - rewrite seg_start_eq by lia. pose proof div_facts. nia.
  - pose proof (seg_start_mono i P ltac:(lia) ltac:(lia)) as H.
    rewrite seg_start_P in H. exact H.
Qed.

Lemma seg_end_eq i :
  0 <= i < P -> seg_end file_size P i = seg_start file_size P (i + 1).
Proof.
  intros Hi. unfold seg_end. rewrite <- seg_start_succ by lia.
  apply wrap64_small. pose proof (seg_start_range (i + 1) ltac:(lia)).
  unfold OFF_MAX in *. lia.
Qed.

(** Every offset below the start of segment [n] lies in one of the
    segments [0 .. n-1]. *)
Lemma cover_below (n : nat) :
  Z.of_nat n <= P ->
  forall x, 0 <= x < seg_start file_size P (Z.of_nat n) ->
  exists i, 0 <= i < Z.of_nat n /\
            seg_start file_size P i <= x < seg_start file_size P (i + 1).
Proof.
  induction n as [|n IH]; intros Hn x Hx.
  - rewrite seg_start_eq in Hx by lia. simpl in Hx. lia.
  - destruct (Z_lt_ge_dec x (seg_start file_size P (Z.of_nat n))) as [Hlt|Hge].
    + destruct (IH ltac:(lia) x ltac:(lia)) as (i & Hi & Hxi).
      exists i. split; [lia|assumption].
    + exists (Z.of_nat n). split; [lia|].
      replace (Z.of_nat n + 1) with (Z.of_nat (S n)) by lia. lia.
Qed.

End PlannerFacts.


(** C2. For every file size in the range of [off_t] and every worker
    count [P >= 1] in the range of [int], the [P] segments of third.c
    follow the rule [base = size / P], [remainder = size mod P]: segment
    [i] starts at [i * base + min i remainder] and has [base + 1] bytes
    when [i < remainder] and [base] bytes otherwise.  The segments are
    ordered and contiguous (each one starts where the previous one ends,
    the first at 0, the last ends at the file size), pairwise disjoint,
    every offset of [0, size) lies in exactly one of them and they hold
    nothing else, any two lengths differ by at most 1, and exactly the
    first [remainder] segments have the extra byte. *)
Theorem segments_partition_buffer (file_size P : Z) :
  0 <= file_size <= OFF_MAX ->
  1 <= P <= INT_MAX ->
  let base := file_size / P in
  let r := file_size mod P in
  let start := seg_start file_size P in
  let len := segment_size file_size P in
  (forall i, 0 <= i < P ->
     start i = i * base + Z.min i r /\
     len i = (if i <? r then base + 1 else base) /\
     seg_end file_size P i = start i + len i) /\
  start 0 = 0 /\
  (forall i, 0 <= i < P - 1 -> start (i + 1) = start i + len i) /\
  start (P - 1) + len (P - 1) = file_size /\
  (forall i j, 0 <= i < j -> j < P -> start i + len i <= start j) /\
  (forall x, 0 <= x < file_size ->
     exists! i, 0 <= i < P /\ start i <= x < start i + len i) /\
  (forall i x, 0 <= i < P -> start i <= x < start i + len i ->
     0 <= x < file_size) /\
  (forall i j, 0 <= i < P -> 0 <= j < P -> Z.abs (len i - len j) <= 1) /\
  (forall i, 0 <= i < P -> (len i = base + 1 <-> i < r)).
Proof.
  intros Hsize HP base r start len. subst start len.
  pose proof (div_facts file_size P Hsize HP) as (E & Hr & Hb).
  fold base r in E, Hr, Hb.
  assert (Hsucc : forall i, 0 <= i < P ->
            seg_start file_size P i + segment_size file_size P i
            = seg_start file_size P (i + 1)).
  { intros i Hi. symmetry. apply seg_start_succ; assumption. }
  repeat split.
  - apply seg_start_eq; lia.
  - apply segment_size_eq; lia.
  - rewrite seg_end_eq, Hsucc by lia. reflexivity.
  - rewrite seg_start_eq by lia. fold r. lia.
  - intros i Hi. rewrite Hsucc by lia. reflexivity.
  - rewrite Hsucc by lia. replace (P - 1 + 1) with P by lia.
    apply seg_start_P; assumption.
  - intros i j Hij Hj. rewrite Hsucc by lia.
    apply seg_start_mono; lia.
  - intros x Hx.
    rewrite <- (seg_start_P file_size P Hsize HP) in Hx.
    destruct (cover_below file_size P Hsize HP (Z.to_nat P) ltac:(lia) x)
      as (i & Hi & Hxi); [rewrite Z2Nat.id by lia; exact Hx|].
    rewrite Z2Nat.id in Hi by lia.
    exists i. split.
    + split; [lia|]. rewrite Hsucc by lia. exact Hxi.
    + intros j (Hj & Hxj). rewrite Hsucc in Hxj by lia.
      destruct (Z.lt_trichotomy i j) as [Hlt|[Heq|Hgt]]; [|exact Heq|].
      * pose proof (seg_start_mono file_size P Hsize HP (i + 1) j
                      ltac:(lia) ltac:(lia)). lia.
      * pose proof (seg_start_mono file_size P Hsize HP (j + 1) i
                      ltac:(lia) ltac:(lia)). lia.
  - pose proof (seg_start_range file_size P Hsize HP i ltac:(lia)). lia.
  - rewrite Hsucc in H0 by lia.
    pose proof (seg_start_range file_size P Hsize HP (i + 1) ltac:(lia)).
    destruct H0 as [_ H0].
    destruct (Z.eq_dec (seg_start file_size P (i + 1)) file_size); [lia|lia].
  - intros i j Hi Hj. rewrite !segment_size_eq by lia. fold base r.
    destruct (i <? r), (j <? r); lia.
  - intros Hlen. rewrite segment_size_eq in Hlen by lia. fold base r in Hlen.
    destruct (Z.ltb_spec i r); lia.
  - intros Hlt. rewrite segment_size_eq by lia. fold base r.
    destruct (Z.ltb_spec i r); lia.
Qed.

(** The segments of an 8-byte file split over 3 workers. *)
Lemma segments_partition_buffer_witness :
  0 <= 8 <= OFF_MAX /\ 1 <= 3 <= INT_MAX /\
  seg_start 8 3 0 = 0 /\
  seg_start 8 3 (3 - 1) + segment_size 8 3 (3 - 1) = 8.
Proof.
  assert (Hs : 0 <= 8 <= OFF_MAX) by (unfold OFF_MAX; lia).
  assert (HP : 1 <= 3 <= INT_MAX) by (unfold INT_MAX; lia).
  split; [exact Hs|]. split; [exact HP|].
  pose proof (segments_partition_buffer 8 3 Hs HP) as H.
  cbv zeta in H.
  destruct H as (_ & H0 & _ & Hl & _).
  split; [exact H0|exact Hl].
Defined.

(** ** Worker scans *)

Example end_to_end_aabcaabc :
  let buf := [x61; x61; x62; x63; x61; x61; x62; x63] in
  child_count buf x61 8 2 0 = Some 2 /\
  child_count buf x61 8 2 1 = Some 2 /\
  total_of_segments buf x61 8 2 = Some 4 /\
  count_char buf x61 8 = Some 4.
Proof. vm_compute. repeat split. Qed.

(** Three bytes and five workers: three segments of 1 byte, then two
    empty ones, whose workers report 0. *)
Example three_bytes_five_workers :
  let buf := [x61; x62; x61] in
  map (segment_size 3 5) [0; 1; 2; 3; 4] = [1; 1; 1; 0; 0] /\
  map (child_count buf x61 3 5) [0; 1; 2; 3; 4]
  = [Some 1; Some 0; Some 1; Some 0; Some 0] /\
  total_of_segments buf x61 3 5 = count_char buf x61 3.
Proof. vm_compute. repeat split. Qed.

(** The whole program on ["aabcaabc"] with two workers whose counts both
    arrive: the parent reports 4 and exits with status 0. *)
Example end_to_end_main :
  let w := parent_world (fun _ => [SelEINTR; SelReady])
             (fun _ => [RdData [x02; x00; x00]; RdEINTR;
                        RdData [x00; x00; x00; x00; x00]]) in
  outcome (main w) = Exit EXIT_SUCCESS /\
  filter is_write (trace (main w)) = [EvWrite FdOutput (result_msg x61 4 "in.txt")].
Proof. vm_compute. split; reflexivity. Qed.

Lemma occurrences_nonneg c l : 0 <= occurrences c l.
Proof. unfold occurrences. lia. Qed.

Lemma occurrences_le_length c l : occurrences c l <= Z.of_nat (length l).
Proof.
  unfold occurrences. pose proof (count_occ_bound Byte.byte_eq_dec c l). lia.
Qed.

Lemma occurrences_cons c b l :
  occurrences c (b :: l) = (if Byte.eqb b c then 1 else 0) + occurrences c l.
Proof.
  unfold occurrences. simpl.
  destruct (Byte.byte_eq_dec b c) as [->|Hne].
  - rewrite (Byte.byte_dec_lb eq_refl). lia.
  - destruct (Byte.eqb b c) eqn:E; [apply Byte.byte_dec_bl in E; contradiction|lia].
Qed.

Lemma occurrences_app c l1 l2 :
  occurrences c (l1 ++ l2) = occurrences c l1 + occurrences c l2.
Proof. unfold occurrences. rewrite count_occ_app. lia. Qed.

Lemma slice_length buf a b :
  0 <= a <= b -> b <= Z.of_nat (length buf) ->
  Z.of_nat (length (slice buf a b)) = b - a.
Proof.
  intros Ha Hb. unfold slice. rewrite length_firstn, length_skipn. lia.
Qed.

Lemma slice_empty buf a : slice buf a a = [].
Proof. unfold slice. rewrite Z.sub_diag. reflexivity. Qed.

Lemma slice_all buf : slice buf 0 (Z.of_nat (length buf)) = buf.
Proof.
  unfold slice. rewrite Z.sub_0_r, Nat2Z.id. simpl. apply firstn_all.
Qed.

Lemma firstn_plus {A} (n m : nat) (l : list A) :
  firstn (n + m) l = firstn n l ++ firstn m (skipn n l).
Proof.
  revert l. induction n as [|n IH]; intros [|x l]; simpl; trivial.
  - now rewrite firstn_nil.
  - now rewrite IH.
Qed.

Lemma slice_app buf a b d :
  0 <= a <= b -> b <= d ->
  slice buf a d = slice buf a b ++ slice buf b d.
Proof.
  intros Hab Hbd. unfold slice.
  replace (Z.to_nat (d - a)) with (Z.to_nat (b - a) + Z.to_nat (d - b))%nat by lia.
  rewrite firstn_plus. f_equal.
  rewrite skipn_skipn. do 2 f_equal. lia.
Qed.

Lemma slice_cons buf j e b :
  0 <= j < e -> buf_get buf j = Some b ->
  slice buf j e = b :: slice buf (j + 1) e.
Proof.
  intros Hj Hget. unfold buf_get in Hget.
  destruct (Z.ltb_spec j 0); [lia|].
  unfold slice.
  replace (Z.to_nat (e - j)) with (S (Z.to_nat (e - (j + 1)))) by lia.
  replace (Z.to_nat (j + 1)) with (S (Z.to_nat j)) by lia.
  revert Hget. generalize (Z.to_nat j) as k. clear.
  intros k. revert buf. induction k as [|k IH]; intros [|x buf] Hget;
    simpl in Hget; try discriminate.
  - injection Hget as ->. reflexivity.
  - apply (IH buf Hget).
Qed.

Lemma buf_get_in_range buf j :
  0 <= j < Z.of_nat (length buf) -> exists b, buf_get buf j = Some b.
Proof.
  intros Hj. unfold buf_get. destruct (Z.ltb_spec j 0); [lia|].
  destruct (nth_error buf (Z.to_nat j)) eqn:E; [eauto|].
  apply nth_error_None in E. lia.
Qed.

(** The worker loop returns, reads only inside the buffer, and counts the
    occurrences in [j, end_) without wrapping. *)
Lemma scan_loop_spec buf c end_ (n : nat) :
  forall fuel j count,
  0 <= j -> j + Z.of_nat n = end_ ->
  end_ <= Z.of_nat (length buf) -> end_ <= OFF_MAX ->
  0 <= count -> count + Z.of_nat n <= OFF_MAX ->
  (n < fuel)%nat ->
  scan_loop fuel buf c j end_ count
  = Some (count + occurrences c (slice buf j end_)).
Proof.
  induction n as [|n IH]; intros fuel j count Hj He Hlen Hmax Hc Hcn Hfuel;
    (destruct fuel as [|fuel]; [lia|]); simpl.
  - replace j with end_ by lia. rewrite Z.ltb_irrefl, slice_empty.
    unfold occurrences. simpl. f_equal. lia.
  - destruct (Z.ltb_spec j end_); [|lia].
    destruct (buf_get_in_range buf j ltac:(lia)) as [b Hb]. rewrite Hb.
    rewrite (wrap64_small (j + 1)) by (unfold OFF_MAX in *; lia).
    rewrite (slice_cons buf j end_ b ltac:(lia) Hb), occurrences_cons.
    destruct (Byte.eqb b c).
    + rewrite (wrap64_small (count + 1)) by (unfold OFF_MAX in *; lia).
      rewrite IH by lia. f_equal. lia.
    + rewrite IH by lia. f_equal.
Qed.

(** The same for the single-process loop, whose index is an [int]. *)
Lemma count_loop_spec buf c st_size (n : nat) :
  forall fuel i count,
  0 <= i -> i + Z.of_nat n = st_size ->
  st_size <= Z.of_nat (length buf) -> st_size <= INT_MAX ->
  0 <= count -> count + Z.of_nat n <= OFF_MAX ->
  (n < fuel)%nat ->
  count_loop fuel buf c i st_size count
  = Some (count + occurrences c (slice buf i st_size)).
Proof.
  induction n as [|n IH]; intros fuel i count Hi He Hlen Hmax Hc Hcn Hfuel;
    (destruct fuel as [|fuel]; [lia|]); simpl.
  - replace i with st_size by lia. rewrite Z.ltb_irrefl, slice_empty.
    unfold occurrences. simpl. f_equal. lia.
  - destruct (Z.ltb_spec i st_size); [|lia].
    destruct (buf_get_in_range buf i ltac:(lia)) as [b Hb]. rewrite Hb.
    rewrite (wrap32_small (i + 1)) by (unfold INT_MAX in *; lia).
    rewrite (slice_cons buf i st_size b ltac:(lia) Hb), occurrences_cons.
    destruct (Byte.eqb b c).
    + rewrite (wrap64_small (count + 1)) by (unfold OFF_MAX in *; lia).
      rewrite IH by lia. f_equal. lia.
    + rewrite IH by lia. f_equal.
Qed.

Section SegmentCounts.

Variables (buf : list byte) (c : byte) (P : Z).
Let file_size := Z.of_nat (length buf).
Hypothesis Hsize : file_size <= OFF_MAX.
Hypothesis HP : 1 <= P <= INT_MAX.

Let Hsize0 : 0 <= file_size <= OFF_MAX.
Proof. subst file_size. lia. Qed.

(** Child [i] returns the number of occurrences inside its own segment. *)
Lemma child_count_spec i :
  0 <= i < P ->
  child_count buf c file_size P i
  = Some (occurrences c (slice buf (seg_start file_size P i)
                                   (seg_start file_size P (i + 1)))).
Proof.
  intros Hi. unfold child_count.
  pose proof (seg_start_range file_size P Hsize0 HP i ltac:(lia)) as Hs.
  pose proof (seg_start_range file_size P Hsize0 HP (i + 1) ltac:(lia)) as He.
  pose proof (seg_start_mono file_size P Hsize0 HP i (i + 1) ltac:(lia) ltac:(lia)).
  rewrite (seg_end_eq file_size P Hsize0 HP i Hi).
  rewrite (scan_loop_spec buf c _
             (Z.to_nat (seg_start file_size P (i + 1) - seg_start file_size P i)));
    try (subst file_size; lia).
  reflexivity.
Qed.

Lemma sum_children_spec (n : nat) :
  forall i total,
  0 <= i -> i + Z.of_nat n <= P ->
  0 <= total -> total <= seg_start file_size P i ->
  sum_children n buf c file_size P i total
  = Some (total + occurrences c (slice buf (seg_start file_size P i)
                                   (seg_start file_size P (i + Z.of_nat n)))).
Proof.
  induction n as [|n IH]; intros i total Hi Hn Ht Hts; cbn [sum_children].
  - change (Z.of_nat 0) with 0. rewrite Z.add_0_r, slice_empty. unfold occurrences. simpl. f_equal. lia.
  - rewrite child_count_spec by lia.
    pose proof (seg_start_range file_size P Hsize0 HP i ltac:(lia)) as Hs.
    pose proof (seg_start_range file_size P Hsize0 HP (i + 1) ltac:(lia)) as He.
    pose proof (seg_start_mono file_size P Hsize0 HP i (i + 1)
                  ltac:(lia) ltac:(lia)) as Hm.
    pose proof (seg_start_mono file_size P Hsize0 HP (i + 1) (i + Z.of_nat (S n))
                  ltac:(lia) ltac:(lia)) as Hm'.
    set (k := occurrences c (slice buf (seg_start file_size P i)
                                       (seg_start file_size P (i + 1)))).
    assert (Hk : 0 <= k <= seg_start file_size P (i + 1) - seg_start file_size P i).
    { subst k. split; [apply occurrences_nonneg|].
      rewrite <- (slice_length buf (seg_start file_size P i)
                    (seg_start file_size P (i + 1)))
        by (subst file_size; lia).
      apply occurrences_le_length. }
    rewrite (wrap64_small (total + k)) by (unfold OFF_MAX in *; lia).
    rewrite IH by lia.
    replace (i + 1 + Z.of_nat n) with (i + Z.of_nat (S n)) by lia.
    rewrite (slice_app buf (seg_start file_size P i) (seg_start file_size P (i + 1))
               (seg_start file_size P (i + Z.of_nat (S n)))) by lia.
    rewrite occurrences_app. fold k. f_equal. lia.
Qed.

Lemma total_of_segments_spec :
  total_of_segments buf c file_size P = Some (occurrences c buf).
Proof.
  unfold total_of_segments.
  pose proof (seg_start_eq file_size P Hsize0 HP 0 ltac:(lia)) as H0.
  replace (0 * (file_size / P) + Z.min 0 (file_size mod P)) with 0 in H0
    by (pose proof (div_facts file_size P Hsize0 HP); lia).
  rewrite sum_children_spec by lia.
  rewrite Z.add_0_l, Z2Nat.id by lia.
  rewrite H0, seg_start_P by assumption.
  subst file_size. rewrite slice_all. reflexivity.
Qed.

End SegmentCounts.

Lemma whole_scan_spec buf c :
  Z.of_nat (length buf) <= OFF_MAX ->
  scan_loop (S (length buf)) buf c 0 (Z.of_nat (length buf)) 0
  = Some (occurrences c buf).
Proof.
  intros H. rewrite (scan_loop_spec buf c _ (length buf)) by lia.
  rewrite slice_all. reflexivity.
Qed.

Lemma count_char_spec buf c :
  Z.of_nat (length buf) <= INT_MAX ->
  count_char buf c (Z.of_nat (length buf)) = Some (occurrences c buf).
Proof.
  intros H. unfold count_char.
  rewrite (count_loop_spec buf c _ (length buf)) by (unfold INT_MAX, OFF_MAX in *; lia).
  rewrite slice_all. reflexivity.
Qed.

(** C1. For every buffer (of a size an [off_t] holds), every target byte
    and every worker count [P >= 1], adding up the counts of the [P]
    segments, each scanned as the worker does, returns the count a single
    sequential scan of the whole buffer returns: the number of
    occurrences of the byte.  With [P = 1] the one segment is the whole
    buffer and the total is the count of its only worker.  The
    single-process program count_char.c indexes the buffer with an [int],
    so its scan is compared on the buffers an [int] can index. *)
Theorem segment_counts_sum_to_single_pass (buf : list byte) (c : byte) (P : Z) :
  let file_size := Z.of_nat (length buf) in
  file_size <= OFF_MAX ->
  1 <= P <= INT_MAX ->
  total_of_segments buf c file_size P
    = scan_loop (S (length buf)) buf c 0 file_size 0 /\
  total_of_segments buf c file_size P = Some (occurrences c buf) /\
  total_of_segments buf c file_size 1 = child_count buf c file_size 1 0 /\
  total_of_segments buf c file_size 1
    = scan_loop (S (length buf)) buf c 0 file_size 0 /\
  (file_size <= INT_MAX ->
   total_of_segments buf c file_size P = count_char buf c file_size /\
   total_of_segments buf c file_size 1 = count_char buf c file_size).
Proof.
  intros file_size Hsize HP. subst file_size.
  assert (H1 : 1 <= 1 <= INT_MAX) by (unfold INT_MAX; lia).
  rewrite (total_of_segments_spec buf c P Hsize HP).
  rewrite (total_of_segments_spec buf c 1 Hsize H1).
  rewrite whole_scan_spec by assumption.
  repeat split; trivial.
  - rewrite (child_count_spec buf c 1 Hsize H1 0 ltac:(lia)).
    change (0 + 1) with 1.
    assert (Hs : 0 <= Z.of_nat (length buf) <= OFF_MAX) by lia.
    pose proof (seg_start_P _ 1 Hs H1) as HP1. simpl in HP1. rewrite HP1.
    pose proof (seg_start_eq _ 1 Hs H1 0 ltac:(lia)) as H0.
    rewrite Z.mod_1_r in H0. simpl in H0. rewrite H0, slice_all. reflexivity.
  - symmetry. apply count_char_spec. assumption.
  - symmetry. apply count_char_spec. assumption.
Qed.

(** The buffer ["aabcaabc"], target ['a'], two workers. *)
Lemma segment_counts_sum_to_single_pass_witness :
  let buf := [x61; x61; x62; x63; x61; x61; x62; x63] in
  Z.of_nat (length buf) <= OFF_MAX /\ 1 <= 2 <= INT_MAX /\
  Z.of_nat (length buf) <= INT_MAX /\
  total_of_segments buf x61 (Z.of_nat (length buf)) 2
    = count_char buf x61 (Z.of_nat (length buf)).
Proof.
  intros buf.
  assert (Hs : Z.of_nat (length buf) <= OFF_MAX) by (vm_compute; discriminate).
  assert (HP : 1 <= 2 <= INT_MAX) by (unfold INT_MAX; lia).
  assert (Hi : Z.of_nat (length buf) <= INT_MAX) by (vm_compute; discriminate).
  split; [exact Hs|]. split; [exact HP|]. split; [exact Hi|].
  exact (proj1 (proj2 (proj2 (proj2 (proj2
           (segment_counts_sum_to_single_pass buf x61 2 Hs HP)))) Hi)).
Defined.

(** ** Processes *)

Lemma outcome_bind_ret {A B} (m : proc A) (k : A -> proc B) a :
  outcome m = Ret a -> outcome (bind m k) = outcome (k a).
Proof.
  destruct m as [t r]. cbn [outcome snd]. intros ->.
  unfold bind. destruct (k a). reflexivity.
Qed.

Lemma trace_bind_ret {A B} (m : proc A) (k : A -> proc B) a :
  outcome m = Ret a -> trace (bind m k) = trace m ++ trace (k a).
Proof.
  destruct m as [t r]. cbn [outcome snd]. intros ->.
  unfold bind. destruct (k a). reflexivity.
Qed.

Lemma outcome_bind_exit {A B} (m : proc A) (k : A -> proc B) code :
  outcome m = Exit code -> outcome (bind m k) = Exit code.
Proof. destruct m as [t r]. cbn [outcome snd]. intros ->. reflexivity. Qed.

Lemma trace_bind_stop {A B} (m : proc A) (k : A -> proc B) :
  (forall a, outcome m <> Ret a) -> trace (bind m k) = trace m.
Proof.
  destruct m as [t [a| | |]]; cbn [outcome snd]; intros H; try reflexivity.
  destruct (H a eq_refl).
Qed.

Lemma outcome_emit {B} e (k : unit -> proc B) :
  outcome (bind (emit e) k) = outcome (k tt).
Proof. apply (outcome_bind_ret (emit e) k tt). reflexivity. Qed.

Lemma trace_emit {B} e (k : unit -> proc B) :
  trace (bind (emit e) k) = e :: trace (k tt).
Proof. apply (trace_bind_ret (emit e) k tt). reflexivity. Qed.

(** ** The value on the wire *)

Lemma wrap64_mod z : wrap64 (z mod 2 ^ 64) = wrap64 z.
Proof.
  unfold wrap64, swrap. f_equal.
  rewrite Zplus_mod_idemp_l. reflexivity.
Qed.

(** A [long long] survives the trip through its 8 bytes. *)
Lemma decode_encode_count n :
  - 2 ^ 63 <= n <= OFF_MAX -> decode_count (encode_count n) = n.
Proof.
  intros H. unfold decode_count, encode_count.
  rewrite le_combine_split. change (Z.of_nat 8 * 8) with 64.
  rewrite wrap64_mod. apply wrap64_small. exact H.
Qed.

Lemma length_encode_count n : length (encode_count n) = 8%nat.
Proof. apply length_le_split. Qed.

Lemma length_store mem off chunk :
  0 <= off -> off + Z.of_nat (length chunk) <= Z.of_nat (length mem) ->
  length (store mem off chunk) = length mem.
Proof.
  intros Ho Hl. unfold store.
  rewrite !length_app, length_firstn, length_skipn. lia.
Qed.

Lemma firstn_store mem off chunk :
  0 <= off -> off + Z.of_nat (length chunk) <= Z.of_nat (length mem) ->
  firstn (Z.to_nat (off + Z.of_nat (length chunk))) (store mem off chunk)
  = firstn (Z.to_nat off) mem ++ chunk.
Proof.
  intros Ho Hl. unfold store.
  rewrite app_assoc.
  rewrite firstn_app.
  replace (Z.to_nat (off + Z.of_nat (length chunk))
           - length (firstn (Z.to_nat off) mem ++ chunk))%nat with 0%nat
    by (rewrite length_app, length_firstn; lia).
  rewrite firstn_O, app_nil_r.
  apply firstn_all2. rewrite length_app, length_firstn. lia.
Qed.

(** The read loop keeps calling [read] until the bytes are all there. *)
Lemma read_loop_delivers i rs payload :
  delivers rs payload ->
  forall mem read_bytes,
  length mem = 8%nat -> 0 <= read_bytes ->
  read_bytes + Z.of_nat (length payload) = COUNT_SIZE ->
  outcome (read_loop i rs mem read_bytes)
  = Ret (firstn (Z.to_nat read_bytes) mem ++ payload).
Proof.
  unfold COUNT_SIZE.
  induction 1 as [rs|rs payload Hd IH|bs rs payload Hbs Hd IH];
    intros mem rb Hmem Hrb Hlen.
  - simpl in Hlen. assert (rb = 8) by lia. subst rb.
    rewrite app_nil_r, firstn_all2 by lia.
    destruct rs; reflexivity.
  - cbn [read_loop]. unfold COUNT_SIZE.
    destruct (Z.ltb_spec rb 8).
    + rewrite outcome_emit. apply IH; assumption.
    + assert (payload = []) by (destruct payload; [reflexivity|simpl in Hlen; lia]).
      subst payload. rewrite app_nil_r, firstn_all2 by lia. reflexivity.
  - rewrite length_app in Hlen.
    assert (Hbl : (0 < length bs)%nat) by (destruct bs; [contradiction|simpl; lia]).
    cbn [read_loop]. unfold COUNT_SIZE.
    destruct (Z.ltb_spec rb 8); [|lia].
    rewrite outcome_emit.
    rewrite (firstn_all2 (n := Z.to_nat (8 - rb)) bs) by lia.
    destruct (Z.eqb_spec (Z.of_nat (length bs)) 0); [lia|].
    rewrite IH; [|rewrite length_store; lia|lia|lia].
    rewrite firstn_store by lia.
    rewrite <- app_assoc. reflexivity.
Qed.

(** ** Collecting *)

Lemma select_loop_ready i sels :
  select_outcome sels = Some SelReady ->
  exists k, select_loop i sels = (repeat (EvSelect i 5) (S k), Ret true).
Proof.
  induction sels as [|[] sels IH]; simpl; intros H; try discriminate.
  - exists 0%nat. reflexivity.
  - destruct (IH H) as [k Hk]. exists (S k).
    unfold bind, emit. rewrite Hk. reflexivity.
Qed.

Lemma select_loop_timeout i sels :
  select_outcome sels = Some SelTimeout ->
  exists k, select_loop i sels = (repeat (EvSelect i 5) (S k), Ret false).
Proof.
  induction sels as [|[] sels IH]; simpl; intros H; try discriminate.
  - exists 0%nat. reflexivity.
  - destruct (IH H) as [k Hk]. exists (S k).
    unfold bind, emit. rewrite Hk. reflexivity.
Qed.

(** A round on a channel that times out: the index is reported, the read
    end is closed, the total is unchanged, and the loop goes on. *)
Lemma collect_one_timeout i sels rs total :
  select_outcome sels = Some SelTimeout ->
  exists k,
    collect_one i sels rs total
    = (repeat (EvSelect i 5) (S k)
       ++ [EvStderr "Timeout waiting for data on pipe %d\n" [AInt i];
           EvClose (FdPipeRead i)],
       Ret total).
Proof.
  intros H. destruct (select_loop_timeout i sels H) as [k Hk].
  exists k. unfold collect_one, bind. rewrite Hk. reflexivity.
Qed.

(** A round on a channel that sends [v]: [v] is added to the total. *)
Lemma collect_one_sends i sels rs v total :
  sends sels rs v ->
  outcome (collect_one i sels rs total) = Ret (wrap64 (total + v)).
Proof.
  intros (Hsel & Hrd & Hv).
  destruct (select_loop_ready i sels Hsel) as [k Hk].
  unfold collect_one.
  rewrite (outcome_bind_ret _ _ true) by (rewrite Hk; reflexivity).
  pose proof (read_loop_delivers i rs _ Hrd (encode_count 0) 0
                (length_encode_count 0) ltac:(lia)
                ltac:(rewrite length_encode_count; reflexivity)) as Hr.
  simpl firstn in Hr. simpl app in Hr.
  erewrite outcome_bind_ret;
    [|erewrite outcome_bind_ret; [|exact Hr]; reflexivity].
  rewrite outcome_emit. cbn [outcome ret snd].
  rewrite decode_encode_count by lia. reflexivity.
Qed.

Lemma collect_step (n : nat) i sels rs total total' :
  outcome (collect_one i (sels i) (rs i) total) = Ret total' ->
  outcome (collect (S n) i sels rs total) = outcome (collect n (i + 1) sels rs total')
  /\ trace (collect (S n) i sels rs total)
     = trace (collect_one i (sels i) (rs i) total)
       ++ trace (collect n (i + 1) sels rs total').
Proof.
  intros H. cbn [collect]. split.
  - apply outcome_bind_ret. exact H.
  - apply trace_bind_ret. exact H.
Qed.

Lemma received_nonneg (n : nat) :
  forall i sels rs v,
  (forall j, i <= j < i + Z.of_nat n ->
     times_out (sels j) = true \/ sends (sels j) (rs j) (v j)) ->
  0 <= received n i sels v.
Proof.
  induction n as [|n IH]; intros i sels rs v H; cbn [received]; [lia|].
  pose proof (IH (i + 1) sels rs v ltac:(intros j Hj; apply H; lia)).
  destruct (H i ltac:(lia)) as [Ht|(Hsel & _ & Hv)].
  - rewrite Ht. lia.
  - unfold times_out. rewrite Hsel. lia.
Qed.

(** C3 (amended). When no data arrives on a channel within the 5 seconds,
    the parent reports the index of that channel on the error stream,
    closes its end and goes on: the timeout does not end the job.  If every channel either
    times out or sends its count, the collection loop returns, and its
    total is the sum of the counts of the channels that did not time
    out. *)
Theorem timeout_reported_and_skipped (n : nat) :
  forall i sels rs v total,
  (forall j, i <= j < i + Z.of_nat n ->
     times_out (sels j) = true \/ sends (sels j) (rs j) (v j)) ->
  0 <= total ->
  total + received n i sels v <= OFF_MAX ->
  outcome (collect n i sels rs total) = Ret (total + received n i sels v) /\
  (forall j, i <= j < i + Z.of_nat n -> times_out (sels j) = true ->
     let tr := trace (collect n i sels rs total) in
     In (EvStderr "Timeout waiting for data on pipe %d\n" [AInt j]) tr /\
     In (EvClose (FdPipeRead j)) tr).
Proof.
  induction n as [|n IH]; intros i sels rs v total H Ht Hsum.
  - cbn [collect received]. split; [cbn; f_equal; lia|intros j Hj; lia].
  - cbn [received] in Hsum |- *.
    assert (H' : forall j, i + 1 <= j < i + 1 + Z.of_nat n ->
                   times_out (sels j) = true \/ sends (sels j) (rs j) (v j))
      by (intros j Hj; apply H; lia).
    pose proof (received_nonneg n (i + 1) sels rs v H') as Hrec.
    destruct (H i ltac:(lia)) as [Hto|Hs].
    + rewrite Hto in *.
      assert (Hsel : select_outcome (sels i) = Some SelTimeout).
      { unfold times_out in Hto.
        destruct (select_outcome (sels i)) as [[]|]; try discriminate; reflexivity. }
      destruct (collect_one_timeout i (sels i) (rs i) total Hsel) as [k Hk].
      destruct (collect_step n i sels rs total total
                  ltac:(rewrite Hk; reflexivity)) as [Ho Htr].
      destruct (IH (i + 1) sels rs v total H' Ht ltac:(lia)) as [IHo IHt].
      rewrite Ho. split; [rewrite IHo; f_equal; lia|].
      intros j Hj Hjto. cbv zeta. rewrite Htr.
      destruct (Z.eq_dec j i) as [->|Hne].
      * rewrite Hk. cbn [trace fst].
        split; apply in_or_app; left; apply in_or_app; right;
          [left|right; left]; reflexivity.
      * destruct (IHt j ltac:(lia) Hjto) as [Hm Hc].
        split; apply in_or_app; right; assumption.
    + pose proof Hs as (Hsel & _ & Hv).
      assert (Hnt : times_out (sels i) = false)
        by (unfold times_out; rewrite Hsel; reflexivity).
      rewrite Hnt in *.
      pose proof (collect_one_sends i (sels i) (rs i) (v i) total Hs) as Hone.
      rewrite wrap64_small in Hone by (unfold OFF_MAX in *; lia).
      destruct (collect_step n i sels rs total _ Hone) as [Ho Htr].
      destruct (IH (i + 1) sels rs v (total + v i) H' ltac:(lia) ltac:(lia))
        as [IHo IHt].
      rewrite Ho. split; [rewrite IHo; f_equal; lia|].
      intros j Hj Hjto. cbv zeta. rewrite Htr.
      assert (j <> i) by congruence.
      destruct (IHt j ltac:(lia) Hjto) as [Hm Hc].
      split; apply in_or_app; right; assumption.
Qed.

Ltac in_list := vm_compute; repeat (try (left; reflexivity); right).

(** Two channels: the first one times out, the second one sends 2. *)
Lemma timeout_reported_and_skipped_witness :
  let sels := selects world_timeout in
  let rs := reads world_timeout in
  (forall j, 0 <= j < 0 + Z.of_nat 2 ->
     times_out (sels j) = true \/ sends (sels j) (rs j) 2) /\
  outcome (collect 2 0 sels rs 0) = Ret (0 + received 2 0 sels (fun _ => 2)) /\
  In (EvStderr "Timeout waiting for data on pipe %d\n" [AInt 0])
     (trace (collect 2 0 sels rs 0)).
Proof.
  intros sels rs.
  assert (H : forall j, 0 <= j < 0 + Z.of_nat 2 ->
            times_out (sels j) = true \/ sends (sels j) (rs j) 2).
  { intros j Hj. assert (j = 0 \/ j = 1) as [->| ->] by lia.
    - left. reflexivity.
    - right. split; [reflexivity|]. split; [|unfold OFF_MAX; lia].
      change (rs 1) with [RdData (encode_count 2)].
      rewrite <- (app_nil_r (encode_count 2)) at 2.
      apply delivers_data; [vm_compute; discriminate|apply delivers_done]. }
  split; [exact H|].
  destruct (timeout_reported_and_skipped 2 0 sels rs (fun _ => 2) 0 H
              ltac:(lia) ltac:(vm_compute; discriminate)) as [Ho Ht].
  split; [exact Ho|].
  exact (proj1 (Ht 0 ltac:(lia) eq_refl)).
Defined.

(** C3 as stated fails: pipe 0 times out, yet the job goes on, adds up
    the count of pipe 1, writes the result and exits with status 0. *)
Lemma timeout_is_fatal_counterexample :
  times_out (selects world_timeout 0) = true /\
  outcome (main world_timeout) = Exit EXIT_SUCCESS /\
  In (EvStderr "Timeout waiting for data on pipe %d\n" [AInt 0])
     (trace (main world_timeout)) /\
  In (EvRead (FdPipeRead 1) 8) (trace (main world_timeout)) /\
  In (EvStdout
        "3/4 -> Character counted successfully: total %lld occurrences of character '%c' :)\n"
        [AInt 2; AChar x61])
     (trace (main world_timeout)) /\
  In (EvWrite FdOutput (result_msg x61 2 "in.txt")) (trace (main world_timeout)).
Proof.
  split; [reflexivity|]. split; [vm_compute; reflexivity|].
  split; [in_list|]. split; [in_list|]. split; in_list.
Qed.

(** End of file leaves the read loop; it does not end the process. *)
Lemma read_loop_closes i rs got :
  closes_after rs got ->
  forall mem read_bytes,
  length mem = 8%nat -> 0 <= read_bytes ->
  read_bytes + Z.of_nat (length got) < COUNT_SIZE ->
  exists mem',
    outcome (read_loop i rs mem read_bytes) = Ret mem' /\
    (got = [] -> mem' = mem).
Proof.
  unfold COUNT_SIZE.
  induction 1 as [rs|rs got Hc IH|bs rs got Hbs Hc IH];
    intros mem rb Hmem Hrb Hlen.
  - exists mem. cbn [read_loop]. unfold COUNT_SIZE.
    destruct (Z.ltb_spec rb 8); [|simpl in Hlen; lia].
    split; reflexivity.
  - cbn [read_loop]. unfold COUNT_SIZE.
    destruct (Z.ltb_spec rb 8); [|lia].
    rewrite outcome_emit. apply IH; assumption.
  - rewrite length_app in Hlen.
    assert (Hbl : (0 < length bs)%nat) by (destruct bs; [contradiction|simpl; lia]).
    cbn [read_loop]. unfold COUNT_SIZE.
    destruct (Z.ltb_spec rb 8); [|lia].
    rewrite outcome_emit.
    rewrite (firstn_all2 (n := Z.to_nat (8 - rb)) bs) by lia.
    destruct (Z.eqb_spec (Z.of_nat (length bs)) 0); [lia|].
    destruct (IH (store mem rb bs) (rb + Z.of_nat (length bs)))
      as (mem' & Hm & _); [rewrite length_store; lia|lia|lia|].
    exists mem'. split; [exact Hm|].
    intros E. destruct bs; [contradiction|discriminate].
Qed.

(** C4 (amended). When a channel is closed before the 8 bytes of the
    count have arrived, the read loop stops at the end of file and the
    job does not fail: the parent closes its end and goes on with the
    next channel.  A channel closed before any byte arrived leaves the
    total unchanged. *)
Theorem closed_channel_skipped (i : Z) (sels : list select_result)
    (rs : list read_result) (got : list byte) (total : Z) :
  select_outcome sels = Some SelReady ->
  closes_after rs got ->
  Z.of_nat (length got) < COUNT_SIZE ->
  exists total',
    outcome (collect_one i sels rs total) = Ret total' /\
    (got = [] -> - 2 ^ 63 <= total <= OFF_MAX -> total' = total) /\
    In (EvClose (FdPipeRead i)) (trace (collect_one i sels rs total)) /\
    (forall (n : nat) sels' rs',
       sels' i = sels -> rs' i = rs ->
       outcome (collect (S n) i sels' rs' total)
       = outcome (collect n (i + 1) sels' rs' total')).
Proof.
  intros Hsel Hc Hlen.
  destruct (select_loop_ready i sels Hsel) as [k Hk].
  destruct (read_loop_closes i rs got Hc (encode_count 0) 0
              (length_encode_count 0) ltac:(lia) ltac:(lia))
    as (mem' & Hm & Hmem).
  exists (wrap64 (total + decode_count mem')).
  assert (Hone : outcome (collect_one i sels rs total)
                 = Ret (wrap64 (total + decode_count mem'))).
  { unfold collect_one.
    rewrite (outcome_bind_ret _ _ true) by (rewrite Hk; reflexivity).
    erewrite outcome_bind_ret;
      [|erewrite outcome_bind_ret; [|exact Hm]; reflexivity].
    reflexivity. }
  split; [exact Hone|]. split; [|split].
  - intros E Ht. rewrite (Hmem E).
    rewrite decode_encode_count by (unfold OFF_MAX; lia).
    rewrite Z.add_0_r. apply wrap64_small. exact Ht.
  - unfold collect_one.
    rewrite (trace_bind_ret _ _ true) by (rewrite Hk; reflexivity).
    apply in_or_app. right.
    erewrite trace_bind_ret;
      [|erewrite outcome_bind_ret; [|exact Hm]; reflexivity].
    apply in_or_app. right. left. reflexivity.
  - intros n sels' rs' Es Er.
    apply collect_step. rewrite Es, Er. exact Hone.
Qed.

(** Pipe 0 of [world_closed]. *)
Lemma closed_channel_skipped_witness :
  select_outcome (selects world_closed 0) = Some SelReady /\
  closes_after (reads world_closed 0) [] /\
  Z.of_nat (length (@nil byte)) < COUNT_SIZE /\
  exists total', outcome (collect_one 0 [SelReady] [RdEOF] 0) = Ret total'.
Proof.
  assert (Hc : closes_after (reads world_closed 0) []) by apply closes_eof.
  assert (Hl : Z.of_nat (length (@nil byte)) < COUNT_SIZE) by reflexivity.
  split; [reflexivity|]. split; [exact Hc|]. split; [exact Hl|].
  destruct (closed_channel_skipped 0 [SelReady] [RdEOF] [] 0 eq_refl Hc Hl)
    as (total' & Ho & _).
  exists total'. exact Ho.
Defined.

(** C4 as stated fails.  In [world_closed] pipe 0 is closed before any
    byte arrives, yet the job goes on and exits with status 0, reporting
    the count 2 of the other pipe as the total.  In
    [world_closed_partway] pipe 0 is closed after one byte of value 5:
    the 5 is added to the total. *)
Lemma closed_channel_is_fatal_counterexample :
  closes_after (reads world_closed 0) [] /\
  outcome (main world_closed) = Exit EXIT_SUCCESS /\
  In (EvStdout
        "3/4 -> Character counted successfully: total %lld occurrences of character '%c' :)\n"
        [AInt 2; AChar x61])
     (trace (main world_closed)) /\
  closes_after (reads world_closed_partway 0) [x05] /\
  outcome (main world_closed_partway) = Exit EXIT_SUCCESS /\
  In (EvStdout
        "3/4 -> Character counted successfully: total %lld occurrences of character '%c' :)\n"
        [AInt 7; AChar x61])
     (trace (main world_closed_partway)).
Proof.
  split; [apply closes_eof|]. split; [vm_compute; reflexivity|].
  split; [in_list|].
  split; [apply (closes_data [x05] [RdEOF] []); [discriminate|apply closes_eof]|].
  split; [vm_compute; reflexivity|in_list].
Qed.

(** ** Sending and receiving the count *)

(** The child calls [write] once, whatever it returns. *)
Lemma send_count_trace i count w :
  @send_count i count w unit
  = if write_ret COUNT_SIZE w =? COUNT_SIZE then
      ([EvWrite (FdPipeWrite i) (encode_count count);
        EvClose (FdPipeWrite i)], Exit EXIT_SUCCESS)
    else
      ([EvWrite (FdPipeWrite i) (encode_count count);
        EvPerror "Error writing to pipe in child";
        EvClose (FdPipeWrite i)], Exit EXIT_FAILURE).
Proof.
  unfold send_count. destruct (write_ret COUNT_SIZE w =? COUNT_SIZE); reflexivity.
Qed.

(** C5 (amended). Only the parent's read side retries.  When the 8 bytes
    of a count arrive in several pieces, with interrupted calls in
    between, the read loop calls [read] again until all 8 bytes are in
    [child_count], which then holds the count that was sent; before
    that, end of file leaves the loop and another error ends the process
    with [EXIT_FAILURE].  The child
    calls [write] exactly once: when that call does not take all 8 bytes
    the child exits with [EXIT_FAILURE], and with [EXIT_SUCCESS]
    otherwise. *)
Theorem read_side_retries_write_side_does_not (i : Z) (rs : list read_result)
    (count : Z) (w : write_result) :
  - 2 ^ 63 <= count <= OFF_MAX ->
  delivers rs (encode_count count) ->
  outcome (read_loop i rs (encode_count 0) 0) = Ret (encode_count count) /\
  decode_count (encode_count count) = count /\
  (forall rs' mem read_bytes, read_bytes < COUNT_SIZE ->
     outcome (read_loop i (RdEOF :: rs') mem read_bytes) = Ret mem /\
     outcome (read_loop i (RdError :: rs') mem read_bytes) = Exit EXIT_FAILURE) /\
  length (filter is_write (trace (@send_count i count w unit))) = 1%nat /\
  outcome (@send_count i count w unit)
  = Exit (if write_ret COUNT_SIZE w =? COUNT_SIZE
          then EXIT_SUCCESS else EXIT_FAILURE) /\
  (write_ret COUNT_SIZE w <> COUNT_SIZE ->
   @send_count i count w unit
   = ([EvWrite (FdPipeWrite i) (encode_count count);
       EvPerror "Error writing to pipe in child";
       EvClose (FdPipeWrite i)], Exit EXIT_FAILURE)).
Proof.
  intros Hc Hd. split; [|split; [|split; [|split; [|split]]]].
  - rewrite (read_loop_delivers i rs _ Hd (encode_count 0) 0
               (length_encode_count 0) ltac:(lia)
               ltac:(rewrite length_encode_count; reflexivity)).
    reflexivity.
  - apply decode_encode_count. exact Hc.
  - intros rs' mem rb Hrb. cbn [read_loop].
    destruct (Z.ltb_spec rb COUNT_SIZE); [|lia]. split; reflexivity.
  - rewrite send_count_trace.
    destruct (write_ret COUNT_SIZE w =? COUNT_SIZE); reflexivity.
  - rewrite send_count_trace.
    destruct (write_ret COUNT_SIZE w =? COUNT_SIZE); reflexivity.
  - intros Hw. rewrite send_count_trace.
    destruct (Z.eqb_spec (write_ret COUNT_SIZE w) COUNT_SIZE);
      [contradiction|reflexivity].
Qed.

(** The count 2 arriving as 3 bytes, an interrupted call, then 5 bytes. *)
Lemma read_side_retries_write_side_does_not_witness :
  let rs := [RdData [x02; x00; x00]; RdEINTR;
             RdData [x00; x00; x00; x00; x00]] in
  - 2 ^ 63 <= 2 <= OFF_MAX /\
  delivers rs (encode_count 2) /\
  outcome (read_loop 1 rs (encode_count 0) 0) = Ret (encode_count 2).
Proof.
  intros rs.
  assert (Hc : - 2 ^ 63 <= 2 <= OFF_MAX) by (unfold OFF_MAX; lia).
  assert (Hd : delivers rs (encode_count 2)).
  { change (encode_count 2)
      with ([x02; x00; x00] ++ [x00; x00; x00; x00; x00] ++ []).
    apply delivers_data; [discriminate|]. apply delivers_eintr.
    apply delivers_data; [discriminate|]. apply delivers_done. }
  split; [exact Hc|]. split; [exact Hd|].
  exact (proj1 (read_side_retries_write_side_does_not 1 rs 2 (WrBytes 8) Hc Hd)).
Defined.

(** C5 as stated fails on the write side: the [write] of the child takes
    3 of the 8 bytes; the child does not call [write] again, it reports
    the error and exits with [EXIT_FAILURE]. *)
Lemma write_side_retries_counterexample :
  write_ret COUNT_SIZE (child_write world_short_write) = 3 /\
  outcome (main world_short_write) = Exit EXIT_FAILURE /\
  filter is_write (trace (main world_short_write))
  = [EvWrite (FdPipeWrite 0) (encode_count 2)] /\
  In (EvPerror "Error writing to pipe in child") (trace (main world_short_write)).
Proof.
  split; [reflexivity|]. split; [vm_compute; reflexivity|].
  split; [vm_compute; reflexivity|in_list].
Qed.

(** ** StatusReporter *)

Lemma sigint_run_debounced ts :
  forall st last,
  Forall (fun t => 0 < t <= OFF_MAX) ts ->
  match last with
  | None => last_print st = 0
  | Some l => last_print st = l /\ 0 <= l <= OFF_MAX
  end ->
  sigint_run ts st = debounced last ts.
Proof.
  induction ts as [|t ts IH]; intros st last Hts Hlast; [reflexivity|].
  inversion Hts as [|? ? Ht Hts']; subst. cbv beta in Ht.
  cbn [sigint_run debounced]. unfold sigint_handler.
  destruct last as [l|].
  - destruct Hlast as [El Hl]. rewrite El.
    rewrite wrap64_small by (unfold OFF_MAX in *; lia).
    destruct (Z.ltb_spec (t - l) 1), (Z.leb_spec 1 (t - l)); try lia.
    + f_equal. apply IH; [assumption|]. split; assumption.
    + f_equal. apply IH; [assumption|]. split; [reflexivity|lia].
  - rewrite Hlast, Z.sub_0_r.
    rewrite wrap64_small by (unfold OFF_MAX in *; lia).
    destruct (Z.ltb_spec t 1); [lia|].
    f_equal. apply IH; [assumption|]. split; [reflexivity|lia].
Qed.

Lemma debounced_same_second t (n : nat) :
  debounced (Some t) (repeat t n) = repeat false n.
Proof.
  induction n as [|n IH]; [reflexivity|].
  cbn [repeat debounced]. rewrite Z.sub_diag. cbn. f_equal. exact IH.
Qed.

Lemma debounced_spaced ts :
  forall prev, spaced prev ts ->
  debounced (Some prev) ts = repeat true (length ts).
Proof.
  induction ts as [|t ts IH]; intros prev Hs; [reflexivity|].
  destruct Hs as [Ht Hs]. cbn [debounced length repeat].
  destruct (Z.leb_spec 1 (t - prev)); [|lia].
  f_equal. apply IH. exact Hs.
Qed.

Lemma lines_repeat_false n : lines (repeat false n) = 0%nat.
Proof. induction n; [reflexivity|exact IHn]. Qed.

Lemma lines_repeat_true n : lines (repeat true n) = n.
Proof. unfold lines. induction n; [reflexivity|]. cbn. f_equal. exact IHn. Qed.

(** The lines written while a sequence of interrupt requests is handled
    are those of the triggers that printed. *)
Lemma deliver_sigint_lines ts :
  forall st,
  exists st' out,
    deliver (map Sigint ts) st = Some (st', out) /\
    length out = lines (sigint_run ts st).
Proof.
  induction ts as [|t ts IH]; intros st; cbn [map deliver sigint_run].
  - exists st, []. split; reflexivity.
  - unfold sigint_handler.
    destruct (wrap64 (t - last_print st) <? 1).
    + destruct (IH st) as (st' & out & Hd & Hl).
      exists st', out. rewrite Hd. split; [reflexivity|exact Hl].
    + destruct (IH {| active_children := active_children st; last_print := t |})
        as (st' & out & Hd & Hl).
      eexists st', _. rewrite Hd. split; [reflexivity|].
      cbn [app length]. rewrite Hl. reflexivity.
Qed.

(** C6. For every sequence of trigger times read from the clock (positive
    values of a [time_t]), handled from the initial state of the program,
    a trigger prints a line exactly when at least 1 second separates it
    from the last trigger that printed, the first trigger having none
    before it.  Triggers within the same second print exactly one line in
    all, and triggers at least 1 second apart print one line each. *)
Theorem sigint_debounced (P : Z) (ts : list Z) :
  Forall (fun t => 0 < t <= OFF_MAX) ts ->
  let st := set_active_children P sig_init in
  (exists st' out,
     deliver (map Sigint ts) st = Some (st', out) /\
     length out = lines (sigint_run ts st)) /\
  sigint_run ts st = debounced None ts /\
  (forall t (n : nat), ts = repeat t (S n) -> lines (sigint_run ts st) = 1%nat) /\
  (spaced 0 ts -> sigint_run ts st = repeat true (length ts)
                  /\ lines (sigint_run ts st) = length ts).
Proof.
  intros Hts st.
  assert (H : sigint_run ts st = debounced None ts)
    by (apply sigint_run_debounced; [assumption|reflexivity]).
  split; [apply deliver_sigint_lines|].
  split; [exact H|]. rewrite H. split.
  - intros t n ->. cbn [repeat debounced].
    rewrite debounced_same_second.
    unfold lines. cbn [filter id length]. fold (lines (repeat false n)).
    rewrite lines_repeat_false. reflexivity.
  - intros Hs. destruct ts as [|t ts]; [split; reflexivity|].
    destruct Hs as [Ht Hs]. cbn [debounced].
    rewrite (debounced_spaced ts t Hs).
    change (true :: repeat true (length ts)) with (repeat true (length (t :: ts))).
    split; [reflexivity|apply lines_repeat_true].
Qed.

(** Triggers at the clock readings 100, 100, 100, 101, 103. *)
Lemma sigint_debounced_witness :
  Forall (fun t => 0 < t <= OFF_MAX) [100; 100; 100; 101; 103] /\
  sigint_run [100; 100; 100; 101; 103] (set_active_children 4 sig_init)
  = debounced None [100; 100; 100; 101; 103].
Proof.
  assert (H : Forall (fun t => 0 < t <= OFF_MAX) [100; 100; 100; 101; 103])
    by (repeat constructor; unfold OFF_MAX; lia).
  split; [exact H|].
  exact (proj1 (proj2 (sigint_debounced 4 [100; 100; 100; 101; 103] H))).
Defined.

(** ** The shape of traces *)

Lemma all_events_ret Q {A} (a : A) : all_events Q (ret a).
Proof. reflexivity. Qed.

Lemma all_events_exit Q {A} code : all_events Q (@exit_with A code).
Proof. reflexivity. Qed.

Lemma all_events_stuck Q {A} : all_events Q (@stuck A).
Proof. reflexivity. Qed.

Lemma all_events_fault Q {A} : all_events Q (@fault A).
Proof. reflexivity. Qed.

Lemma all_events_bind Q {A B} (m : proc A) (k : A -> proc B) :
  all_events Q m ->
  (forall a, outcome m = Ret a -> all_events Q (k a)) ->
  all_events Q (bind m k).
Proof.
  unfold all_events. intros Hm Hk.
  destruct (outcome m) as [a| | |] eqn:E.
  - rewrite (trace_bind_ret m k a E), forallb_app, Hm. exact (Hk a eq_refl).
  - rewrite trace_bind_stop; [exact Hm|congruence].
  - rewrite trace_bind_stop; [exact Hm|congruence].
  - rewrite trace_bind_stop; [exact Hm|congruence].
Qed.

Lemma all_events_emit Q {B} e (k : unit -> proc B) :
  Q e = true -> all_events Q (k tt) -> all_events Q (bind (emit e) k).
Proof.
  intros He Hk. unfold all_events. rewrite trace_emit. cbn [forallb].
  rewrite He. exact Hk.
Qed.

Ltac shape_step HQ :=
  first
    [ apply all_events_ret | apply all_events_exit
    | apply all_events_stuck | apply all_events_fault
    | apply all_events_emit; [apply HQ; reflexivity|] ].

Ltac shape HQ := repeat (shape_step HQ).

(** The part of the program that runs before [active_children = P]
    neither creates a pipe, nor forks, nor assigns the counter. *)
Section BeforeSpawning.

Variable Q : event -> bool.
Hypothesis HQ : forall e, is_spawn e = false -> is_set_active e = false -> Q e = true.

Lemma read_file_shape rs st_size :
  forall buf, all_events Q (read_file rs st_size buf).
Proof.
  induction rs as [|[bs|] rs IH]; intros buf; cbn [read_file];
    destruct (_ <? _); shape HQ.
  apply IH.
Qed.

Lemma determine_P_shape env_p : all_events Q (determine_P env_p).
Proof.
  unfold determine_P. apply all_events_bind.
  - destruct env_p as [s|]; shape HQ. destruct (_ <=? _); shape HQ.
  - intros P _. shape HQ.
Qed.

End BeforeSpawning.

(** The rest of the program does not assign the counter. *)
Section AfterInitialisation.

Variable Q : event -> bool.
Hypothesis HQ : forall e, is_set_active e = false -> Q e = true.

Lemma select_loop_shape i sels : all_events Q (select_loop i sels).
Proof.
  induction sels as [|[] sels IH]; cbn [select_loop]; shape HQ. exact IH.
Qed.

Lemma read_loop_shape i rs :
  forall mem read_bytes, all_events Q (read_loop i rs mem read_bytes).
Proof.
  induction rs as [|[| | |bs] rs IH]; intros mem rb; cbn [read_loop];
    destruct (_ <? _); shape HQ.
  - apply IH.
  - destruct (_ =? _); shape HQ. apply IH.
Qed.

Lemma collect_one_shape i sels rs total :
  all_events Q (collect_one i sels rs total).
Proof.
  unfold collect_one. apply all_events_bind; [apply select_loop_shape|].
  intros ready _. apply all_events_bind.
  - destruct ready; shape HQ.
    apply all_events_bind; [apply read_loop_shape|]. intros; shape HQ.
  - intros; shape HQ.
Qed.

Lemma collect_shape (n : nat) sels rs :
  forall i total, all_events Q (collect n i sels rs total).
Proof.
  induction n as [|n IH]; intros i total; cbn [collect]; shape HQ.
  apply all_events_bind; [apply collect_one_shape|]. intros; apply IH.
Qed.

Lemma send_count_shape i count w {A} : all_events Q (@send_count i count w A).
Proof. unfold send_count. shape HQ. destruct (negb _); shape HQ. Qed.

Lemma child_shape buf c file_size P i w {A} :
  all_events Q (@child buf c file_size P i w A).
Proof.
  unfold child. do 2 shape_step HQ.
  destruct (child_count _ _ _ _ _); [apply send_count_shape|apply all_events_fault].
Qed.

Lemma spawn_shape w buf c file_size P (n : nat) :
  forall i pids, all_events Q (spawn w buf c file_size P n i pids).
Proof.
  induction n as [|n IH]; intros i pids; cbn [spawn]; shape HQ.
  destruct (negb _); shape HQ.
  destruct (_ =? -1); shape HQ.
  destruct (_ =? 0); [apply child_shape|]. shape HQ. apply IH.
Qed.

Lemma reap_shape pids : all_events Q (reap pids).
Proof. induction pids as [|pid pids IH]; cbn [reap]; shape HQ. exact IH. Qed.

Lemma write_out_shape ws msg :
  forall total_written, all_events Q (write_out ws msg total_written).
Proof.
  induction ws as [|r ws IH]; intros tw; cbn [write_out];
    destruct (_ <? _); shape HQ.
  destruct (_ =? -1); shape HQ. apply IH.
Qed.

Lemma report_shape w c total : all_events Q (report w c total).
Proof.
  unfold report. shape HQ. destruct (negb _); shape HQ.
  apply all_events_bind; [apply write_out_shape|]. intros; shape HQ.
Qed.

End AfterInitialisation.

Lemma quiet_event e :
  is_spawn e = false -> is_set_active e = false ->
  negb (is_spawn e) && negb (is_set_active e) = true.
Proof. intros -> ->. reflexivity. Qed.

Lemma unset_event e :
  is_set_active e = false -> negb (is_set_active e) = true.
Proof. intros ->. reflexivity. Qed.

Lemma assigns_once_prefix w pre tr :
  forallb (fun e => negb (is_spawn e) && negb (is_set_active e)) pre = true ->
  assigns_once w tr -> assigns_once w (pre ++ tr).
Proof.
  intros Hpre (pre' & Hpre' & [->|(P & rest & HP & -> & Hrest)]).
  - exists (pre ++ pre'). rewrite forallb_app, Hpre, Hpre'. auto.
  - exists (pre ++ pre'). rewrite forallb_app, Hpre, Hpre'. split; [reflexivity|].
    right. exists P, rest. rewrite <- app_assoc. auto.
Qed.

Lemma run_assigns_once w buf c file_size :
  assigns_once w (trace (run w buf c file_size)).
Proof.
  unfold run.
  pose proof (determine_P_shape _ quiet_event (env_P w)) as HdP.
  unfold all_events in HdP.
  destruct (outcome (determine_P (env_P w))) as [P| | |] eqn:E.
  - rewrite (trace_bind_ret _ _ P E).
    apply assigns_once_prefix; [exact HdP|].
    rewrite trace_emit.
    destruct (sigaction_int_ok w); cbn [negb];
      [|exists [EvSigaction SIGINT; EvPerror "sigaction SIGINT error"];
        split; [reflexivity|left; reflexivity]].
    rewrite trace_emit.
    destruct (sigaction_chld_ok w); cbn [negb];
      [|exists [EvSigaction SIGINT; EvSigaction SIGCHLD;
                EvPerror "sigaction SIGCHLD error"];
        split; [reflexivity|left; reflexivity]].
    destruct (malloc_pipes_ok w); cbn [negb];
      [|exists [EvSigaction SIGINT; EvSigaction SIGCHLD;
                EvPerror "malloc error for pipes"];
        split; [reflexivity|left; reflexivity]].
    rewrite trace_emit.
    exists [EvSigaction SIGINT; EvSigaction SIGCHLD]. split; [reflexivity|].
    right. exists P. eexists. split; [exact E|]. split; [reflexivity|].
    destruct (malloc_pids_ok w); cbn [negb]; [|reflexivity].
    apply all_events_bind; [apply spawn_shape; exact unset_event|].
    intros pids _.
    apply all_events_bind; [apply collect_shape; exact unset_event|].
    intros total _.
    apply all_events_bind; [apply reap_shape; exact unset_event|].
    intros _ _. apply report_shape. exact unset_event.
  - rewrite trace_bind_stop by congruence.
    exists (trace (determine_P (env_P w))). split; [exact HdP|left; reflexivity].
  - rewrite trace_bind_stop by congruence.
    exists (trace (determine_P (env_P w))). split; [exact HdP|left; reflexivity].
  - rewrite trace_bind_stop by congruence.
    exists (trace (determine_P (env_P w))). split; [exact HdP|left; reflexivity].
Qed.

Lemma main_assigns_once w : assigns_once w (trace (main w)).
Proof.
  unfold main.
  destruct (argc w =? 4); cbn [negb];
    [|eexists; split; [|left; reflexivity]; reflexivity].
  destruct (Z.of_nat (length (argv3 w)) =? 1); cbn [negb];
    [|eexists; split; [|left; reflexivity]; reflexivity].
  rewrite trace_emit.
  destruct (open_input_ok w); cbn [negb];
    [|eexists; split; [|left; reflexivity]; reflexivity].
  rewrite trace_emit.
  destruct (fstat_size w) as [st_size|];
    [|eexists; split; [|left; reflexivity]; reflexivity].
  destruct (st_size =? 0);
    [eexists; split; [|left; reflexivity]; reflexivity|].
  destruct (malloc_buf_ok w); cbn [negb];
    [|eexists; split; [|left; reflexivity]; reflexivity].
  apply (assigns_once_prefix w [EvOpen FdInput;
           EvStdout "1/4 -> File opened successfully :)\n" []]); [reflexivity|].
  pose proof (read_file_shape _ quiet_event (file_reads w) st_size []) as Hrd.
  unfold all_events in Hrd.
  destruct (outcome (read_file (file_reads w) st_size [])) as [buf| | |] eqn:E.
  - rewrite (trace_bind_ret _ _ buf E).
    apply assigns_once_prefix; [exact Hrd|].
    rewrite !trace_emit.
    apply (assigns_once_prefix w [EvClose FdInput;
             EvStdout "2/4 -> File read successfully :)\n" []]); [reflexivity|].
    apply run_assigns_once.
  - rewrite trace_bind_stop by congruence.
    eexists; split; [exact Hrd|left; reflexivity].
  - rewrite trace_bind_stop by congruence.
    eexists; split; [exact Hrd|left; reflexivity].
  - rewrite trace_bind_stop by congruence.
    eexists; split; [exact Hrd|left; reflexivity].
Qed.

(** ** ActiveCounter *)

Lemma sigchld_handler_spec rets :
  forall st,
  existsb (fun r => r <=? 0) rets = true ->
  - 2 ^ 31 + Z.of_nat (length (reaped rets)) <= active_children st <= INT_MAX ->
  exists rest,
    sigchld_handler rets st
    = Some ({| active_children :=
                 active_children st - Z.of_nat (length (reaped rets));
               last_print := last_print st |}, rest).
Proof.
  induction rets as [|r rets IH]; intros st Hex Hn; [discriminate|].
  cbn [sigchld_handler reaped existsb] in *.
  destruct (Z.gtb_spec r 0) as [Hr|Hr].
  - destruct (Z.leb_spec r 0); [lia|]. cbn [orb length] in *.
    destruct (IH {| active_children := wrap32 (active_children st - 1);
                    last_print := last_print st |} Hex) as [rest Hrest].
    + cbn [active_children].
      rewrite wrap32_small by (unfold INT_MAX in *; lia).
      unfold INT_MAX in *. lia.
    + exists rest. rewrite Hrest. cbn [active_children last_print].
      rewrite wrap32_small by (unfold INT_MAX in *; lia).
      do 3 f_equal. lia.
  - exists rets. cbn [length]. destruct st as [a l]. cbn.
    do 3 f_equal. lia.
Qed.

Lemma total_reaped_nonneg sigs : 0 <= total_reaped sigs.
Proof. induction sigs as [|[] sigs IH]; cbn [total_reaped]; lia. Qed.

Lemma sigint_handler_counter now st :
  active_children (fst (sigint_handler now st)) = active_children st.
Proof. unfold sigint_handler. destruct (_ <? _); reflexivity. Qed.

(** The handlers return, and leave in the counter its value less the
    number of children reaped. *)
Lemma deliver_spec sigs :
  forall st,
  waitpid_settles sigs = true ->
  - 2 ^ 31 + total_reaped sigs <= active_children st <= INT_MAX ->
  exists st' out,
    deliver sigs st = Some (st', out) /\
    active_children st' = active_children st - total_reaped sigs.
Proof.
  induction sigs as [|[now|rets] sigs IH]; intros st Hw Hn;
    cbn [deliver total_reaped waitpid_settles] in *.
  - exists st, []. split; [reflexivity|lia].
  - pose proof (sigint_handler_counter now st) as Hc.
    destruct (sigint_handler now st) as [st1 out1]. cbn [fst] in Hc.
    destruct (IH st1 Hw ltac:(rewrite Hc; exact Hn)) as (st' & out & Hd & Ha).
    exists st', (out1 ++ out). rewrite Hd. split; [reflexivity|].
    rewrite Ha, Hc. reflexivity.
  - apply andb_prop in Hw as [Hex Hw].
    pose proof (total_reaped_nonneg sigs).
    destruct (sigchld_handler_spec rets st Hex ltac:(lia)) as [rest Hh].
    rewrite Hh.
    destruct (IH {| active_children :=
                      active_children st - Z.of_nat (length (reaped rets));
                    last_print := last_print st |} Hw)
      as (st' & out & Hd & Ha); [cbn [active_children]; unfold INT_MAX in *; lia|].
    exists st', out. split; [exact Hd|].
    rewrite Ha. cbn [active_children]. lia.
Qed.

(** ** Input checks *)

(** C9. When the input file has length 0, [main] exits with
    [EXIT_FAILURE] without creating a pipe or a child; when the arguments
    are well formed and the file opens, all it does after opening it is
    to report that the file is empty and to close it. *)
Theorem empty_input_fails_before_spawning (w : World) :
  fstat_size w = Some 0 ->
  outcome (main w) = Exit EXIT_FAILURE /\
  forallb (fun e => negb (is_spawn e)) (trace (main w)) = true /\
  (argc w = 4 -> Z.of_nat (length (argv3 w)) = 1 -> open_input_ok w = true ->
   trace (main w)
   = [EvOpen FdInput;
      EvStdout "1/4 -> File opened successfully :)\n" [];
      EvStderr "Error: file is empty\n" [];
      EvClose FdInput]).
Proof.
  intros Hsize. unfold main. rewrite Hsize.
  destruct (argc w =? 4) eqn:Eargc; cbn [negb].
  - destruct (Z.of_nat (length (argv3 w)) =? 1) eqn:Earg; cbn [negb].
    + destruct (open_input_ok w) eqn:Eopen; cbn [negb].
      * split; [reflexivity|]. split; reflexivity.
      * split; [reflexivity|]. split; [reflexivity|]. discriminate.
    + split; [reflexivity|]. split; [reflexivity|].
      intros _ H. rewrite H in Earg. discriminate.
  - split; [reflexivity|]. split; [reflexivity|].
    intros H. rewrite H in Eargc. discriminate.
Qed.

(** An empty file given to the sample run. *)
Lemma empty_input_fails_before_spawning_witness :
  let w := {| argc := 4; argv0 := "./third"; input_file := "empty.txt";
              output_file := "out.txt"; argv3 := [x61];
              open_input_ok := true; fstat_size := Some 0;
              malloc_buf_ok := true; file_reads := []; env_P := None;
              sigaction_int_ok := true; sigaction_chld_ok := true;
              malloc_pipes_ok := true; malloc_pids_ok := true;
              pipe_ok := fun _ => true; fork_ret := fun i => 1000 + i;
              child_write := WrBytes 8; selects := fun _ => [SelReady];
              reads := fun _ => [RdEOF]; open_output_ok := true;
              out_writes := [] |} in
  fstat_size w = Some 0 /\ outcome (main w) = Exit EXIT_FAILURE.
Proof.
  intros w. split; [reflexivity|].
  exact (proj1 (empty_input_fails_before_spawning w eq_refl)).
Defined.

(** ** The worker count *)

Lemma digits_string_of_uint u :
  forall acc,
  digits (list_byte_of_string (NilEmpty.string_of_uint u)) acc = uint_value u acc.
Proof.
  induction u as [|u IH|u IH|u IH|u IH|u IH|u IH|u IH|u IH|u IH|u IH];
    intros acc; [reflexivity|..]; exact (IH _).
Qed.

Lemma uint_value_acc u :
  forall p, uint_value u (Z.pos p) = Z.pos (Pos.of_uint_acc u p).
Proof.
  induction u as [|u IH|u IH|u IH|u IH|u IH|u IH|u IH|u IH|u IH|u IH];
    intros p; cbn [uint_value Pos.of_uint_acc]; [reflexivity|..];
    rewrite <- IH; f_equal; lia.
Qed.

Lemma uint_value_of_uint u : uint_value u 0 = Z.of_N (Pos.of_uint u).
Proof.
  induction u as [|u IH|u IH|u IH|u IH|u IH|u IH|u IH|u IH|u IH|u IH];
    cbn [uint_value Pos.of_uint]; [reflexivity|exact IH|..];
    cbn [Z.mul Z.add Z.of_N]; apply uint_value_acc.
Qed.

Lemma digits_numeral p :
  digits (list_byte_of_string (NilEmpty.string_of_uint (Pos.to_uint p))) 0
  = Z.pos p.
Proof.
  rewrite digits_string_of_uint, uint_value_of_uint, Unsigned.of_to.
  reflexivity.
Qed.

(** A string that starts with a digit is read from its first byte on. *)
Lemma strtol10_digit_head b rest d :
  digit b = Some d ->
  strtol10 (b :: rest) = Z.max (- 2 ^ 63) (Z.min OFF_MAX (digits (b :: rest) 0)).
Proof. destruct b; intros H; try discriminate H; reflexivity. Qed.

(** A string that starts with neither white space, a sign nor a digit
    holds no number. *)
Lemma atoi_no_number b rest :
  isspace b = false -> b <> x2d -> b <> x2b -> digit b = None ->
  atoi (b :: rest) = 0.
Proof.
  destruct b; intros Hs Hm Hp Hd; try discriminate; try congruence; reflexivity.
Qed.

Lemma numeral_head p :
  exists b rest d,
    list_byte_of_string (NilEmpty.string_of_uint (Pos.to_uint p)) = b :: rest /\
    digit b = Some d.
Proof.
  pose proof (Unsigned.to_uint_nonnil p) as H.
  destruct (Pos.to_uint p) as [|u|u|u|u|u|u|u|u|u|u]; [contradiction|..];
    do 3 eexists; split; reflexivity.
Qed.

Lemma string_of_uint_numeral p :
  NilZero.string_of_uint (Pos.to_uint p) = NilEmpty.string_of_uint (Pos.to_uint p).
Proof.
  pose proof (Unsigned.to_uint_nonnil p) as H.
  destruct (Pos.to_uint p); [contradiction|..]; reflexivity.
Qed.

(** [atoi] reads back the decimal numeral of every [int] above its
    minimum. *)
Lemma atoi_decimal n : - INT_MAX <= n <= INT_MAX -> atoi (decimal n) = n.
Proof.
  intros Hn. unfold atoi, decimal. destruct n as [|p|p].
  - reflexivity.
  - cbn [Z.to_int NilZero.string_of_int]. rewrite string_of_uint_numeral.
    destruct (numeral_head p) as (b & rest & d & Hs & Hd).
    pose proof (digits_numeral p) as Hv. rewrite Hs in *.
    rewrite (strtol10_digit_head b rest d Hd), Hv.
    rewrite Z.min_r, Z.max_r by (unfold INT_MAX, OFF_MAX in *; lia).
    apply wrap32_small. unfold INT_MAX in *. lia.
  - cbn [Z.to_int NilZero.string_of_int]. rewrite string_of_uint_numeral.
    pose proof (digits_numeral p) as Hv.
    change (list_byte_of_string (String "-" ?s))
      with (x2d :: list_byte_of_string s).
    unfold strtol10. cbn [skip_spaces].
    change (isspace x2d) with false. cbv iota.
    rewrite Hv.
    rewrite Z.min_r, Z.max_r by (unfold INT_MAX, OFF_MAX in *; lia).
    apply wrap32_small. unfold INT_MAX in *. lia.
Qed.

Lemma determine_P_invalid s :
  atoi s <= 0 ->
  determine_P (Some s)
  = ([EvStdout "P environment variable found: %d\n" [AInt (atoi s)];
      EvStderr "Invalid value for P. Must be positive.\n" []],
     Exit EXIT_FAILURE).
Proof.
  intros H. unfold determine_P.
  destruct (Z.leb_spec (atoi s) 0); [reflexivity|lia].
Qed.

Lemma determine_P_valid s :
  0 < atoi s ->
  determine_P (Some s)
  = ([EvStdout "P environment variable found: %d\n" [AInt (atoi s)];
      EvStdout "Using %d child processes for searching.\n" [AInt (atoi s)]],
     Ret (atoi s)).
Proof.
  intros H. unfold determine_P.
  destruct (Z.leb_spec (atoi s) 0); [lia|reflexivity].
Qed.

Lemma read_file_outcome rs st_size :
  forall buf,
  (exists buf', outcome (read_file rs st_size buf) = Ret buf') \/
  outcome (read_file rs st_size buf) = Exit EXIT_FAILURE \/
  outcome (read_file rs st_size buf) = Stuck.
Proof.
  induction rs as [|[bs|] rs IH]; intros buf; cbn [read_file];
    destruct (_ <? _); try (left; eexists; reflexivity).
  - right; right; reflexivity.
  - rewrite outcome_emit. apply IH.
  - right; left; reflexivity.
Qed.

Lemma run_invalid_P w buf c file_size s :
  env_P w = Some s -> atoi s <= 0 ->
  outcome (run w buf c file_size) = Exit EXIT_FAILURE.
Proof.
  intros He Hs. unfold run. rewrite He.
  apply outcome_bind_exit. rewrite determine_P_invalid by assumption.
  reflexivity.
Qed.

Lemma main_invalid_P w s :
  env_P w = Some s -> atoi s <= 0 ->
  (outcome (main w) = Exit EXIT_FAILURE \/ outcome (main w) = Stuck) /\
  forallb (fun e => negb (is_spawn e)) (trace (main w)) = true.
Proof.
  intros He Hs. split.
  - unfold main.
    destruct (argc w =? 4); cbn [negb]; [|left; reflexivity].
    destruct (Z.of_nat (length (argv3 w)) =? 1); cbn [negb]; [|left; reflexivity].
    rewrite outcome_emit.
    destruct (open_input_ok w); cbn [negb]; [|left; reflexivity].
    rewrite outcome_emit.
    destruct (fstat_size w) as [st_size|]; [|left; reflexivity].
    destruct (st_size =? 0); [left; reflexivity|].
    destruct (malloc_buf_ok w); cbn [negb]; [|left; reflexivity].
    destruct (read_file_outcome (file_reads w) st_size []) as [[buf E]|[E|E]].
    + rewrite (outcome_bind_ret _ _ buf E), !outcome_emit.
      left. apply (run_invalid_P w buf _ st_size s He Hs).
    + left. apply outcome_bind_exit. exact E.
    + right. destruct (read_file (file_reads w) st_size []) as [t r].
      cbn [outcome snd] in E. subst r. reflexivity.
  - destruct (main_assigns_once w)
      as (pre & Hpre & [->|(P & rest & HP & _)]).
    + rewrite forallb_forall in *. intros e He'.
      apply Hpre, andb_prop in He'. apply He'.
    + rewrite He, determine_P_invalid in HP by assumption. discriminate HP.
Qed.

(** C8 (amended). The worker count is 4 when the variable [P] is absent
    from the environment, and what [atoi] reads in its value otherwise:
    after white space and an optional sign, the leading digits, whatever
    follows them.  When that number is 0 or less (so for the numeral of
    every such [int], and for every value that starts with no number)
    the job reports an invalid value and fails before a pipe or a child
    is created; when it is positive it is the worker count, and for the
    decimal numeral of every [n] from 1 to [INT_MAX] it is [n]. *)
Theorem worker_count_from_environment (s : list byte) (n : Z) :
  1 <= n <= INT_MAX ->
  determine_P None
  = ([EvStdout "Using %d child processes for searching.\n" [AInt 4]], Ret 4) /\
  outcome (determine_P (Some (decimal n))) = Ret n /\
  (0 < atoi s -> outcome (determine_P (Some s)) = Ret (atoi s)) /\
  (atoi s <= 0 ->
   outcome (determine_P (Some s)) = Exit EXIT_FAILURE /\
   In (EvStderr "Invalid value for P. Must be positive.\n" [])
      (trace (determine_P (Some s))) /\
   forall w, env_P w = Some s ->
     (outcome (main w) = Exit EXIT_FAILURE \/ outcome (main w) = Stuck) /\
     forallb (fun e => negb (is_spawn e)) (trace (main w)) = true) /\
  (forall k, - INT_MAX <= k <= 0 -> atoi (decimal k) = k) /\
  atoi [] = 0 /\
  (forall b rest,
     isspace b = false -> b <> x2d -> b <> x2b -> digit b = None ->
     atoi (b :: rest) = 0).
Proof.
  intros Hn.
  assert (Hd : atoi (decimal n) = n) by (apply atoi_decimal; lia).
  split; [reflexivity|].
  split; [rewrite determine_P_valid by lia; rewrite Hd; reflexivity|].
  split; [intros H; rewrite determine_P_valid by assumption; reflexivity|].
  split.
  - intros H. rewrite determine_P_invalid by assumption.
    split; [reflexivity|]. split; [right; left; reflexivity|].
    intros w He. apply (main_invalid_P w s He H).
  - split; [intros k Hk; apply atoi_decimal; lia|].
    split; [reflexivity|]. apply atoi_no_number.
Qed.

(** The values ["3"] and ["abc"]. *)
Lemma worker_count_from_environment_witness :
  1 <= 3 <= INT_MAX /\
  outcome (determine_P (Some (decimal 3))) = Ret 3 /\
  outcome (determine_P (Some [x61; x62; x63])) = Exit EXIT_FAILURE.
Proof.
  assert (Hn : 1 <= 3 <= INT_MAX) by (unfold INT_MAX; lia).
  pose proof (worker_count_from_environment [x61; x62; x63] 3 Hn)
    as (_ & H3 & _ & Hbad & _).
  split; [exact Hn|]. split; [exact H3|].
  assert (Ha : atoi [x61; x62; x63] <= 0) by (vm_compute; discriminate).
  exact (proj1 (Hbad Ha)).
Defined.

(** C8 as stated fails: the value ["3abc"] is not a positive integer, yet
    the job does not fail; it runs with 3 workers and exits with
    status 0. *)
Lemma worker_count_counterexample :
  is_positive_integer [x33; x61; x62; x63] = false /\
  env_P world_3abc = Some [x33; x61; x62; x63] /\
  outcome (determine_P (env_P world_3abc)) = Ret 3 /\
  outcome (main world_3abc) = Exit EXIT_SUCCESS /\
  filter is_fork (trace (main world_3abc)) = [EvFork 0; EvFork 1; EvFork 2].
Proof.
  split; [reflexivity|]. split; [reflexivity|]. split; [reflexivity|].
  split; vm_compute; reflexivity.
Qed.

(** ** Bounds on the counts *)

Section CountBounds.

Variables (buf : list byte) (c : byte) (P : Z).
Let file_size := Z.of_nat (length buf).
Hypothesis Hsize : file_size <= OFF_MAX.
Hypothesis HP : 1 <= P <= INT_MAX.

Let Hsize0 : 0 <= file_size <= OFF_MAX.
Proof. subst file_size. lia. Qed.

Lemma segment_occurrences_bound i :
  0 <= i < P ->
  0 <= occurrences c (slice buf (seg_start file_size P i)
                                (seg_start file_size P (i + 1)))
    <= segment_size file_size P i.
Proof.
  intros Hi.
  pose proof (seg_start_range file_size P Hsize0 HP i ltac:(lia)).
  pose proof (seg_start_range file_size P Hsize0 HP (i + 1) ltac:(lia)).
  pose proof (seg_start_succ file_size P Hsize0 HP i Hi) as Hs.
  pose proof (segment_size_nonneg file_size P Hsize0 HP i ltac:(lia)).
  split; [apply occurrences_nonneg|].
  replace (segment_size file_size P i)
    with (seg_start file_size P (i + 1) - seg_start file_size P i) by lia.
  rewrite <- (slice_length buf (seg_start file_size P i)
                (seg_start file_size P (i + 1))) by (subst file_size; lia).
  apply occurrences_le_length.
Qed.

(** When every channel hands over the count of its child, the collection
    loop adds up the occurrences of the segments it goes through. *)
Lemma collect_counts sels rs (n : nat) :
  forall i total,
  0 <= i -> i + Z.of_nat n <= P ->
  (forall j count, i <= j < i + Z.of_nat n ->
     child_count buf c file_size P j = Some count ->
     sends (sels j) (rs j) count) ->
  0 <= total <= seg_start file_size P i ->
  outcome (collect n i sels rs total)
  = Ret (total + occurrences c (slice buf (seg_start file_size P i)
                                  (seg_start file_size P (i + Z.of_nat n)))).
Proof.
  induction n as [|n IH]; intros i total Hi Hn Hch Ht.
  - change (Z.of_nat 0) with 0. rewrite Z.add_0_r, slice_empty.
    cbn. f_equal. unfold occurrences. simpl. lia.
  - pose proof (seg_start_range file_size P Hsize0 HP i ltac:(lia)) as Hs.
    pose proof (seg_start_range file_size P Hsize0 HP (i + 1) ltac:(lia)) as He.
    pose proof (seg_start_succ file_size P Hsize0 HP i ltac:(lia)) as Hsucc.
    pose proof (segment_occurrences_bound i ltac:(lia)) as Hb.
    pose proof (seg_start_mono file_size P Hsize0 HP (i + 1) (i + Z.of_nat (S n))
                  ltac:(lia) ltac:(lia)) as Hm.
    pose proof (Hch i _ ltac:(lia) (child_count_spec buf c P Hsize HP i ltac:(lia)))
      as Hsend.
    fold file_size in Hsend.
    pose proof (collect_one_sends i (sels i) (rs i) _ total Hsend) as Hone.
    rewrite wrap64_small in Hone by (unfold OFF_MAX in *; lia).
    destruct (collect_step n i sels rs total _ Hone) as [Ho _].
    rewrite Ho, IH; try lia.
    + replace (i + 1 + Z.of_nat n) with (i + Z.of_nat (S n)) by lia.
      rewrite (slice_app buf (seg_start file_size P i)
                 (seg_start file_size P (i + 1))
                 (seg_start file_size P (i + Z.of_nat (S n)))) by lia.
      rewrite occurrences_app. f_equal. lia.
    + intros j count Hj. apply Hch. lia.
Qed.

End CountBounds.

(** C10. For every buffer of a size an [off_t] holds, every target byte
    and every segment, the worker's loop returns a count between 0 and
    the length of the segment, equal to the number of occurrences in the
    segment: the 64-bit counter never wraps.  The count comes out of its
    8 bytes unchanged, and when every channel hands over the count of its
    child the total of the collection loop is the number of occurrences
    in the buffer, between 0 and the length of the buffer: the 64-bit
    sum never wraps either. *)
Theorem counts_within_bounds (buf : list byte) (c : byte) (P i : Z)
    (sels : Z -> list select_result) (rs : Z -> list read_result) :
  let file_size := Z.of_nat (length buf) in
  file_size <= OFF_MAX ->
  1 <= P <= INT_MAX ->
  0 <= i < P ->
  exists count,
    child_count buf c file_size P i = Some count /\
    count = occurrences c (slice buf (seg_start file_size P i)
                             (seg_start file_size P i + segment_size file_size P i)) /\
    0 <= count <= segment_size file_size P i /\
    segment_size file_size P i <= file_size /\
    decode_count (encode_count count) = count /\
    total_of_segments buf c file_size P = Some (occurrences c buf) /\
    0 <= occurrences c buf <= file_size /\
    ((forall j count', 0 <= j < P ->
        child_count buf c file_size P j = Some count' ->
        sends (sels j) (rs j) count') ->
     outcome (collect (Z.to_nat P) 0 sels rs 0) = Ret (occurrences c buf)).
Proof.
  intros file_size Hsize HP Hi.
  assert (Hsize0 : 0 <= file_size <= OFF_MAX) by (subst file_size; lia).
  pose proof (seg_start_succ file_size P Hsize0 HP i Hi) as Hsucc.
  pose proof (segment_occurrences_bound buf c P Hsize HP i Hi) as Hb.
  fold file_size in Hb.
  pose proof (seg_start_range file_size P Hsize0 HP i ltac:(lia)) as Hs.
  pose proof (seg_start_range file_size P Hsize0 HP (i + 1) ltac:(lia)) as He.
  eexists. split; [apply (child_count_spec buf c P Hsize HP i Hi)|].
  fold file_size. rewrite <- Hsucc.
  split; [reflexivity|]. split; [exact Hb|]. split; [lia|].
  split; [apply decode_encode_count; unfold OFF_MAX in *; lia|].
  split; [apply (total_of_segments_spec buf c P Hsize HP)|].
  split; [split; [apply occurrences_nonneg|apply occurrences_le_length]|].
  intros Hch.
  pose proof (seg_start_eq file_size P Hsize0 HP 0 ltac:(lia)) as H0.
  replace (0 * (file_size / P) + Z.min 0 (file_size mod P)) with 0 in H0
    by (pose proof (div_facts file_size P Hsize0 HP); lia).
  rewrite (collect_counts buf c P Hsize HP sels rs (Z.to_nat P) 0 0);
    fold file_size; try lia.
  - replace (0 + Z.of_nat (Z.to_nat P)) with P by lia.
    rewrite H0, (seg_start_P file_size P Hsize0 HP), Z.add_0_l.
    subst file_size. rewrite slice_all. reflexivity.
  - intros j count' Hj. apply Hch. lia.
Qed.

(** The second half of ["aabcaabc"], target ['a'], two workers. *)
Lemma counts_within_bounds_witness :
  let buf := [x61; x61; x62; x63; x61; x61; x62; x63] in
  Z.of_nat (length buf) <= OFF_MAX /\ 1 <= 2 <= INT_MAX /\ 0 <= 1 < 2 /\
  exists count,
    child_count buf x61 (Z.of_nat (length buf)) 2 1 = Some count /\
    0 <= count <= segment_size (Z.of_nat (length buf)) 2 1.
Proof.
  intros buf.
  assert (Hs : Z.of_nat (length buf) <= OFF_MAX) by (vm_compute; discriminate).
  assert (HP : 1 <= 2 <= INT_MAX) by (unfold INT_MAX; lia).
  assert (Hi : 0 <= 1 < 2) by lia.
  split; [exact Hs|]. split; [exact HP|]. split; [exact Hi|].
  destruct (counts_within_bounds buf x61 2 1 (fun _ => []) (fun _ => []) Hs HP Hi)
    as (count & Hc & _ & Hb & _).
  exists count. split; [exact Hc|exact Hb].
Defined.

(* ================================================================= *)
(** * Further properties of the two programs *)

(** ** Reading the input file *)

Lemma read_file_delivers rs content :
  file_delivers rs content ->
  forall buf st_size,
  Z.of_nat (length buf) + Z.of_nat (length content) = st_size ->
  outcome (read_file rs st_size buf) = Ret (buf ++ content).
Proof.
  induction 1 as [rs|bs rs content Hbs Hd IH]; intros buf st_size Hlen.
  - rewrite app_nil_r. cbn [length] in Hlen.
    destruct rs as [|[bs|] rs]; cbn [read_file];
      destruct (Z.ltb_spec (Z.of_nat (length buf)) st_size); try lia; reflexivity.
  - rewrite length_app in Hlen.
    assert (Hbl : (0 < length bs)%nat) by (destruct bs; [contradiction|simpl; lia]).
    cbn [read_file].
    destruct (Z.ltb_spec (Z.of_nat (length buf)) st_size); [|lia].
    rewrite outcome_emit, firstn_all2 by lia.
    rewrite IH by (rewrite length_app; lia).
    rewrite <- app_assoc. reflexivity.
Qed.

Lemma read_file_returns rs st_size :
  forall buf buf',
  Z.of_nat (length buf) <= st_size ->
  outcome (read_file rs st_size buf) = Ret buf' ->
  Z.of_nat (length buf') = st_size /\ firstn (length buf) buf' = buf.
Proof.
  induction rs as [|[bs|] rs IH]; intros buf buf' Hlen; cbn [read_file];
    destruct (Z.ltb_spec (Z.of_nat (length buf)) st_size) as [Hlt|Hge];
    try (intros H; injection H as <-; split; [lia|apply firstn_all]);
    try discriminate.
  rewrite outcome_emit. intros H.
  apply IH in H.
  - destruct H as [H1 H2]. split; [exact H1|].
    set (x := firstn (Z.to_nat (st_size - Z.of_nat (length buf))) bs) in *.
    assert (E : firstn (length buf) buf'
                = firstn (length buf) (firstn (length (buf ++ x)) buf')).
    { rewrite firstn_firstn. f_equal. rewrite length_app. lia. }
    rewrite E, H2, firstn_app, Nat.sub_diag, firstn_O, app_nil_r, firstn_all.
    reflexivity.
  - rewrite length_app, length_firstn. lia.
Qed.

(** X1. When the file arrives in any number of non-empty pieces, the
    reading loop puts them together: it returns the content of the file,
    whose length is [st_size]. *)
Theorem read_file_assembles_pieces (rs : list (option (list byte)))
    (content : list byte) :
  file_delivers rs content ->
  outcome (read_file rs (Z.of_nat (length content)) []) = Ret content.
Proof.
  intros H. apply (read_file_delivers rs content H []). reflexivity.
Qed.

(** A file of 8 bytes arriving as 3 bytes then 5 bytes. *)
Lemma read_file_assembles_pieces_witness :
  let rs := [Some [x61; x61; x62]; Some [x63; x61; x61; x62; x63]] in
  file_delivers rs [x61; x61; x62; x63; x61; x61; x62; x63] /\
  outcome (read_file rs 8 []) = Ret [x61; x61; x62; x63; x61; x61; x62; x63].
Proof.
  intros rs.
  assert (H : file_delivers rs [x61; x61; x62; x63; x61; x61; x62; x63]).
  { apply (file_delivers_data [x61; x61; x62] _ [x63; x61; x61; x62; x63]);
      [discriminate|].
    apply (file_delivers_data [x63; x61; x61; x62; x63] _ []);
      [discriminate|apply file_delivers_done]. }
  split; [exact H|].
  exact (read_file_assembles_pieces rs _ H).
Defined.

(** X2. Whatever [read] answers, a buffer the reading loop returns holds
    exactly [st_size] bytes: the loop never takes more than the file
    size, even when [read] offers more, and it does not return before
    the buffer is full. *)
Theorem read_file_fills_buffer (rs : list (option (list byte)))
    (st_size : Z) (buf : list byte) :
  0 <= st_size ->
  outcome (read_file rs st_size []) = Ret buf ->
  Z.of_nat (length buf) = st_size.
Proof.
  intros Hs H. apply (read_file_returns rs st_size [] buf); [simpl; lia|exact H].
Qed.

(** A read that offers 5 bytes of a 3-byte file. *)
Lemma read_file_fills_buffer_witness :
  0 <= 3 /\
  outcome (read_file [Some [x61; x62; x63; x64; x65]] 3 []) = Ret [x61; x62; x63] /\
  Z.of_nat (length [x61; x62; x63]) = 3.
Proof.
  assert (H : outcome (read_file [Some [x61; x62; x63; x64; x65]] 3 [])
              = Ret [x61; x62; x63]) by reflexivity.
  split; [lia|]. split; [exact H|].
  exact (read_file_fills_buffer _ 3 _ ltac:(lia) H).
Defined.

(** ** Writing the result *)

Lemma bytes_taken_nonneg ws : 0 <= bytes_taken ws.
Proof. induction ws as [|[|n] ws IH]; cbn [bytes_taken]; lia. Qed.

Lemma write_out_complete ws msg :
  forall total_written,
  0 <= total_written <= Z.of_nat (length msg) ->
  Z.of_nat (length msg) - total_written <= bytes_taken ws ->
  outcome (write_out ws msg total_written) = Ret tt.
Proof.
  induction ws as [|[|n] ws IH]; intros tw Htw Hb; cbn [write_out bytes_taken] in *;
    destruct (Z.ltb_spec tw (Z.of_nat (length msg))) as [Hlt|Hge];
    try lia; try reflexivity.
  rewrite outcome_emit. cbn [write_ret].
  pose proof (bytes_taken_nonneg ws).
  destruct (Z.eqb_spec (Z.min (Z.of_nat n) (Z.of_nat (length msg) - tw)) (-1));
    [lia|].
  apply IH; lia.
Qed.

Lemma proc_eq {A} (m : proc A) t r : trace m = t -> outcome m = r -> m = (t, r).
Proof. destruct m. cbn [trace outcome fst snd]. intros -> ->. reflexivity. Qed.

Lemma pieces_cover ws :
  forall rest,
  Z.of_nat (length rest) <= bytes_taken ws ->
  concat (pieces ws rest) = rest.
Proof.
  induction ws as [|[|n] ws IH]; intros [|b rest] H; cbn [pieces concat];
    try reflexivity; cbn [bytes_taken length] in H; try lia.
  rewrite IH; [apply firstn_skipn|].
  pose proof (bytes_taken_nonneg ws).
  rewrite length_skipn. cbn [length]. lia.
Qed.

Lemma write_out_offers ws msg :
  forall total_written,
  0 <= total_written <= Z.of_nat (length msg) ->
  Z.of_nat (length msg) - total_written <= bytes_taken ws ->
  write_out ws msg total_written
  = (offers (pieces ws (skipn (Z.to_nat total_written) msg)), Ret tt).
Proof.
  induction ws as [|[|n] ws IH]; intros tw Htw Hb; cbn [write_out bytes_taken] in *;
    destruct (Z.ltb_spec tw (Z.of_nat (length msg))) as [Hlt|Hge]; try lia;
    try (rewrite skipn_all2 by lia; destruct ws; reflexivity);
    try (rewrite skipn_all2 by lia; reflexivity).
  pose proof (bytes_taken_nonneg ws) as Hnn.
  cbn [write_ret].
  destruct (Z.eqb_spec (Z.min (Z.of_nat n) (Z.of_nat (length msg) - tw)) (-1));
    [lia|].
  assert (Hrest : Z.of_nat (length (skipn (Z.to_nat tw) msg))
                  = Z.of_nat (length msg) - tw)
    by (rewrite length_skipn; lia).
  assert (Hnext : skipn (Z.to_nat (tw + Z.min (Z.of_nat n)
                                          (Z.of_nat (length msg) - tw))) msg
                  = skipn n (skipn (Z.to_nat tw) msg)).
  { rewrite skipn_skipn.
    destruct (Z.le_gt_cases (Z.of_nat n) (Z.of_nat (length msg) - tw)).
    - f_equal. lia.
    - rewrite !skipn_all2 by lia. reflexivity. }
  apply proc_eq.
  - rewrite trace_emit, IH by lia. cbn [trace fst]. rewrite Hnext.
    destruct (skipn (Z.to_nat tw) msg) as [|b rest] eqn:E;
      [cbn [length] in Hrest; lia|].
    cbn [pieces offers]. rewrite pieces_cover, firstn_skipn; [reflexivity|].
    rewrite length_skipn. lia.
  - rewrite outcome_emit, IH by lia. reflexivity.
Qed.

(** X3. Short writes are retried from where the last one stopped: when
    the answers of [write] take, all together and before any error, at
    least what is left of the message, each call of the writing loop is
    offered exactly the bytes that the calls before it did not take (a
    call that takes nothing is repeated as it is), the parts taken make
    up what was left of the message, and the loop returns after the call
    that takes the last byte. *)
Theorem write_out_retries_short_writes (ws : list write_result)
    (msg : list byte) (total_written : Z) :
  0 <= total_written <= Z.of_nat (length msg) ->
  Z.of_nat (length msg) - total_written <= bytes_taken ws ->
  let rest := skipn (Z.to_nat total_written) msg in
  write_out ws msg total_written = (offers (pieces ws rest), Ret tt) /\
  concat (pieces ws rest) = rest.
Proof.
  intros Htw Hb rest. split; [apply write_out_offers; assumption|].
  apply pieces_cover. subst rest. rewrite length_skipn. lia.
Qed.

(** A message of 5 bytes taken as 2 bytes, nothing, then the rest. *)
Lemma write_out_retries_short_writes_witness :
  let msg := [x61; x62; x63; x64; x65] in
  let ws := [WrBytes 2; WrBytes 0; WrBytes 100] in
  0 <= 0 <= Z.of_nat (length msg) /\
  Z.of_nat (length msg) - 0 <= bytes_taken ws /\
  write_out ws msg 0
  = ([EvWrite FdOutput [x61; x62; x63; x64; x65];
      EvWrite FdOutput [x63; x64; x65];
      EvWrite FdOutput [x63; x64; x65]], Ret tt).
Proof.
  intros msg ws.
  assert (H1 : 0 <= 0 <= Z.of_nat (length msg)) by (simpl; lia).
  assert (H2 : Z.of_nat (length msg) - 0 <= bytes_taken ws)
    by (vm_compute; discriminate).
  split; [exact H1|]. split; [exact H2|].
  rewrite (proj1 (write_out_retries_short_writes ws msg 0 H1 H2)).
  reflexivity.
Defined.

(** ** The worker count *)

Lemma wrap32_range z : - 2 ^ 31 <= wrap32 z <= INT_MAX.
Proof.
  unfold wrap32, swrap, INT_MAX. change (32 - 1) with 31.
  assert (E : 2 ^ 32 = 2 * 2 ^ 31) by reflexivity.
  pose proof (Z.mod_pos_bound (z + 2 ^ 31) (2 ^ 32) ltac:(lia)). lia.
Qed.

Lemma determine_P_range env_p P :
  outcome (determine_P env_p) = Ret P -> 1 <= P <= INT_MAX.
Proof.
  destruct env_p as [s|].
  - destruct (Z.leb_spec (atoi s) 0) as [Hle|Hgt].
    + rewrite determine_P_invalid by assumption. discriminate.
    + rewrite determine_P_valid by assumption. intros H. injection H as <-.
      pose proof (wrap32_range (strtol10 s)). unfold atoi in *. lia.
  - intros H. injection H as <-. unfold INT_MAX. lia.
Qed.

(** X4. Whatever the environment holds, a worker count the program goes
    on with lies between 1 and [INT_MAX]: the divisions by [P] of the
    partition never divide by 0. *)
Theorem determine_P_positive (env_p : option (list byte)) (P : Z) :
  outcome (determine_P env_p) = Ret P -> 1 <= P <= INT_MAX.
Proof. apply determine_P_range. Qed.

(** The value ["12"]. *)
Lemma determine_P_positive_witness :
  outcome (determine_P (Some [x31; x32])) = Ret 12 /\ 1 <= 12 <= INT_MAX.
Proof.
  assert (H : outcome (determine_P (Some [x31; x32])) = Ret 12) by reflexivity.
  split; [exact H|]. exact (determine_P_positive _ 12 H).
Defined.

(** ** The count in memory *)

(** X5. The 8 bytes of a [long long] and its value determine each other:
    decoding the bytes of a value gives the value back, and encoding the
    value of 8 bytes gives the bytes back. *)
Theorem count_bytes_round_trip (n : Z) (mem : list byte) :
  - 2 ^ 63 <= n <= OFF_MAX ->
  length mem = 8%nat ->
  decode_count (encode_count n) = n /\
  length (encode_count n) = 8%nat /\
  encode_count (decode_count mem) = mem /\
  - 2 ^ 63 <= decode_count mem <= OFF_MAX.
Proof.
  intros Hn Hmem.
  split; [apply decode_encode_count; exact Hn|].
  split; [apply length_encode_count|]. split.
  - unfold encode_count, decode_count.
    rewrite le_split_mod. change (Z.of_nat 8 * 8) with 64.
    assert (E : wrap64 (le_combine mem) mod 2 ^ 64 = le_combine mem mod 2 ^ 64).
    { unfold wrap64, swrap. change (64 - 1) with 63.
      rewrite Zminus_mod_idemp_l.
      replace (le_combine mem + 2 ^ 63 - 2 ^ 63) with (le_combine mem) by lia.
      reflexivity. }
    rewrite E, <- le_split_mod. apply split_le_combine'. exact Hmem.
  - unfold decode_count, wrap64, swrap, OFF_MAX. change (64 - 1) with 63.
    assert (E : 2 ^ 64 = 2 * 2 ^ 63) by reflexivity.
    pose proof (Z.mod_pos_bound (le_combine mem + 2 ^ 63) (2 ^ 64) ltac:(lia)).
    lia.
Qed.

(** The value -2 and the bytes of 2^56 + 1. *)
Lemma count_bytes_round_trip_witness :
  - 2 ^ 63 <= -2 <= OFF_MAX /\
  length [x01; x00; x00; x00; x00; x00; x00; x01] = 8%nat /\
  decode_count (encode_count (-2)) = -2 /\
  encode_count (decode_count [x01; x00; x00; x00; x00; x00; x00; x01])
  = [x01; x00; x00; x00; x00; x00; x00; x01].
Proof.
  assert (Hn : - 2 ^ 63 <= -2 <= OFF_MAX) by (unfold OFF_MAX; lia).
  pose proof (count_bytes_round_trip (-2)
                [x01; x00; x00; x00; x00; x00; x00; x01] Hn eq_refl)
    as (H1 & _ & H2 & _).
  split; [exact Hn|]. split; [reflexivity|]. split; [exact H1|exact H2].
Defined.

(** ** Receiving on one channel *)

Lemma select_loop_interrupted i (k : nat) r rest :
  r <> SelEINTR ->
  select_loop i (repeat SelEINTR k ++ r :: rest)
  = (repeat (EvSelect i 5) k ++ trace (select_loop i [r]),
     outcome (select_loop i [r])).
Proof.
  intros Hr. induction k as [|k IH]; cbn [repeat app].
  - destruct r; try contradiction; reflexivity.
  - cbn [select_loop]. apply proc_eq.
    + rewrite trace_emit, IH. reflexivity.
    + rewrite outcome_emit, IH. reflexivity.
Qed.

(** X6. A [select] that a signal interrupts is called again, each time
    with the full timeout of 5 seconds: after [k] interruptions the loop
    has called [select] [k + 1] times, and its result is that of the
    first call that was not interrupted: readable, timed out, or an
    error that ends the process with [EXIT_FAILURE]. *)
Theorem select_retried_with_full_timeout (i : Z) (k : nat)
    (r : select_result) (rest : list select_result) :
  r <> SelEINTR ->
  let m := select_loop i (repeat SelEINTR k ++ r :: rest) in
  filter (fun e => match e with EvSelect _ _ => true | _ => false end) (trace m)
  = repeat (EvSelect i 5) (S k) /\
  outcome m = match r with
              | SelReady => Ret true
              | SelTimeout => Ret false
              | _ => Exit EXIT_FAILURE
              end.
Proof.
  intros Hr m. subst m. rewrite select_loop_interrupted by exact Hr.
  cbn [trace outcome fst snd]. split.
  - rewrite filter_app.
    assert (E : forall n, filter (fun e => match e with
                                   | EvSelect _ _ => true | _ => false end)
                    (repeat (EvSelect i 5) n) = repeat (EvSelect i 5) n).
    { induction n as [|n IHn]; [reflexivity|]. cbn. rewrite IHn. reflexivity. }
    rewrite E. destruct r; try contradiction; cbn;
      rewrite <- repeat_cons; reflexivity.
  - destruct r; try contradiction; reflexivity.
Qed.

(** Two interruptions, then the descriptor is readable. *)
Lemma select_retried_with_full_timeout_witness :
  SelReady <> SelEINTR /\
  outcome (select_loop 1 (repeat SelEINTR 2 ++ SelReady :: [])) = Ret true.
Proof.
  assert (H : SelReady <> SelEINTR) by discriminate.
  split; [exact H|].
  exact (proj2 (select_retried_with_full_timeout 1 2 SelReady [] H)).
Defined.

Lemma skipn_repeat {A} (a : A) (n m : nat) :
  skipn n (repeat a m) = repeat a (m - n).
Proof.
  revert m. induction n as [|n IH]; intros [|m]; cbn; trivial.
Qed.

Lemma skipn_store mem off chunk (k : nat) :
  0 <= off -> off + Z.of_nat (length chunk) <= Z.of_nat (length mem) ->
  skipn (Z.to_nat (off + Z.of_nat (length chunk)) + k) (store mem off chunk)
  = skipn (Z.to_nat (off + Z.of_nat (length chunk)) + k) mem.
Proof.
  intros Ho Hl. unfold store. rewrite app_assoc.
  rewrite skipn_app.
  assert (E : length (firstn (Z.to_nat off) mem ++ chunk)
              = Z.to_nat (off + Z.of_nat (length chunk)))
    by (rewrite length_app, length_firstn; lia).
  rewrite E.
  rewrite skipn_all2 by lia. cbn [app].
  replace (Z.to_nat (off + Z.of_nat (length chunk)) + k
           - Z.to_nat (off + Z.of_nat (length chunk)))%nat with k by lia.
  rewrite skipn_skipn. f_equal. lia.
Qed.

(** What [child_count] holds when the channel is closed after the bytes
    [got]: these bytes, then what was there before. *)
Lemma read_loop_closes_mem i rs got :
  closes_after rs got ->
  forall mem read_bytes,
  length mem = 8%nat -> 0 <= read_bytes ->
  read_bytes + Z.of_nat (length got) < COUNT_SIZE ->
  outcome (read_loop i rs mem read_bytes)
  = Ret (firstn (Z.to_nat read_bytes) mem ++ got
         ++ skipn (Z.to_nat (read_bytes + Z.of_nat (length got))) mem).
Proof.
  unfold COUNT_SIZE.
  induction 1 as [rs|rs got Hc IH|bs rs got Hbs Hc IH];
    intros mem rb Hmem Hrb Hlen.
  - cbn [read_loop length app]. unfold COUNT_SIZE.
    destruct (Z.ltb_spec rb 8); [|simpl in Hlen; lia].
    rewrite outcome_emit. cbn [outcome ret snd].
    rewrite Z.add_0_r, firstn_skipn. reflexivity.
  - cbn [read_loop]. unfold COUNT_SIZE.
    destruct (Z.ltb_spec rb 8); [|lia].
    rewrite outcome_emit. apply IH; assumption.
  - rewrite length_app in Hlen.
    assert (Hbl : (0 < length bs)%nat) by (destruct bs; [contradiction|simpl; lia]).
    cbn [read_loop]. unfold COUNT_SIZE.
    destruct (Z.ltb_spec rb 8); [|lia].
    rewrite outcome_emit.
    rewrite (firstn_all2 (n := Z.to_nat (8 - rb)) bs) by lia.
    destruct (Z.eqb_spec (Z.of_nat (length bs)) 0); [lia|].
    rewrite IH; [|rewrite length_store; lia|lia|lia].
    rewrite firstn_store by lia.
    replace (Z.to_nat (rb + Z.of_nat (length bs) + Z.of_nat (length got)))
      with (Z.to_nat (rb + Z.of_nat (length bs)) + length got)%nat by lia.
    rewrite skipn_store by lia.
    replace (Z.to_nat (rb + Z.of_nat (length (bs ++ got))))
      with (Z.to_nat (rb + Z.of_nat (length bs)) + length got)%nat
      by (rewrite length_app; lia).
    rewrite <- !app_assoc. reflexivity.
Qed.

(** X7. When a channel is closed after only some of the 8 bytes of a
    count have arrived, the parent adds the number these first bytes make
    (the missing high bytes count as 0) to the total and goes on: a part
    of a count is taken for a count. *)
Theorem partial_count_is_added (i : Z) (sels : list select_result)
    (rs : list read_result) (got : list byte) (total : Z) :
  select_outcome sels = Some SelReady ->
  closes_after rs got ->
  Z.of_nat (length got) < COUNT_SIZE ->
  0 <= total ->
  total + le_combine got <= OFF_MAX ->
  outcome (read_loop i rs (encode_count 0) 0)
  = Ret (got ++ repeat x00 (8 - length got)) /\
  outcome (collect_one i sels rs total) = Ret (total + le_combine got).
Proof.
  intros Hsel Hc Hlen Ht Hsum.
  destruct (select_loop_ready i sels Hsel) as [k Hk].
  pose proof (read_loop_closes_mem i rs got Hc (encode_count 0) 0
                (length_encode_count 0) ltac:(lia) ltac:(lia)) as Hm.
  cbn [firstn Z.to_nat app] in Hm.
  change (encode_count 0) with (repeat x00 8) in Hm at 2.
  rewrite Z.add_0_l, Nat2Z.id, skipn_repeat in Hm.
  split; [exact Hm|].
  unfold collect_one.
  rewrite (outcome_bind_ret _ _ true) by (rewrite Hk; reflexivity).
  erewrite outcome_bind_ret;
    [|erewrite outcome_bind_ret; [|exact Hm]; reflexivity].
  rewrite outcome_emit. cbn [outcome ret snd].
  unfold decode_count. rewrite le_combine_app_0.
  pose proof (le_combine_bound got) as Hb.
  assert (2 ^ (8 * Z.of_nat (length got)) <= 2 ^ 56)
    by (apply Z.pow_le_mono_r; unfold COUNT_SIZE in *; lia).
  rewrite (wrap64_small (le_combine got)) by (unfold OFF_MAX; lia).
  rewrite wrap64_small by (unfold OFF_MAX in *; lia).
  reflexivity.
Qed.

(** Pipe 0 of [world_closed_partway]: one byte of value 5, then closed. *)
Lemma partial_count_is_added_witness :
  select_outcome [SelReady] = Some SelReady /\
  closes_after [RdData [x05]; RdEOF] [x05] /\
  Z.of_nat (length [x05]) < COUNT_SIZE /\
  0 <= 0 /\ 0 + le_combine [x05] <= OFF_MAX /\
  outcome (collect_one 0 [SelReady] [RdData [x05]; RdEOF] 0)
  = Ret (0 + le_combine [x05]).
Proof.
  assert (Hc : closes_after [RdData [x05]; RdEOF] [x05])
    by (apply (closes_data [x05] [RdEOF] []); [discriminate|apply closes_eof]).
  assert (Hl : Z.of_nat (length [x05]) < COUNT_SIZE) by reflexivity.
  assert (Hs : 0 + le_combine [x05] <= OFF_MAX) by (vm_compute; discriminate).
  split; [reflexivity|]. split; [exact Hc|]. split; [exact Hl|].
  split; [lia|]. split; [exact Hs|].
  exact (proj2 (partial_count_is_added 0 [SelReady] _ [x05] 0 eq_refl Hc Hl
                  ltac:(lia) Hs)).
Defined.

(** X8. Whatever [read] answers, the read loop stays inside the 8 bytes
    of [child_count]: each call asks for between 1 and 8 bytes, never
    for more than is still missing at the start of the loop, and what
    the loop returns is again 8 bytes long. *)
Theorem read_loop_stays_in_child_count (i : Z) (rs : list read_result)
    (mem : list byte) (read_bytes : Z) :
  length mem = 8%nat ->
  0 <= read_bytes ->
  Forall (fun e => match e with
                   | EvRead _ n => 1 <= n <= COUNT_SIZE - read_bytes
                   | _ => True
                   end) (trace (read_loop i rs mem read_bytes)) /\
  (forall mem', outcome (read_loop i rs mem read_bytes) = Ret mem' ->
                length mem' = 8%nat).
Proof.
  unfold COUNT_SIZE. revert mem read_bytes.
  induction rs as [|[| | |bs] rs IH]; intros mem rb Hmem Hrb;
    cbn [read_loop]; unfold COUNT_SIZE;
    (destruct (Z.ltb_spec rb 8) as [Hlt|Hge];
     [|split; [constructor|intros mem' H; injection H as <-; exact Hmem]]).
  - split; [repeat constructor; lia|discriminate].
  - rewrite trace_emit, outcome_emit.
    destruct (IH mem rb Hmem Hrb) as [IH1 IH2].
    split; [constructor; [lia|exact IH1]|exact IH2].
  - split; [repeat constructor; lia|discriminate].
  - split; [repeat constructor; lia|].
    intros mem' H. injection H as <-. exact Hmem.
  - rewrite trace_emit, outcome_emit.
    set (chunk := firstn (Z.to_nat (8 - rb)) bs).
    assert (Hc : Z.of_nat (length chunk) <= 8 - rb)
      by (subst chunk; rewrite length_firstn; lia).
    destruct (Z.eqb_spec (Z.of_nat (length chunk)) 0) as [E|E].
    + split; [repeat constructor; lia|].
      intros mem' H. injection H as <-. exact Hmem.
    + destruct (IH (store mem rb chunk) (rb + Z.of_nat (length chunk)))
        as [IH1 IH2]; [rewrite length_store; lia|lia|].
      split; [|exact IH2].
      constructor; [lia|].
      eapply Forall_impl; [|exact IH1].
      intros [] He; try exact I. lia.
Qed.

(** A [read] that offers 12 bytes when 8 are asked for. *)
Lemma read_loop_stays_in_child_count_witness :
  let rs := [RdData [x01; x02; x03; x04; x05; x06; x07; x08; x09; x0a; x0b; x0c]] in
  length (encode_count 0) = 8%nat /\ 0 <= 0 /\
  outcome (read_loop 0 rs (encode_count 0) 0)
  = Ret [x01; x02; x03; x04; x05; x06; x07; x08] /\
  length [x01; x02; x03; x04; x05; x06; x07; x08] = 8%nat.
Proof.
  intros rs. split; [reflexivity|]. split; [lia|].
  assert (H : outcome (read_loop 0 rs (encode_count 0) 0)
              = Ret [x01; x02; x03; x04; x05; x06; x07; x08]) by reflexivity.
  split; [exact H|].
  exact (proj2 (read_loop_stays_in_child_count 0 rs (encode_count 0) 0
                  eq_refl ltac:(lia)) _ H).
Defined.

(** ** Collecting: fatal errors *)

Lemma read_loop_interrupted_error i (k : nat) rest mem read_bytes :
  read_bytes < COUNT_SIZE ->
  read_loop i (repeat RdEINTR k ++ RdError :: rest) mem read_bytes
  = (repeat (EvRead (FdPipeRead i) (COUNT_SIZE - read_bytes)) (S k)
     ++ [EvPerror "Error reading from pipe in parent"],
     Exit EXIT_FAILURE).
Proof.
  intros Hrb. induction k as [|k IH]; cbn [repeat app read_loop];
    destruct (Z.ltb_spec read_bytes COUNT_SIZE); try lia.
  - reflexivity.
  - apply proc_eq.
    + rewrite trace_emit, IH. reflexivity.
    + rewrite outcome_emit, IH. reflexivity.
Qed.

(** X9. An error of [select] or of [read] other than an interruption is
    fatal, unlike a timeout or an end of file: the parent reports it and
    returns [EXIT_FAILURE] at once, without closing the pipe, without
    looking at the channels that follow and without waiting for its
    children. *)
Theorem channel_error_is_fatal (n k : nat) (i : Z)
    (sels : Z -> list select_result) (rs : Z -> list read_result)
    (rest_s : list select_result) (rest_r : list read_result) (total : Z) :
  (sels i = repeat SelEINTR k ++ SelError :: rest_s ->
   collect (S n) i sels rs total
   = (repeat (EvSelect i 5) (S k) ++ [EvPerror "select error on pipe"],
      Exit EXIT_FAILURE)) /\
  (select_outcome (sels i) = Some SelReady ->
   rs i = repeat RdEINTR k ++ RdError :: rest_r ->
   outcome (collect (S n) i sels rs total) = Exit EXIT_FAILURE /\
   exists tr,
     trace (collect (S n) i sels rs total)
     = tr ++ repeat (EvRead (FdPipeRead i) COUNT_SIZE) (S k)
          ++ [EvPerror "Error reading from pipe in parent"] /\
     Forall (fun e => e = EvSelect i 5) tr).
Proof.
  split.
  - intros Hs. cbn [collect]. unfold collect_one. rewrite Hs.
    rewrite select_loop_interrupted by discriminate.
    cbn [select_loop]. unfold bind, emit, exit_with. cbn [trace outcome fst snd app].
    change (repeat (EvSelect i 5) (S k)) with (EvSelect i 5 :: repeat (EvSelect i 5) k).
    rewrite repeat_cons, <- app_assoc. reflexivity.
  - intros Hsel Hr.
    destruct (select_loop_ready i (sels i) Hsel) as [j Hj].
    pose proof (read_loop_interrupted_error i k rest_r (encode_count 0) 0
                  ltac:(reflexivity)) as Hrd.
    rewrite Z.sub_0_r in Hrd.
    cbn [collect]. unfold collect_one. rewrite Hr, Hj, Hrd.
    unfold bind. cbn [trace outcome fst snd app].
    split; [reflexivity|].
    exists (repeat (EvSelect i 5) (S j)).
    split; [reflexivity|]. apply Forall_forall. intros e He.
    apply repeat_spec in He. exact He.
Qed.

(** A [select] error on the first of two channels. *)
Lemma channel_error_is_fatal_witness :
  let sels := fun i : Z => if i =? 0 then [SelEINTR; SelError] else [SelReady] in
  sels 0 = repeat SelEINTR 1 ++ SelError :: [] /\
  outcome (collect 2 0 sels (fun _ => []) 0) = Exit EXIT_FAILURE.
Proof.
  intros sels. split; [reflexivity|].
  rewrite (proj1 (channel_error_is_fatal 1 1 0 sels (fun _ => []) [] [] 0) eq_refl).
  reflexivity.
Defined.

(** ** Spawning *)

Lemma spawn_parent w buf c file_size P (n : nat) :
  forall i pids,
  (forall j, i <= j < i + Z.of_nat n ->
     pipe_ok w j = true /\ fork_ret w j <> -1 /\ fork_ret w j <> 0) ->
  spawn w buf c file_size P n i pids
  = (concat (map spawn_events (indices n i)),
     Ret (pids ++ map (fork_ret w) (indices n i))).
Proof.
  induction n as [|n IH]; intros i pids H; cbn [spawn indices map concat].
  - rewrite app_nil_r. reflexivity.
  - destruct (H i ltac:(lia)) as (Hp & Hf1 & Hf0).
    rewrite Hp. cbn [negb].
    destruct (Z.eqb_spec (fork_ret w i) (-1)); [contradiction|].
    destruct (Z.eqb_spec (fork_ret w i) 0); [contradiction|].
    apply proc_eq.
    + rewrite !trace_emit, IH by (intros j Hj; apply H; lia). reflexivity.
    + rewrite !outcome_emit, IH by (intros j Hj; apply H; lia).
      cbn [outcome snd]. rewrite <- app_assoc. reflexivity.
Qed.

Lemma spawn_after_parent w buf c file_size P (k m : nat) :
  forall i pids,
  (forall j, i <= j < i + Z.of_nat k ->
     pipe_ok w j = true /\ fork_ret w j <> -1 /\ fork_ret w j <> 0) ->
  spawn w buf c file_size P (k + m) i pids
  = (concat (map spawn_events (indices k i))
     ++ trace (spawn w buf c file_size P m (i + Z.of_nat k)
                 (pids ++ map (fork_ret w) (indices k i))),
     outcome (spawn w buf c file_size P m (i + Z.of_nat k)
                (pids ++ map (fork_ret w) (indices k i)))).
Proof.
  induction k as [|k IH]; intros i pids H.
  - cbn [Nat.add indices map concat app]. change (Z.of_nat 0) with 0.
    rewrite Z.add_0_r, app_nil_r.
    destruct (spawn w buf c file_size P m i pids). reflexivity.
  - cbn [Nat.add spawn indices map concat].
    destruct (H i ltac:(lia)) as (Hp & Hf1 & Hf0).
    rewrite Hp. cbn [negb].
    destruct (Z.eqb_spec (fork_ret w i) (-1)); [contradiction|].
    destruct (Z.eqb_spec (fork_ret w i) 0); [contradiction|].
    replace (i + Z.of_nat (S k)) with (i + 1 + Z.of_nat k) by lia.
    apply proc_eq.
    + rewrite !trace_emit, IH by (intros j Hj; apply H; lia).
      cbn [trace fst spawn_events app]. rewrite <- app_assoc. reflexivity.
    + rewrite !outcome_emit, IH by (intros j Hj; apply H; lia).
      cbn [outcome snd]. rewrite <- app_assoc. reflexivity.
Qed.

(** X10. In the parent, when every [pipe] and every [fork] succeeds, the
    fork loop creates one pipe and one child per index 0, ..., P-1, in
    order, closes the write end of each pipe right after the fork, and
    records the pids in the order of the indices. *)
Theorem spawn_creates_P_workers (w : World) (buf : list byte) (c : byte)
    (file_size P : Z) :
  (forall j, 0 <= j < P ->
     pipe_ok w j = true /\ fork_ret w j <> -1 /\ fork_ret w j <> 0) ->
  let m := spawn w buf c file_size P (Z.to_nat P) 0 [] in
  outcome m = Ret (map (fork_ret w) (indices (Z.to_nat P) 0)) /\
  trace m = concat (map spawn_events (indices (Z.to_nat P) 0)) /\
  length (filter is_fork (trace m)) = Z.to_nat P.
Proof.
  intros H m. subst m.
  rewrite spawn_parent by (intros j Hj; apply H; lia).
  cbn [outcome trace fst snd app]. split; [reflexivity|]. split; [reflexivity|].
  generalize 0 at 1. induction (Z.to_nat P) as [|n IH]; intros i; [reflexivity|].
  cbn [indices map concat spawn_events app filter is_fork length].
  rewrite IH. reflexivity.
Qed.

(** Three workers. *)
Lemma spawn_creates_P_workers_witness :
  (forall j, 0 <= j < 3 ->
     pipe_ok world_3abc j = true /\ fork_ret world_3abc j <> -1
     /\ fork_ret world_3abc j <> 0) /\
  outcome (spawn world_3abc [] x61 0 3 (Z.to_nat 3) 0 []) = Ret [1000; 1001; 1002].
Proof.
  assert (H : forall j, 0 <= j < 3 ->
            pipe_ok world_3abc j = true /\ fork_ret world_3abc j <> -1
            /\ fork_ret world_3abc j <> 0).
  { intros j Hj. unfold world_3abc, sample_world. cbn [pipe_ok fork_ret].
    split; [reflexivity|]. split; lia. }
  split; [exact H|].
  exact (proj1 (spawn_creates_P_workers world_3abc [] x61 0 3 H)).
Defined.

(** X11. When creating the pipe or the child of index [k] fails after
    [k] children were created, the parent reports the error and returns
    [EXIT_FAILURE] at once: the [k] children already created are not
    waited for and their pipes are never read. *)
Theorem spawn_failure_leaves_children (w : World) (buf : list byte) (c : byte)
    (file_size P : Z) (k m : nat) :
  (forall j, 0 <= j < Z.of_nat k ->
     pipe_ok w j = true /\ fork_ret w j <> -1 /\ fork_ret w j <> 0) ->
  pipe_ok w (Z.of_nat k) = false \/ fork_ret w (Z.of_nat k) = -1 ->
  let r := spawn w buf c file_size P (k + S m) 0 [] in
  outcome r = Exit EXIT_FAILURE /\
  trace r
  = concat (map spawn_events (indices k 0))
    ++ (if pipe_ok w (Z.of_nat k)
        then [EvPipe (Z.of_nat k); EvFork (Z.of_nat k); EvPerror "fork error"]
        else [EvPipe (Z.of_nat k); EvPerror "pipe error"]) /\
  length (filter is_fork (concat (map spawn_events (indices k 0)))) = k /\
  filter is_waitpid (trace r) = [] /\
  filter (fun e => match e with EvRead _ _ => true | _ => false end) (trace r) = [].
Proof.
  intros H Hfail r. subst r.
  rewrite spawn_after_parent by (intros j Hj; apply H; lia).
  cbn [outcome trace fst snd app spawn]. rewrite Z.add_0_l.
  assert (Hnone : forall (q : event -> bool) (n : nat) i,
            (forall j, q (EvPipe j) = false /\ q (EvFork j) = false
                       /\ q (EvClose (FdPipeWrite j)) = false) ->
            filter q (concat (map spawn_events (indices n i))) = []).
  { intros q n. induction n as [|n IHn]; intros i Hqe; [reflexivity|].
    cbn [indices map concat spawn_events app filter].
    destruct (Hqe i) as (-> & -> & ->). apply IHn. exact Hqe. }
  assert (Hforks : forall (n : nat) i,
            length (filter is_fork (concat (map spawn_events (indices n i)))) = n).
  { induction n as [|n IHn]; intros i; [reflexivity|].
    cbn [indices map concat spawn_events app filter is_fork length].
    rewrite IHn. reflexivity. }
  destruct (pipe_ok w (Z.of_nat k)) eqn:Ep; cbn [negb].
  - destruct Hfail as [Hf|Hf]; [discriminate|]. rewrite Hf. cbn [Z.eqb].
    unfold bind, emit, exit_with. cbn [fst snd app].
    split; [reflexivity|]. split; [reflexivity|]. split; [apply Hforks|].
    rewrite !filter_app, !Hnone by (intros j; repeat split; reflexivity).
    split; reflexivity.
  - unfold bind, emit, exit_with. cbn [fst snd app].
    split; [reflexivity|]. split; [reflexivity|]. split; [apply Hforks|].
    rewrite !filter_app, !Hnone by (intros j; repeat split; reflexivity).
    split; reflexivity.
Qed.

(** The second [fork] of a run with two workers fails. *)
Lemma spawn_failure_leaves_children_witness :
  let w := sample_world (Some [x32]) (fun i => if i =? 1 then -1 else 1000 + i)
             (WrBytes 8) (fun _ => []) (fun _ => []) in
  (forall j, 0 <= j < Z.of_nat 1 ->
     pipe_ok w j = true /\ fork_ret w j <> -1 /\ fork_ret w j <> 0) /\
  (pipe_ok w (Z.of_nat 1) = false \/ fork_ret w (Z.of_nat 1) = -1) /\
  outcome (spawn w [] x61 0 2 (1 + 1) 0 []) = Exit EXIT_FAILURE.
Proof.
  intros w.
  assert (H : forall j, 0 <= j < Z.of_nat 1 ->
            pipe_ok w j = true /\ fork_ret w j <> -1 /\ fork_ret w j <> 0).
  { intros j Hj. assert (j = 0) as -> by lia.
    split; [reflexivity|]. split; discriminate. }
  assert (Hf : pipe_ok w (Z.of_nat 1) = false \/ fork_ret w (Z.of_nat 1) = -1)
    by (right; reflexivity).
  split; [exact H|]. split; [exact Hf|].
  exact (proj1 (spawn_failure_leaves_children w [] x61 0 2 1 0 H Hf)).
Defined.

(** ** The worker *)



(** ** More workers than bytes *)

(** X13. When there are more workers than bytes, the first [file_size]
    workers get one byte each and the others an empty segment at the end
    of the file.  Such a worker reports the count 0 without reading the
    buffer: its count is 0 whatever the buffer is, also for a buffer
    with no byte in it, where any read would be outside. *)
Theorem surplus_workers_report_zero (buf : list byte) (c : byte) (P i : Z) :
  let file_size := Z.of_nat (length buf) in
  file_size < P ->
  P <= INT_MAX ->
  0 <= i < P ->
  segment_size file_size P i = (if i <? file_size then 1 else 0) /\
  seg_start file_size P i = Z.min i file_size /\
  (file_size <= i ->
   forall buf', child_count buf' c file_size P i = Some 0).
Proof.
  intros file_size Hlt HP Hi.
  assert (Hsize : 0 <= file_size <= OFF_MAX)
    by (subst file_size; unfold OFF_MAX, INT_MAX in *; lia).
  assert (HP' : 1 <= P <= INT_MAX) by lia.
  assert (Hb : file_size / P = 0) by (apply Z.div_small; lia).
  assert (Hr : file_size mod P = file_size) by (apply Z.mod_small; lia).
  assert (Hlen : segment_size file_size P i = if i <? file_size then 1 else 0).
  { rewrite (segment_size_eq file_size P Hsize HP' i) by lia.
    rewrite Hb, Hr. reflexivity. }
  assert (Hst : forall j, 0 <= j <= P -> seg_start file_size P j = Z.min j file_size).
  { intros j Hj. rewrite (seg_start_eq file_size P Hsize HP' j Hj), Hb, Hr. lia. }
  split; [exact Hlen|]. split; [apply Hst; lia|].
  intros Hge buf'. unfold child_count.
  rewrite (seg_end_eq file_size P Hsize HP' i Hi).
  rewrite !Hst by lia. rewrite !Z.min_r by lia.
  rewrite Z.sub_diag. cbn [Z.to_nat scan_loop].
  rewrite Z.ltb_irrefl. reflexivity.
Qed.

(** Three bytes and five workers; the fifth worker, with the buffer and
    with no buffer at all. *)
Lemma surplus_workers_report_zero_witness :
  let buf := [x61; x62; x61] in
  Z.of_nat (length buf) < 5 /\ 5 <= INT_MAX /\ 0 <= 4 < 5 /\
  segment_size (Z.of_nat (length buf)) 5 4 = 0 /\
  child_count buf x61 (Z.of_nat (length buf)) 5 4 = Some 0 /\
  child_count [] x61 (Z.of_nat (length buf)) 5 4 = Some 0.
Proof.
  intros buf.
  assert (H1 : Z.of_nat (length buf) < 5) by reflexivity.
  assert (H2 : 5 <= INT_MAX) by (unfold INT_MAX; lia).
  assert (H3 : 0 <= 4 < 5) by lia.
  pose proof (surplus_workers_report_zero buf x61 5 4 H1 H2 H3) as (Hl & _ & Hc).
  assert (H4 : Z.of_nat (length buf) <= 4) by (vm_compute; discriminate).
  split; [exact H1|]. split; [exact H2|]. split; [exact H3|].
  split; [exact Hl|]. split; [exact (Hc H4 buf)|exact (Hc H4 [])].
Defined.

(** ** No read outside the buffer *)

Lemma safe_bind {A B} (m : proc A) (k : A -> proc B) :
  outcome m <> Fault ->
  (forall a, outcome m = Ret a -> outcome (k a) <> Fault) ->
  outcome (bind m k) <> Fault.
Proof.
  intros Hm Hk. destruct (outcome m) as [a| | |] eqn:E.
  - rewrite (outcome_bind_ret m k a E). apply Hk. reflexivity.
  - rewrite (outcome_bind_exit m k code E). discriminate.
  - destruct m as [t r]. cbn [outcome snd] in E. subst r. discriminate.
  - contradiction.
Qed.

Lemma safe_emit {B} e (k : unit -> proc B) :
  outcome (k tt) <> Fault -> outcome (bind (emit e) k) <> Fault.
Proof. rewrite outcome_emit. trivial. Qed.

Ltac safe_step :=
  first [ apply safe_emit | discriminate ].

Ltac safe := repeat safe_step.

Lemma select_loop_safe i sels : outcome (select_loop i sels) <> Fault.
Proof. induction sels as [|[] sels IH]; cbn [select_loop]; safe. exact IH. Qed.

Lemma read_loop_safe i rs :
  forall mem read_bytes, outcome (read_loop i rs mem read_bytes) <> Fault.
Proof.
  induction rs as [|[| | |bs] rs IH]; intros mem rb; cbn [read_loop];
    destruct (_ <? _); safe.
  - apply IH.
  - destruct (_ =? _); safe. apply IH.
Qed.

Lemma collect_one_safe i sels rs total :
  outcome (collect_one i sels rs total) <> Fault.
Proof.
  unfold collect_one. apply safe_bind; [apply select_loop_safe|].
  intros ready _. apply safe_bind.
  - destruct ready; safe.
    apply safe_bind; [apply read_loop_safe|]. intros; discriminate.
  - intros; safe.
Qed.

Lemma collect_safe (n : nat) sels rs :
  forall i total, outcome (collect n i sels rs total) <> Fault.
Proof.
  induction n as [|n IH]; intros i total; cbn [collect]; safe.
  apply safe_bind; [apply collect_one_safe|]. intros; apply IH.
Qed.

Lemma reap_run pids : reap pids = (map EvWaitpid pids, Ret tt).
Proof.
  induction pids as [|pid pids IH]; [reflexivity|]. cbn [reap map].
  apply proc_eq.
  - rewrite trace_emit, IH. reflexivity.
  - rewrite outcome_emit, IH. reflexivity.
Qed.

Lemma write_out_safe ws msg :
  forall total_written, outcome (write_out ws msg total_written) <> Fault.
Proof.
  induction ws as [|r ws IH]; intros tw; cbn [write_out];
    destruct (_ <? _); safe.
  destruct (_ =? -1); safe. apply IH.
Qed.

Lemma report_safe w c total : outcome (report w c total) <> Fault.
Proof.
  unfold report. safe. destruct (negb _); safe.
  apply safe_bind; [apply write_out_safe|]. intros; safe.
Qed.

Lemma spawn_safe w buf c file_size P (n : nat) :
  forall i pids,
  (forall j, i <= j < i + Z.of_nat n ->
     child_count buf c file_size P j <> None) ->
  outcome (spawn w buf c file_size P n i pids) <> Fault.
Proof.
  induction n as [|n IH]; intros i pids H; cbn [spawn]; safe.
  destruct (negb _); safe.
  destruct (_ =? -1); safe.
  destruct (_ =? 0).
  - unfold child. safe.
    destruct (child_count buf c file_size P i) eqn:E.
    + unfold send_count. safe. destruct (negb _); safe.
    + destruct (H i ltac:(lia) E).
  - safe. apply IH. intros j Hj. apply H. lia.
Qed.

Lemma run_safe w buf c :
  Z.of_nat (length buf) <= OFF_MAX ->
  outcome (run w buf c (Z.of_nat (length buf))) <> Fault.
Proof.
  intros Hsize. unfold run. apply safe_bind.
  - destruct (env_P w) as [s|]; [|discriminate].
    destruct (Z.leb_spec (atoi s) 0).
    + rewrite determine_P_invalid by assumption. discriminate.
    + rewrite determine_P_valid by assumption. discriminate.
  - intros P HP. apply determine_P_range in HP.
    safe. destruct (negb _); safe. destruct (negb _); safe.
    destruct (negb _); safe. destruct (negb _); safe.
    apply safe_bind.
    + apply spawn_safe. intros j Hj.
      rewrite (child_count_spec buf c P Hsize HP j) by lia. discriminate.
    + intros pids _. apply safe_bind; [apply collect_safe|].
      intros total _. rewrite reap_run.
      apply safe_bind; [discriminate|]. intros _ _. apply report_safe.
Qed.

(** X14. No process executing [main] reads outside the buffer, in the
    parent or in a child, whatever the answers of the environment: for a
    file size that [fstat] reports between 0 and the largest [off_t], the
    buffer holds the whole file before any worker starts, the worker
    count is at least 1, and every index a worker uses lies inside its
    segment. *)
Theorem main_reads_inside_buffer (w : World) :
  (forall st_size, fstat_size w = Some st_size -> 0 <= st_size <= OFF_MAX) ->
  outcome (main w) <> Fault.
Proof.
  intros Hst. unfold main.
  destruct (negb _); safe. destruct (negb _); safe.
  destruct (negb _); safe.
  destruct (fstat_size w) as [st_size|]; safe.
  specialize (Hst st_size eq_refl).
  destruct (_ =? 0); safe. destruct (negb _); safe.
  apply safe_bind.
  - destruct (read_file_outcome (file_reads w) st_size []) as [[b E]|[E|E]];
      rewrite E; discriminate.
  - intros buf Hbuf. safe.
    destruct (read_file_returns (file_reads w) st_size [] buf
                ltac:(simpl; lia) Hbuf) as [Hlen _].
    rewrite <- Hlen. apply run_safe. lia.
Qed.

(** The first child of a run on ["aabcaabc"]. *)
Lemma main_reads_inside_buffer_witness :
  (forall st_size, fstat_size world_short_write = Some st_size ->
     0 <= st_size <= OFF_MAX) /\
  outcome (main world_short_write) <> Fault.
Proof.
  assert (H : forall st_size, fstat_size world_short_write = Some st_size ->
            0 <= st_size <= OFF_MAX).
  { intros st_size E. injection E as <-. unfold OFF_MAX. lia. }
  split; [exact H|]. exact (main_reads_inside_buffer world_short_write H).
Defined.

(** ** A run without failure *)

Lemma in_bind_ret {A B} (m : proc A) (k : A -> proc B) a e :
  outcome m = Ret a -> In e (trace (k a)) -> In e (trace (bind m k)).
Proof.
  intros Hm He. rewrite (trace_bind_ret m k a Hm). apply in_or_app. right. exact He.
Qed.

Lemma in_bind_l {A B} (m : proc A) (k : A -> proc B) e :
  In e (trace m) -> In e (trace (bind m k)).
Proof.
  intros He. destruct (outcome m) as [a| | |] eqn:E.
  - rewrite (trace_bind_ret m k a E). apply in_or_app. left. exact He.
  - rewrite trace_bind_stop; [exact He|congruence].
  - rewrite trace_bind_stop; [exact He|congruence].
  - rewrite trace_bind_stop; [exact He|congruence].
Qed.

Lemma in_bind_emit {B} e' (k : unit -> proc B) e :
  In e (trace (k tt)) -> In e (trace (bind (emit e') k)).
Proof. rewrite trace_emit. intros H. right. exact H. Qed.

Lemma reports_bind_ret {A} input c n (m : proc A) (k : A -> proc unit) a :
  outcome m = Ret a -> reports_count input c n (k a) ->
  reports_count input c n (bind m k).
Proof.
  intros Hm [Ho Hi]. split.
  - rewrite (outcome_bind_ret m k a Hm). exact Ho.
  - apply (in_bind_ret m k a _ Hm Hi).
Qed.

Lemma reports_emit input c n e (k : unit -> proc unit) :
  reports_count input c n (k tt) -> reports_count input c n (bind (emit e) k).
Proof. apply (reports_bind_ret input c n (emit e) k tt). reflexivity. Qed.

Lemma result_msg_head c total input :
  exists rest, result_msg c total input = x54 :: rest.
Proof.
  unfold result_msg. eexists. change 1023%nat with (S 1022).
  cbn [bytes_of_string list_byte_of_string list_ascii_of_string map app
       byte_of_ascii firstn].
  reflexivity.
Qed.

Lemma write_out_first ws msg :
  0 < Z.of_nat (length msg) <= bytes_taken ws ->
  outcome (write_out ws msg 0) = Ret tt /\
  In (EvWrite FdOutput msg) (trace (write_out ws msg 0)).
Proof.
  intros H. split; [apply write_out_complete; lia|].
  destruct ws as [|[|n] ws]; cbn [bytes_taken] in H; try lia.
  cbn [write_out]. destruct (Z.ltb_spec 0 (Z.of_nat (length msg))); [|lia].
  rewrite trace_emit. left. reflexivity.
Qed.

Lemma write_result_msg w c total :
  Z.of_nat (length (result_msg c total (input_file w))) <= bytes_taken (out_writes w) ->
  outcome (write_out (out_writes w) (result_msg c total (input_file w)) 0) = Ret tt /\
  In (EvWrite FdOutput (result_msg c total (input_file w)))
     (trace (write_out (out_writes w) (result_msg c total (input_file w)) 0)).
Proof.
  intros H. apply write_out_first. split; [|exact H].
  destruct (result_msg_head c total (input_file w)) as [rest ->]. simpl length. lia.
Qed.

Lemma report_succeeds w c total :
  open_output_ok w = true ->
  Z.of_nat (length (result_msg c total (input_file w))) <= bytes_taken (out_writes w) ->
  reports_count (input_file w) c total (report w c total).
Proof.
  intros Hopen Hb. destruct (write_result_msg w c total Hb) as [Hw Hin].
  unfold report. do 2 apply reports_emit. rewrite Hopen. cbn [negb]. split.
  - rewrite (outcome_bind_ret _ _ tt Hw), !outcome_emit. reflexivity.
  - rewrite (trace_bind_ret _ _ tt Hw). apply in_or_app. left. exact Hin.
Qed.

Lemma in_indices (n : nat) :
  forall i j, i <= j < i + Z.of_nat n -> In j (indices n i).
Proof.
  induction n as [|n IH]; intros i j Hj; [lia|]. cbn [indices].
  destruct (Z.eq_dec i j) as [->|Hne]; [left; reflexivity|].
  right. apply IH. lia.
Qed.

Lemma run_cooperative w content P :
  cooperative w content P ->
  let c := hd x00 (argv3 w) in
  let m := run w content c (Z.of_nat (length content)) in
  reports_count (input_file w) c (occurrences c content) m /\
  (forall j, 0 <= j < P -> In (EvWaitpid (fork_ret w j)) (trace m)).
Proof.
  intros (_ & _ & _ & _ & Hsize & _ & _ & HdP & Hsi & Hsc & Hmp & Hmc & Hfork
          & Hch & Hopen & Hw) c m.
  pose proof (determine_P_range _ _ HdP) as HP.
  assert (Hsize' : Z.of_nat (length content) <= OFF_MAX) by lia.
  pose proof (spawn_parent w content c (Z.of_nat (length content)) P
                (Z.to_nat P) 0 []
                ltac:(intros j Hj; apply Hfork; lia)) as Hsp.
  cbn [app] in Hsp.
  assert (Hcol : outcome (collect (Z.to_nat P) 0 (selects w) (reads w) 0)
                 = Ret (occurrences c content)).
  { pose proof (seg_start_eq (Z.of_nat (length content)) P ltac:(lia) HP 0
                  ltac:(lia)) as H0.
    replace (0 * (Z.of_nat (length content) / P)
             + Z.min 0 (Z.of_nat (length content) mod P)) with 0 in H0
      by (pose proof (div_facts (Z.of_nat (length content)) P ltac:(lia) HP); lia).
    rewrite (collect_counts content c P Hsize' HP (selects w) (reads w)
               (Z.to_nat P) 0 0); try lia.
    - replace (0 + Z.of_nat (Z.to_nat P)) with P by lia.
      rewrite H0, (seg_start_P (Z.of_nat (length content)) P ltac:(lia) HP).
      rewrite Z.add_0_l, slice_all. reflexivity.
    - intros j count Hj. apply Hch. lia. }
  subst m. unfold run. split.
  - apply (reports_bind_ret _ _ _ _ _ P HdP).
    apply reports_emit. rewrite Hsi. cbn [negb].
    apply reports_emit. rewrite Hsc, Hmp. cbn [negb].
    apply reports_emit. rewrite Hmc. cbn [negb].
    eapply reports_bind_ret; [rewrite Hsp; reflexivity|].
    eapply reports_bind_ret; [exact Hcol|].
    eapply reports_bind_ret; [rewrite reap_run; reflexivity|].
    apply report_succeeds; assumption.
  - intros j Hj.
    apply (in_bind_ret _ _ P _ HdP).
    apply in_bind_emit. rewrite Hsi. cbn [negb].
    apply in_bind_emit. rewrite Hsc, Hmp. cbn [negb].
    apply in_bind_emit. rewrite Hmc. cbn [negb].
    eapply in_bind_ret; [rewrite Hsp; reflexivity|].
    eapply in_bind_ret; [exact Hcol|].
    apply in_bind_l. rewrite reap_run.
    cbn [trace fst]. apply in_map, in_map, in_indices. lia.
Qed.

Lemma main_cooperative w content P :
  cooperative w content P ->
  let c := hd x00 (argv3 w) in
  reports_count (input_file w) c (occurrences c content) (main w) /\
  (forall j, 0 <= j < P -> In (EvWaitpid (fork_ret w j)) (trace (main w))).
Proof.
  intros Hco c.
  destruct (run_cooperative w content P Hco) as [Hrep Hwait].
  destruct Hco as (Hargc & Hargv & Hopen & Hfs & Hsize & Hmb & Hfd & _).
  pose proof (read_file_delivers _ _ Hfd [] _ eq_refl) as Hrd. cbn [app] in Hrd.
  assert (Hz : (Z.of_nat (length content) =? 0) = false) by (apply Z.eqb_neq; lia).
  unfold main. rewrite Hargc, Hargv, Hopen, Hfs, Hz, Hmb. cbn [Z.eqb negb Pos.eqb].
  split.
  - do 2 apply reports_emit.
    eapply reports_bind_ret; [exact Hrd|]. do 2 apply reports_emit. exact Hrep.
  - intros j Hj. do 2 apply in_bind_emit.
    eapply in_bind_ret; [exact Hrd|]. do 2 apply in_bind_emit. apply Hwait. exact Hj.
Qed.

(** X15. In an environment without failure, whatever the sizes of the
    pieces in which the file, the counts and the message travel and
    however many interruptions occur, the parent exits with
    [EXIT_SUCCESS], the message it writes to the output file tells the
    number of occurrences of the target byte in the file, and it has
    waited for each of its [P] children. *)
Theorem parallel_count_is_correct (w : World) (content : list byte) (P : Z) :
  cooperative w content P ->
  let c := hd x00 (argv3 w) in
  outcome (main w) = Exit EXIT_SUCCESS /\
  In (EvWrite FdOutput (result_msg c (occurrences c content) (input_file w)))
     (trace (main w)) /\
  (forall j, 0 <= j < P -> In (EvWaitpid (fork_ret w j)) (trace (main w))).
Proof.
  intros Hco c. destruct (main_cooperative w content P Hco) as [[Ho Hi] Hw].
  split; [exact Ho|]. split; [exact Hi|exact Hw].
Qed.

Lemma world_both_send_cooperative :
  cooperative world_both_send [x61; x61; x62; x63; x61; x61; x62; x63] 2.
Proof.
  set (content := [x61; x61; x62; x63; x61; x61; x62; x63]).
  unfold cooperative.
  split; [reflexivity|]. split; [reflexivity|]. split; [reflexivity|].
  split; [reflexivity|]. split; [unfold OFF_MAX; simpl; lia|].
  split; [reflexivity|]. split.
  { rewrite <- (app_nil_r content).
    apply file_delivers_data; [discriminate|apply file_delivers_done]. }
  split; [reflexivity|]. split; [reflexivity|]. split; [reflexivity|].
  split; [reflexivity|]. split; [reflexivity|]. split.
  { intros i Hi. unfold world_both_send, parent_world, sample_world.
    cbn [pipe_ok fork_ret]. split; [reflexivity|]. split; lia. }
  split.
  { intros j count Hj Hc.
    assert (count = 2).
    { assert (j = 0 \/ j = 1) as [-> | ->] by lia;
        vm_compute in Hc; injection Hc as <-; reflexivity. }
    subst count. split; [reflexivity|]. split; [|unfold OFF_MAX; lia].
    change (reads world_both_send j) with [RdData (encode_count 2)].
    rewrite <- (app_nil_r (encode_count 2)) at 2.
    apply delivers_data; [vm_compute; discriminate|apply delivers_done]. }
  split; [reflexivity|]. vm_compute. discriminate.
Qed.

(** The run [world_both_send]. *)
Lemma parallel_count_is_correct_witness :
  let content := [x61; x61; x62; x63; x61; x61; x62; x63] in
  cooperative world_both_send content 2 /\
  outcome (main world_both_send) = Exit EXIT_SUCCESS /\
  In (EvWrite FdOutput (result_msg x61 (occurrences x61 content) "in.txt"))
     (trace (main world_both_send)).
Proof.
  intros content.
  split; [exact world_both_send_cooperative|].
  destruct (parallel_count_is_correct world_both_send content 2
              world_both_send_cooperative) as (Ho & Hi & _).
  split; [exact Ho|exact Hi].
Defined.

(** ** The single-process program *)

Lemma count_char_main_succeeds w content :
  let c := hd x00 (argv3 w) in
  argc w = 4 ->
  Z.of_nat (length (argv3 w)) = 1 ->
  open_input_ok w = true ->
  fstat_size w = Some (Z.of_nat (length content)) ->
  0 < Z.of_nat (length content) <= INT_MAX ->
  malloc_buf_ok w = true ->
  file_delivers (file_reads w) content ->
  open_output_ok w = true ->
  Z.of_nat (length (result_msg c (occurrences c content) (input_file w)))
  <= bytes_taken (out_writes w) ->
  reports_count (input_file w) c (occurrences c content) (CountChar.main w).
Proof.
  intros c Hargc Hargv Hopen Hfs Hsize Hmb Hfd Hout Hb.
  pose proof (read_file_delivers _ _ Hfd [] _ eq_refl) as Hrd. cbn [app] in Hrd.
  assert (Hz : (Z.of_nat (length content) =? 0) = false) by (apply Z.eqb_neq; lia).
  destruct (write_result_msg w c (occurrences c content) Hb) as [Hw Hin].
  unfold CountChar.main.
  rewrite Hargc, Hargv, Hopen, Hfs, Hz, Hmb. cbn [Z.eqb negb Pos.eqb].
  do 2 apply reports_emit.
  eapply reports_bind_ret; [exact Hrd|]. do 2 apply reports_emit.
  fold c. rewrite (count_char_spec content c) by lia.
  do 2 apply reports_emit. rewrite Hout. cbn [negb]. split.
  - rewrite (outcome_bind_ret _ _ tt Hw), !outcome_emit. reflexivity.
  - apply in_bind_l. exact Hin.
Qed.

(** X16. In an environment without failure and for a file of at most
    [INT_MAX] bytes, the single-process program exits with
    [EXIT_SUCCESS] and the message it writes to the output file tells the
    number of occurrences of the target byte in the file. *)
Theorem count_char_program_is_correct (w : World) (content : list byte) :
  let c := hd x00 (argv3 w) in
  argc w = 4 ->
  Z.of_nat (length (argv3 w)) = 1 ->
  open_input_ok w = true ->
  fstat_size w = Some (Z.of_nat (length content)) ->
  0 < Z.of_nat (length content) <= INT_MAX ->
  malloc_buf_ok w = true ->
  file_delivers (file_reads w) content ->
  open_output_ok w = true ->
  Z.of_nat (length (result_msg c (occurrences c content) (input_file w)))
  <= bytes_taken (out_writes w) ->
  outcome (CountChar.main w) = Exit EXIT_SUCCESS /\
  In (EvWrite FdOutput (result_msg c (occurrences c content) (input_file w)))
     (trace (CountChar.main w)).
Proof. apply count_char_main_succeeds. Qed.

(** X17. The two programs agree.  Each is run in an environment of its
    own in which its calls succeed (that of the parallel program says
    nothing of the calls of the other one: third.c creates the output
    file when it is missing, count_char.c fails on it), on the same
    target byte and input file name and on the same file of at most
    [INT_MAX] bytes.  Then the parallel program, with any number [P] of
    workers, and the single-process program both exit with
    [EXIT_SUCCESS] after offering the same message to the output file:
    the one that tells the number of occurrences of the byte. *)
Theorem programs_write_the_same_message (w w1 : World) (content : list byte)
    (P : Z) :
  cooperative w content P ->
  cooperative_single w1 content ->
  argv3 w1 = argv3 w ->
  input_file w1 = input_file w ->
  let msg := result_msg (hd x00 (argv3 w)) (occurrences (hd x00 (argv3 w)) content)
               (input_file w) in
  outcome (main w) = Exit EXIT_SUCCESS /\
  outcome (CountChar.main w1) = Exit EXIT_SUCCESS /\
  In (EvWrite FdOutput msg) (trace (main w)) /\
  In (EvWrite FdOutput msg) (trace (CountChar.main w1)).
Proof.
  intros Hco Hco1 Hc Hin msg.
  destruct (main_cooperative w content P Hco) as [[Ho Hi] _].
  destruct Hco1 as (Hargc & Hargv & Hopen & Hfs & Hsize & Hmb & Hfd & Hout & Hb).
  destruct (count_char_main_succeeds w1 content Hargc Hargv Hopen Hfs
              Hsize Hmb Hfd Hout Hb) as [Ho' Hi'].
  rewrite Hc, Hin in Hi'.
  split; [exact Ho|]. split; [exact Ho'|]. split; [exact Hi|exact Hi'].
Qed.

(** X18. On an empty file the single-process program reports that the
    file is empty and exits with [EXIT_FAILURE]; it reads nothing and
    does not open the output file. *)
Theorem count_char_rejects_empty_file (w : World) :
  fstat_size w = Some 0 ->
  outcome (CountChar.main w) = Exit EXIT_FAILURE /\
  filter (fun e => match e with
                   | EvRead _ _ | EvOpen FdOutput | EvWrite _ _ => true
                   | _ => false
                   end) (trace (CountChar.main w)) = [] /\
  (argc w = 4 -> Z.of_nat (length (argv3 w)) = 1 -> open_input_ok w = true ->
   In (EvStderr "Error: file is empty\n" []) (trace (CountChar.main w))).
Proof.
  intros Hsize. unfold CountChar.main. rewrite Hsize.
  destruct (argc w =? 4) eqn:Eargc; cbn [negb].
  - destruct (Z.of_nat (length (argv3 w)) =? 1) eqn:Earg; cbn [negb].
    + destruct (open_input_ok w) eqn:Eopen; cbn [negb].
      * split; [reflexivity|]. split; [reflexivity|].
        intros _ _ _. right. right. left. reflexivity.
      * split; [reflexivity|]. split; [reflexivity|]. discriminate.
    + split; [reflexivity|]. split; [reflexivity|].
      intros _ H. rewrite H in Earg. discriminate.
  - split; [reflexivity|]. split; [reflexivity|].
    intros H. rewrite H in Eargc. discriminate.
Qed.

(** The run [world_both_send], given to the single-process program. *)
Lemma count_char_program_is_correct_witness :
  let content := [x61; x61; x62; x63; x61; x61; x62; x63] in
  0 < Z.of_nat (length content) <= INT_MAX /\
  file_delivers (file_reads world_both_send) content /\
  outcome (CountChar.main world_both_send) = Exit EXIT_SUCCESS.
Proof.
  intros content.
  destruct world_both_send_cooperative
    as (Hargc & Hargv & Hopen & Hfs & Hsize & Hmb & Hfd & _ & _ & _
        & _ & _ & _ & _ & Hout & Hb).
  assert (Hs : 0 < Z.of_nat (length content) <= INT_MAX)
    by (unfold INT_MAX; simpl; lia).
  split; [exact Hs|]. split; [exact Hfd|].
  exact (proj1 (count_char_program_is_correct world_both_send content
                  Hargc Hargv Hopen Hfs Hs Hmb Hfd Hout Hb)).
Defined.

(** The run [world_both_send] for the parallel program, and the same
    answers, with an output file that exists, for the other one. *)
Lemma programs_write_the_same_message_witness :
  let content := [x61; x61; x62; x63; x61; x61; x62; x63] in
  cooperative world_both_send content 2 /\
  cooperative_single world_both_send content /\
  exists msg,
    In (EvWrite FdOutput msg) (trace (main world_both_send)) /\
    In (EvWrite FdOutput msg) (trace (CountChar.main world_both_send)).
Proof.
  intros content.
  assert (H1 : cooperative_single world_both_send content).
  { destruct world_both_send_cooperative
      as (Hargc & Hargv & Hopen & Hfs & Hsize & Hmb & Hfd & _ & _ & _
          & _ & _ & _ & _ & Hout & Hb).
    unfold cooperative_single.
    split; [exact Hargc|]. split; [exact Hargv|]. split; [exact Hopen|].
    split; [exact Hfs|]. split; [unfold INT_MAX; simpl; lia|].
    split; [exact Hmb|]. split; [exact Hfd|]. split; [exact Hout|exact Hb]. }
  split; [exact world_both_send_cooperative|]. split; [exact H1|].
  destruct (programs_write_the_same_message world_both_send world_both_send
              content 2 world_both_send_cooperative H1 eq_refl eq_refl)
    as (_ & _ & Hi & Hi').
  eexists. split; [exact Hi|exact Hi'].
Defined.

(** An empty file. *)
Lemma count_char_rejects_empty_file_witness :
  let w := {| argc := 4; argv0 := "./count_char"; input_file := "empty.txt";
              output_file := "out.txt"; argv3 := [x61];
              open_input_ok := true; fstat_size := Some 0;
              malloc_buf_ok := true; file_reads := []; env_P := None;
              sigaction_int_ok := true; sigaction_chld_ok := true;
              malloc_pipes_ok := true; malloc_pids_ok := true;
              pipe_ok := fun _ => true; fork_ret := fun i => 1000 + i;
              child_write := WrBytes 8; selects := fun _ => [];
              reads := fun _ => []; open_output_ok := true;
              out_writes := [] |} in
  fstat_size w = Some 0 /\ outcome (CountChar.main w) = Exit EXIT_FAILURE.
Proof.
  intros w. split; [reflexivity|].
  exact (proj1 (count_char_rejects_empty_file w eq_refl)).
Defined.

(** ** Signals that arrive together *)

Lemma sigint_run_last_print ts :
  forall st st', last_print st = last_print st' ->
  sigint_run ts st = sigint_run ts st'.
Proof.
  induction ts as [|t ts IH]; intros st st' E; [reflexivity|].
  cbn [sigint_run]. unfold sigint_handler. rewrite E.
  destruct (_ <? _); f_equal; apply IH; [exact E|reflexivity].
Qed.

Lemma sigchld_handler_last_print rets :
  forall st st' rest,
  sigchld_handler rets st = Some (st', rest) -> last_print st' = last_print st.
Proof.
  induction rets as [|r rets IH]; intros st st' rest; cbn [sigchld_handler];
    [discriminate|].
  destruct (r >? 0).
  - intros H. apply IH in H. exact H.
  - intros H. injection H as <- _. reflexivity.
Qed.

Lemma deliver_lines sigs :
  forall st st' out,
  deliver sigs st = Some (st', out) ->
  length out = lines (sigint_run (sigint_times sigs) st).
Proof.
  induction sigs as [|[now|rets] sigs IH]; intros st st' out;
    cbn [deliver sigint_times sigint_run].
  - intros H. injection H as _ <-. reflexivity.
  - unfold sigint_handler. destruct (_ <? _).
    + destruct (deliver sigs st) as [[st1 out1]|] eqn:E; [|discriminate].
      intros H. injection H as _ <-. apply (IH _ _ _ E).
    + destruct (deliver sigs _) as [[st1 out1]|] eqn:E; [|discriminate].
      intros H. injection H as _ <-. cbn [app length].
      rewrite (IH _ _ _ E). reflexivity.
  - destruct (sigchld_handler rets st) as [[st1 rest]|] eqn:E; [|discriminate].
    intros H. rewrite (IH _ _ _ H).
    rewrite (sigint_run_last_print _ st1 st); [reflexivity|].
    apply (sigchld_handler_last_print rets st st1 rest E).
Qed.

(** X19. Terminations of children do not disturb the debounce: in any
    sequence of signals, the interrupt requests that print a line are
    those that would print if the termination signals were not there,
    because the termination handler leaves the time of the last print
    alone. *)
Theorem terminations_do_not_disturb_debounce (sigs : list signal)
    (st st' : sig_state) (out : list event) :
  deliver sigs st = Some (st', out) ->
  length out = lines (sigint_run (sigint_times sigs) st) /\
  forall rets st1 rest,
    sigchld_handler rets st = Some (st1, rest) -> last_print st1 = last_print st.
Proof.
  intros H. split; [apply (deliver_lines sigs st st' out H)|].
  intros rets st1 rest Hh. exact (sigchld_handler_last_print rets st st1 rest Hh).
Qed.

(** Two interrupts in the same second with a termination in between. *)
Lemma terminations_do_not_disturb_debounce_witness :
  let sigs := [Sigint 100; Sigchld [1001; 0]; Sigint 100; Sigint 101] in
  let st := set_active_children 2 sig_init in
  exists st' out,
    deliver sigs st = Some (st', out) /\
    length out = lines (sigint_run [100; 100; 101] st).
Proof.
  intros sigs st.
  destruct (deliver sigs st) as [[st' out]|] eqn:E; [|discriminate E].
  exists st', out. split; [reflexivity|].
  exact (proj1 (terminations_do_not_disturb_debounce sigs st st' out E)).
Defined.

(** X20. Whatever value [active_children] holds when a sequence of
    signals starts (0 from the installation of the handlers, lines 130
    and 139, until line 158, and the worker count from there on), and
    as long as [main] does not assign the counter during the sequence,
    an interrupt request after it prints nothing when less than a second
    has passed since the last line, and otherwise prints that value less
    the number of children the termination handler has reaped in the
    sequence. *)
Theorem status_line_shows_counter (st0 : sig_state) (now : Z)
    (sigs : list signal) :
  waitpid_settles sigs = true ->
  - 2 ^ 31 + total_reaped sigs <= active_children st0 <= INT_MAX ->
  exists st out,
    deliver sigs st0 = Some (st, out) /\
    snd (sigint_handler now st)
    = if wrap64 (now - last_print st) <? 1 then []
      else [EvStdout "\nReceived SIGINT. Active child processes: %d\n"
              [AInt (active_children st0 - total_reaped sigs)]].
Proof.
  intros Hw Hr.
  destruct (deliver_spec sigs st0 Hw Hr) as (st & out & Hd & Ha).
  exists st, out. split; [exact Hd|].
  unfold sigint_handler. destruct (_ <? _); [reflexivity|].
  cbn [snd]. rewrite Ha. reflexivity.
Qed.

(** Four workers, three of them reaped, then an interrupt request; and
    an interrupt request that arrives before line 158. *)
Lemma status_line_shows_counter_witness :
  let sigs := [Sigchld [1001; 1003; 0]; Sigint 100; Sigchld [1000; 0]] in
  let st0 := set_active_children 4 sig_init in
  (waitpid_settles sigs = true /\
   - 2 ^ 31 + total_reaped sigs <= active_children st0 <= INT_MAX /\
   exists st out,
     deliver sigs st0 = Some (st, out) /\
     snd (sigint_handler 200 st)
     = [EvStdout "\nReceived SIGINT. Active child processes: %d\n" [AInt 1]]) /\
  (waitpid_settles [Sigchld [-1]] = true /\
   - 2 ^ 31 + total_reaped [Sigchld [-1]] <= active_children sig_init <= INT_MAX /\
   exists st out,
     deliver [Sigchld [-1]] sig_init = Some (st, out) /\
     snd (sigint_handler 100 st)
     = [EvStdout "\nReceived SIGINT. Active child processes: %d\n" [AInt 0]]).
Proof.
  intros sigs st0. split.
  - assert (Hr : - 2 ^ 31 + total_reaped sigs <= active_children st0 <= INT_MAX)
      by (unfold INT_MAX; vm_compute; split; discriminate).
    split; [reflexivity|]. split; [exact Hr|].
    destruct (status_line_shows_counter st0 200 sigs eq_refl Hr)
      as (st & out & Hd & Hl).
    exists st, out. split; [exact Hd|].
    rewrite Hl. vm_compute in Hd. injection Hd as <- _. reflexivity.
  - assert (Hr : - 2 ^ 31 + total_reaped [Sigchld [-1]]
                 <= active_children sig_init <= INT_MAX)
      by (unfold INT_MAX; vm_compute; split; discriminate).
    split; [reflexivity|]. split; [exact Hr|].
    destruct (status_line_shows_counter sig_init 100 [Sigchld [-1]] eq_refl Hr)
      as (st & out & Hd & Hl).
    exists st, out. split; [exact Hd|].
    rewrite Hl. vm_compute in Hd. injection Hd as <- _. reflexivity.
Defined.

(** X21. For a file size that [fstat] reports between 0 and [INT_MAX],
    the single-process program never reads outside the buffer, whatever
    the answers of the environment: the buffer holds the whole file when
    the counting loop starts and the [int] index of the loop stays in
    its range. *)
Theorem count_char_reads_inside_buffer (w : World) :
  (forall st_size, fstat_size w = Some st_size -> 0 <= st_size <= INT_MAX) ->
  outcome (CountChar.main w) <> Fault.
Proof.
  intros Hst. unfold CountChar.main.
  destruct (negb _); safe. destruct (negb _); safe.
  destruct (negb _); safe.
  destruct (fstat_size w) as [st_size|]; safe.
  specialize (Hst st_size eq_refl).
  destruct (_ =? 0); safe. destruct (negb _); safe.
  apply safe_bind.
  - destruct (read_file_outcome (file_reads w) st_size []) as [[b E]|[E|E]];
      rewrite E; discriminate.
  - intros buf Hbuf. safe.
    destruct (read_file_returns (file_reads w) st_size [] buf
                ltac:(simpl; lia) Hbuf) as [Hlen _].
    rewrite <- Hlen, count_char_spec by lia.
    safe. destruct (negb _); safe.
    apply safe_bind; [apply write_out_safe|]. intros; safe.
Qed.

(** The run [world_both_send], given to the single-process program. *)
Lemma count_char_reads_inside_buffer_witness :
  (forall st_size, fstat_size world_both_send = Some st_size ->
     0 <= st_size <= INT_MAX) /\
  outcome (CountChar.main world_both_send) <> Fault.
Proof.
  assert (H : forall st_size, fstat_size world_both_send = Some st_size ->
            0 <= st_size <= INT_MAX).
  { intros st_size E. injection E as <-. unfold INT_MAX. lia. }
  split; [exact H|]. exact (count_char_reads_inside_buffer world_both_send H).
Defined.

(** ** ActiveCounter: the workers the handler does not see *)

Lemma sigchld_handler_none_ended x st :
  x <= 0 -> sigchld_handler [x] st = Some (st, []).
Proof.
  intros Hx. cbn [sigchld_handler].
  destruct (Z.gtb_spec x 0); [lia|reflexivity].
Qed.

Lemma on_sigchld_nothing p : on_sigchld [] p = Some p.
Proof.
  unfold on_sigchld, handler_waitpid. cbn [app].
  rewrite sigchld_handler_none_ended by (destruct (running p); lia).
  destruct p. reflexivity.
Qed.

Lemma worker_ends_counted pid p :
  0 < pid ->
  worker_ends pid p
  = Some {| running := without pid (running p);
            vars := {| active_children := wrap32 (active_children (vars p) - 1);
                       last_print := last_print (vars p) |} |}.
Proof.
  intros Hpid. unfold worker_ends, on_sigchld, handler_waitpid.
  cbn [running vars app sigchld_handler].
  destruct (Z.gtb_spec pid 0); [|lia].
  destruct (without pid (running p)); reflexivity.
Qed.

Lemma main_waitpid_gone pid ends p :
  existsb (Z.eqb pid) (running p) = false ->
  main_waitpid pid ends p = Some (p, ends).
Proof. intros H. destruct ends; cbn [main_waitpid]; rewrite H; reflexivity. Qed.

Lemma main_waitpid_collects pid ends p :
  In pid (running p) ->
  main_waitpid pid (pid :: ends) p
  = Some ({| running := without pid (running p); vars := vars p |}, ends).
Proof.
  intros Hin. cbn [main_waitpid].
  assert (H : existsb (Z.eqb pid) (running p) = true).
  { apply existsb_exists. exists pid. split; [exact Hin|apply Z.eqb_refl]. }
  rewrite H, Z.eqb_refl, on_sigchld_nothing. reflexivity.
Qed.

Lemma without_absent pid pids : ~ In pid pids -> without pid pids = pids.
Proof.
  induction pids as [|q pids IH]; intros H; [reflexivity|].
  cbn [without filter]. destruct (Z.eqb_spec q pid) as [->|Hne]; cbn [negb].
  - exfalso. apply H. left. reflexivity.
  - f_equal. apply IH. intros Hin. apply H. right. exact Hin.
Qed.

Lemma filter_without keep pid pids :
  filter keep (without pid pids)
  = filter (fun q => negb (q =? pid) && keep q) pids.
Proof.
  induction pids as [|q pids IH]; [reflexivity|].
  cbn [without filter]. fold (without pid pids).
  destruct (q =? pid); cbn [negb andb]; [exact IH|].
  cbn [filter]. destruct (keep q); rewrite IH; reflexivity.
Qed.

Lemma filter_all {A} (l : list A) : filter (fun _ => true) l = l.
Proof. induction l as [|x l IH]; cbn [filter]; [|rewrite IH]; reflexivity. Qed.

Lemma before_wait_spec early :
  forall p,
  (forall q, In q early -> 0 < q) ->
  - 2 ^ 31 + Z.of_nat (length early) <= active_children (vars p) <= INT_MAX ->
  before_wait early p
  = Some {| running := filter (fun q => negb (existsb (Z.eqb q) early)) (running p);
            vars := {| active_children :=
                         active_children (vars p) - Z.of_nat (length early);
                       last_print := last_print (vars p) |} |}.
Proof.
  induction early as [|pid early IH]; intros p Hpos Hn.
  - cbn [before_wait existsb negb length]. destruct p as [r [a l]].
    cbn [running vars active_children last_print].
    rewrite filter_all. do 3 f_equal. change (Z.of_nat 0) with 0. lia.
  - cbn [before_wait]. rewrite worker_ends_counted by (apply Hpos; left; reflexivity).
    cbn [length] in Hn.
    rewrite IH; cbn [running vars active_children last_print].
    + rewrite wrap32_small by (unfold INT_MAX in *; lia).
      rewrite filter_without. cbn [existsb length].
      f_equal. f_equal.
      * apply filter_ext. intros q. rewrite negb_orb. reflexivity.
      * f_equal. lia.
    + intros q Hq. apply Hpos. right. exact Hq.
    + rewrite wrap32_small by (unfold INT_MAX in *; lia).
      unfold INT_MAX in *. lia.
Qed.

Lemma wait_all_late keep st :
  forall pids,
  NoDup pids ->
  wait_all pids (filter keep pids) {| running := filter keep pids; vars := st |}
  = Some ({| running := []; vars := st |}, []).
Proof.
  induction pids as [|pid pids IH]; intros Hnd; [reflexivity|].
  inversion Hnd as [|? ? Hnotin Hnd']; subst.
  assert (Habsent : ~ In pid (filter keep pids)).
  { intros H. apply filter_In in H. apply Hnotin, H. }
  cbn [wait_all filter]. destruct (keep pid).
  - rewrite main_waitpid_collects by (left; reflexivity).
    cbn [running vars without filter]. rewrite Z.eqb_refl. cbn [negb].
    fold (without pid (filter keep pids)).
    rewrite without_absent by exact Habsent. apply IH. exact Hnd'.
  - rewrite main_waitpid_gone; [apply IH; exact Hnd'|].
    cbn [running]. destruct (existsb (Z.eqb pid) (filter keep pids)) eqn:E;
      [|reflexivity].
    apply existsb_exists in E as (q & Hq & Heq).
    apply Z.eqb_eq in Heq. subst q. contradiction.
Qed.

Lemma length_indices (n : nat) : forall i, length (indices n i) = n.
Proof. induction n as [|n IH]; intros i; cbn [indices length]; [|rewrite IH]; reflexivity. Qed.

Lemma indices_range (n : nat) :
  forall i j, In j (indices n i) -> i <= j < i + Z.of_nat n.
Proof.
  induction n as [|n IH]; intros i j; cbn [indices]; [contradiction|].
  intros [<-|H]; [lia|]. apply IH in H. lia.
Qed.

Lemma run_sets_counter w content P :
  cooperative w content P ->
  let m := run w content (hd x00 (argv3 w)) (Z.of_nat (length content)) in
  In (EvSetActiveChildren P) (trace m) /\
  (forall j, 0 <= j < P -> In (EvFork j) (trace m)).
Proof.
  intros (_ & _ & _ & _ & Hsize & _ & _ & HdP & Hsi & Hsc & Hmp & Hmc & Hfork & _) m.
  pose proof (spawn_parent w content (hd x00 (argv3 w)) (Z.of_nat (length content)) P
                (Z.to_nat P) 0 []
                ltac:(intros j Hj; apply Hfork; lia)) as Hsp.
  subst m. unfold run. split.
  - apply (in_bind_ret _ _ P _ HdP).
    apply in_bind_emit. rewrite Hsi. cbn [negb].
    apply in_bind_emit. rewrite Hsc, Hmp. cbn [negb].
    rewrite trace_emit. left. reflexivity.
  - intros j Hj.
    apply (in_bind_ret _ _ P _ HdP).
    apply in_bind_emit. rewrite Hsi. cbn [negb].
    apply in_bind_emit. rewrite Hsc, Hmp. cbn [negb].
    apply in_bind_emit. rewrite Hmc. cbn [negb].
    apply in_bind_l. rewrite Hsp. cbn [trace fst].
    apply in_concat. exists (spawn_events j). split.
    + apply in_map, in_indices. lia.
    + right. left. reflexivity.
Qed.

Lemma main_sets_counter w content P :
  cooperative w content P ->
  In (EvSetActiveChildren P) (trace (main w)) /\
  (forall j, 0 <= j < P -> In (EvFork j) (trace (main w))).
Proof.
  intros Hco. destruct (run_sets_counter w content P Hco) as [Hset Hforks].
  destruct Hco as (Hargc & Hargv & Hopen & Hfs & Hsize & Hmb & Hfd & _).
  pose proof (read_file_delivers _ _ Hfd [] _ eq_refl) as Hrd. cbn [app] in Hrd.
  assert (Hz : (Z.of_nat (length content) =? 0) = false) by (apply Z.eqb_neq; lia).
  unfold main. rewrite Hargc, Hargv, Hopen, Hfs, Hz, Hmb. cbn [Z.eqb negb Pos.eqb].
  split.
  - do 2 apply in_bind_emit.
    eapply in_bind_ret; [exact Hrd|]. do 2 apply in_bind_emit. exact Hset.
  - intros j Hj. do 2 apply in_bind_emit.
    eapply in_bind_ret; [exact Hrd|]. do 2 apply in_bind_emit. apply Hforks. exact Hj.
Qed.

Lemma main_counter_set_before_forks w content P :
  cooperative w content P ->
  exists pre rest,
    trace (main w) = pre ++ EvSetActiveChildren P :: rest /\
    forallb (fun e => negb (is_spawn e) && negb (is_set_active e)) pre = true /\
    forallb (fun e => negb (is_set_active e)) rest = true /\
    (forall j, 0 <= j < P -> In (EvFork j) rest).
Proof.
  intros Hco. destruct (main_sets_counter w content P Hco) as [Hset Hforks].
  destruct Hco as (_ & _ & _ & _ & _ & _ & _ & HdP & _).
  destruct (main_assigns_once w)
    as (pre & Hpre & [Htr|(P' & rest & HP' & Htr & Hrest)]).
  - exfalso. rewrite Htr in Hset.
    rewrite forallb_forall in Hpre. apply Hpre in Hset. discriminate Hset.
  - rewrite HdP in HP'. injection HP' as <-.
    exists pre, rest. split; [exact Htr|]. split; [exact Hpre|].
    split; [exact Hrest|]. intros j Hj.
    pose proof (Hforks j Hj) as Hin. rewrite Htr in Hin.
    apply in_app_or in Hin as [Hin|[Hin|Hin]].
    + rewrite forallb_forall in Hpre. apply Hpre in Hin. discriminate Hin.
    + discriminate Hin.
    + exact Hin.
Qed.

(** C7. [main] assigns the worker count to [active_children] once,
    before it creates a pipe or a child; a run without failure reaches
    the assignment, forks its [P] workers after it and calls the
    [waitpid] of line 267 for each of them.  The counter is meant to go
    down by 1 for each worker that ends (comments of lines 26 and 41),
    and it does not.  A worker that ends while [main] is not inside that
    [waitpid] for it is collected by [sigchld_handler], which takes 1
    from the counter.  A worker that ends while [main] waits for it is
    collected by [main]'s own call: the handler finds no ended child and
    leaves the counter as it is.  So when the workers of [early] end
    before the last loop and every other worker ends while [main] waits
    for it, the loop ends with no worker left and with the counter at
    [P] less the length of [early], not at 0. *)
Theorem counter_misses_workers_main_collects (w : World)
    (content : list byte) (P : Z) :
  cooperative w content P ->
  let child_pids := map (fork_ret w) (indices (Z.to_nat P) 0) in
  NoDup child_pids ->
  (forall pid, In pid child_pids -> 0 < pid) ->
  let p0 := {| running := child_pids; vars := set_active_children P sig_init |} in
  (exists pre rest,
     trace (main w) = pre ++ EvSetActiveChildren P :: rest /\
     forallb (fun e => negb (is_spawn e) && negb (is_set_active e)) pre = true /\
     forallb (fun e => negb (is_set_active e)) rest = true /\
     (forall j, 0 <= j < P -> In (EvFork j) rest)) /\
  (forall pid, In pid child_pids -> In (EvWaitpid pid) (trace (main w))) /\
  (forall pid p,
     0 < pid ->
     - 2 ^ 31 < active_children (vars p) <= INT_MAX ->
     worker_ends pid p
     = Some {| running := without pid (running p);
               vars := {| active_children := active_children (vars p) - 1;
                          last_print := last_print (vars p) |} |}) /\
  (forall pid ends p,
     In pid (running p) ->
     main_waitpid pid (pid :: ends) p
     = Some ({| running := without pid (running p); vars := vars p |}, ends)) /\
  (forall early,
     NoDup early ->
     incl early child_pids ->
     let late := filter (fun q => negb (existsb (Z.eqb q) early)) child_pids in
     exists st1,
       before_wait early p0 = Some {| running := late; vars := st1 |} /\
       active_children st1 = P - Z.of_nat (length early) /\
       wait_all child_pids late {| running := late; vars := st1 |}
       = Some ({| running := []; vars := st1 |}, [])).
Proof.
  intros Hco child_pids Hnd Hpos p0.
  split; [exact (main_counter_set_before_forks w content P Hco)|].
  split.
  { intros pid Hin. unfold child_pids in Hin.
    apply in_map_iff in Hin as (j & <- & Hj). apply indices_range in Hj.
    apply (proj2 (main_cooperative w content P Hco)). lia. }
  split.
  { intros pid p Hpid Hn. rewrite worker_ends_counted by exact Hpid.
    rewrite wrap32_small by (unfold INT_MAX in *; lia). reflexivity. }
  split; [exact main_waitpid_collects|].
  intros early Hnde Hincl late.
  assert (HP : 1 <= P <= INT_MAX).
  { destruct Hco as (_ & _ & _ & _ & _ & _ & _ & HdP & _).
    exact (determine_P_range _ _ HdP). }
  assert (Hlen : Z.of_nat (length early) <= P).
  { pose proof (NoDup_incl_length Hnde Hincl) as H.
    unfold child_pids in H. rewrite length_map, length_indices in H. lia. }
  eexists. split; [|split].
  - unfold p0. rewrite before_wait_spec.
    + cbn [running vars]. reflexivity.
    + intros q Hq. apply Hpos, Hincl, Hq.
    + cbn [vars set_active_children active_children]. unfold INT_MAX in *. lia.
  - reflexivity.
  - apply wait_all_late. exact Hnd.
Qed.

(** Two workers, 1000 and 1001, on ["aabcaabc"]: the first ends while
    [main] collects the counts, the second while [main] waits for it at
    line 267.  No worker is left and the counter, which a later
    interrupt request prints, is 1. *)
Lemma counter_misses_workers_main_collects_witness :
  let content := [x61; x61; x62; x63; x61; x61; x62; x63] in
  let child_pids := map (fork_ret world_both_send) (indices (Z.to_nat 2) 0) in
  cooperative world_both_send content 2 /\
  NoDup child_pids /\
  (forall pid, In pid child_pids -> 0 < pid) /\
  child_pids = [1000; 1001] /\
  exists st1,
    before_wait [1000]
      {| running := [1000; 1001]; vars := set_active_children 2 sig_init |}
    = Some {| running := [1001]; vars := st1 |} /\
    active_children st1 = 1 /\
    wait_all [1000; 1001] [1001] {| running := [1001]; vars := st1 |}
    = Some ({| running := []; vars := st1 |}, []) /\
    snd (sigint_handler 100 st1)
    = [EvStdout "\nReceived SIGINT. Active child processes: %d\n" [AInt 1]].
Proof.
  intros content child_pids.
  assert (Hpids : child_pids = [1000; 1001]) by reflexivity.
  assert (Hnd : NoDup child_pids).
  { rewrite Hpids. constructor.
    - intros [H|[]]. discriminate H.
    - constructor; [intros []|constructor]. }
  assert (Hpos : forall pid, In pid child_pids -> 0 < pid).
  { rewrite Hpids. intros pid [<-|[<-|[]]]; reflexivity. }
  assert (Hne : NoDup [1000]) by (constructor; [intros []|constructor]).
  assert (Hincl : incl [1000] child_pids).
  { rewrite Hpids. intros q [<-|[]]. left. reflexivity. }
  split; [exact world_both_send_cooperative|]. split; [exact Hnd|].
  split; [exact Hpos|]. split; [exact Hpids|].
  destruct (counter_misses_workers_main_collects world_both_send content 2
              world_both_send_cooperative Hnd Hpos)
    as (_ & _ & _ & _ & Hrun).
  destruct (Hrun [1000] Hne Hincl) as (st1 & Hb & Ha & Hw).
  exists st1. split; [exact Hb|]. split; [exact Ha|]. split; [exact Hw|].
  vm_compute in Hb. injection Hb as <-. reflexivity.
Defined.
